(** * The configuration transpiler: AST, hashes, loader, apply and insert

    A shallow embedding of [internal/pkg/agent/transpiler/ast.go]: the node
    variants ([Dict], [Key], [List] and the scalar values), the two hashes,
    [Clone] / [ShallowClone], [Processors], [Apply], the loader ([NewAST],
    [load], [loadMap]), [dispatch] / [Map] and [Insert].

    Conventions of the embedding:
    - the Go interface type [Node] is the inductive [Node]; the nil interface
      value is the constructor [NilNode];
    - a Go panic (failed type assertion, method call on nil) is the outcome
      [Panic] of the result type [res];
    - in-place mutation is explicit state passing: a function that mutates
      its receiver returns the receiver as it is after the call;
    - the collaborators that live outside the package (the EQL compiler,
      [Vars.Replace], [strconv.FormatFloat]) are the fields of a class. *)

From Stdlib Require Import String Ascii Strings.Byte DecimalString.
From Stdlib Require Import ZArith Lia Bool List Permutation Sorted.
Import ListNotations.

Set Implicit Arguments.
Set Warnings "-register-all".

(* ================================================================== *)
(** ** Bytes *)

Definition bytes := list byte.

Definition byte_of_Z (z : Z) : byte :=
  match Byte.of_N (Z.to_N (Z.land z 255)) with
  | Some b => b
  | None => x00
  end.

Definition Z_of_byte (b : byte) : Z := Z.of_N (Byte.to_N b).

(** [[]byte(s)]: a Go string is its bytes. *)
Definition bytes_of_string (s : string) : bytes := list_byte_of_string s.

(* ================================================================== *)
(** ** crypto/sha256 (FIPS 180-4), on 32-bit words held in [Z] *)

Module SHA256.
Local Open Scope Z_scope.

Definition mask32 : Z := 4294967295.
Definition add32 (x y : Z) : Z := Z.land (x + y) mask32.
Definition rotr (n x : Z) : Z :=
  Z.lor (Z.shiftr x n) (Z.land (Z.shiftl x (32 - n)) mask32).
Definition not32 (x : Z) : Z := Z.lxor x mask32.

Definition Ch (x y z : Z) := Z.lxor (Z.land x y) (Z.land (not32 x) z).
Definition Maj (x y z : Z) :=
  Z.lxor (Z.lxor (Z.land x y) (Z.land x z)) (Z.land y z).
Definition bsig0 x := Z.lxor (Z.lxor (rotr 2 x) (rotr 13 x)) (rotr 22 x).
Definition bsig1 x := Z.lxor (Z.lxor (rotr 6 x) (rotr 11 x)) (rotr 25 x).
Definition ssig0 x := Z.lxor (Z.lxor (rotr 7 x) (rotr 18 x)) (Z.shiftr x 3).
Definition ssig1 x := Z.lxor (Z.lxor (rotr 17 x) (rotr 19 x)) (Z.shiftr x 10).

(** The round constants, eight per line, in decimal. *)
Definition K_0_7 : list Z :=
  [1116352408; 1899447441; 3049323471; 3921009573;
   961987163; 1508970993; 2453635748; 2870763221].
Definition K_8_15 : list Z :=
  [3624381080; 310598401; 607225278; 1426881987;
   1925078388; 2162078206; 2614888103; 3248222580].
Definition K_16_23 : list Z :=
  [3835390401; 4022224774; 264347078; 604807628;
   770255983; 1249150122; 1555081692; 1996064986].
Definition K_24_31 : list Z :=
  [2554220882; 2821834349; 2952996808; 3210313671;
   3336571891; 3584528711; 113926993; 338241895].
Definition K_32_39 : list Z :=
  [666307205; 773529912; 1294757372; 1396182291;
   1695183700; 1986661051; 2177026350; 2456956037].
Definition K_40_47 : list Z :=
  [2730485921; 2820302411; 3259730800; 3345764771;
   3516065817; 3600352804; 4094571909; 275423344].
Definition K_48_55 : list Z :=
  [430227734; 506948616; 659060556; 883997877;
   958139571; 1322822218; 1537002063; 1747873779].
Definition K_56_63 : list Z :=
  [1955562222; 2024104815; 2227730452; 2361852424;
   2428436474; 2756734187; 3204031479; 3329325298].
Definition K : list Z :=
  K_0_7 ++ K_8_15 ++ K_16_23 ++ K_24_31 ++
  K_32_39 ++ K_40_47 ++ K_48_55 ++ K_56_63.

Definition init : list Z :=
  [1779033703; 3144134277; 1013904242; 2773480762;
   1359893119; 2600822924; 528734635; 1541459225].

(** Big-endian encodings. *)
Definition be32 (x : Z) : list Z :=
  [Z.land (Z.shiftr x 24) 255; Z.land (Z.shiftr x 16) 255;
   Z.land (Z.shiftr x 8) 255; Z.land x 255].
Definition be64 (x : Z) : list Z := be32 (Z.shiftr x 32) ++ be32 (Z.land x mask32).

(** Padding: the bit 1, zeros up to 56 mod 64, the bit length on 64 bits. *)
Definition pad (msg : list Z) : list Z :=
  let l := Z.of_nat (length msg) in
  msg ++ [128] ++ repeat 0 (Z.to_nat ((55 - l) mod 64)) ++ be64 (8 * l).

Fixpoint words (bs : list Z) : list Z :=
  match bs with
  | a :: b :: c :: d :: rest =>
      (Z.shiftl a 24 + Z.shiftl b 16 + Z.shiftl c 8 + d) :: words rest
  | _ => []
  end.

Definition nthw (l : list Z) (i : nat) : Z := nth i l 0.

(** The message schedule: 48 more words after the block's sixteen. *)
Fixpoint schedule (n : nat) (w : list Z) : list Z :=
  match n with
  | O => w
  | S n' =>
      let t := length w in
      let x := add32 (add32 (ssig1 (nthw w (t - 2))) (nthw w (t - 7)))
                     (add32 (ssig0 (nthw w (t - 15))) (nthw w (t - 16))) in
      schedule n' (w ++ [x])
  end.

Record regs := Regs { ra : Z; rb : Z; rc : Z; rd : Z; re : Z; rf : Z; rg : Z; rh : Z }.

Definition round (s : regs) (kw : Z * Z) : regs :=
  let t1 := add32 (add32 (add32 (rh s) (bsig1 (re s)))
                         (add32 (Ch (re s) (rf s) (rg s)) (fst kw))) (snd kw) in
  let t2 := add32 (bsig0 (ra s)) (Maj (ra s) (rb s) (rc s)) in
  Regs (add32 t1 t2) (ra s) (rb s) (rc s) (add32 (rd s) t1) (re s) (rf s) (rg s).

Definition compress (h : list Z) (block : list Z) : list Z :=
  let w := schedule 48 block in
  let s0 := Regs (nthw h 0) (nthw h 1) (nthw h 2) (nthw h 3)
                 (nthw h 4) (nthw h 5) (nthw h 6) (nthw h 7) in
  let s := fold_left round (combine K w) s0 in
  [add32 (ra s0) (ra s); add32 (rb s0) (rb s); add32 (rc s0) (rc s);
   add32 (rd s0) (rd s); add32 (re s0) (re s); add32 (rf s0) (rf s);
   add32 (rg s0) (rg s); add32 (rh s0) (rh s)].

Fixpoint blocks (fuel : nat) (h : list Z) (ws : list Z) : list Z :=
  match fuel with
  | O => h
  | S fuel' =>
      match ws with
      | [] => h
      | _ => blocks fuel' (compress h (firstn 16 ws)) (skipn 16 ws)
      end
  end.

(** [h := sha256.New(); h.Write(b1); ...; h.Sum(nil)] is [Sum] of the
    concatenation of everything written. *)
Definition Sum (msg : bytes) : bytes :=
  let ws := words (pad (map Z_of_byte msg)) in
  map byte_of_Z (flat_map be32 (blocks (length ws) init ws)).
End SHA256.

(* ================================================================== *)
(** ** github.com/cespare/xxhash/v2: XXH64 with seed 0 *)

Module XXH64.
Local Open Scope Z_scope.

Definition mask64 : Z := 18446744073709551615.
Definition w64 (x : Z) : Z := Z.land x mask64.
Definition prime1 : Z := 11400714785074694791.
Definition prime2 : Z := 14029467366897019727.
Definition prime3 : Z := 1609587929392839161.
Definition prime4 : Z := 9650029242287828579.
Definition prime5 : Z := 2870177450012600261.

Definition rotl (x r : Z) : Z :=
  w64 (Z.lor (Z.shiftl x r) (Z.shiftr x (64 - r))).
Definition round (acc input : Z) : Z :=
  w64 (rotl (w64 (acc + input * prime2)) 31 * prime1).
Definition mergeRound (acc val : Z) : Z :=
  w64 (Z.lxor acc (round 0 val) * prime1 + prime4).

(** Little-endian read of a list of byte values. *)
Fixpoint le (bs : list Z) : Z :=
  match bs with
  | [] => 0
  | b :: rest => b + 256 * le rest
  end.

Record lanes := Lanes { v1 : Z; v2 : Z; v3 : Z; v4 : Z }.

(** The 32-byte stripes; returns the lanes and the unread tail. *)
Fixpoint stripes (fuel : nat) (v : lanes) (bs : list Z) : lanes * list Z :=
  match fuel with
  | O => (v, bs)
  | S fuel' =>
      if (length bs <? 32)%nat then (v, bs)
      else
        let v' := Lanes (round (v1 v) (le (firstn 8 bs)))
                        (round (v2 v) (le (firstn 8 (skipn 8 bs))))
                        (round (v3 v) (le (firstn 8 (skipn 16 bs))))
                        (round (v4 v) (le (firstn 8 (skipn 24 bs)))) in
        stripes fuel' v' (skipn 32 bs)
  end.

Fixpoint tail8 (fuel : nat) (h : Z) (bs : list Z) : Z * list Z :=
  match fuel with
  | O => (h, bs)
  | S fuel' =>
      if (length bs <? 8)%nat then (h, bs)
      else
        let k1 := round 0 (le (firstn 8 bs)) in
        tail8 fuel' (w64 (rotl (Z.lxor h k1) 27 * prime1 + prime4)) (skipn 8 bs)
  end.

Definition tail4 (h : Z) (bs : list Z) : Z * list Z :=
  if (length bs <? 4)%nat then (h, bs)
  else (w64 (rotl (Z.lxor h (w64 (le (firstn 4 bs) * prime1))) 23 * prime2 + prime3),
        skipn 4 bs).

Fixpoint tail1 (h : Z) (bs : list Z) : Z :=
  match bs with
  | [] => h
  | b :: rest => tail1 (w64 (rotl (Z.lxor h (w64 (b * prime5))) 11 * prime1)) rest
  end.

Definition avalanche (h : Z) : Z :=
  let h := Z.lxor h (Z.shiftr h 33) in
  let h := w64 (h * prime2) in
  let h := Z.lxor h (Z.shiftr h 29) in
  let h := w64 (h * prime3) in
  Z.lxor h (Z.shiftr h 32).

Definition sum64 (msg : bytes) : Z :=
  let bs := map Z_of_byte msg in
  let n := length bs in
  let '(h, rest) :=
    if (n <? 32)%nat then (prime5, bs)
    else
      let '(v, rest) :=
        stripes n (Lanes (w64 (prime1 + prime2)) prime2 0 (w64 (0 - prime1))) bs in
      let h := w64 (rotl (v1 v) 1 + rotl (v2 v) 7 + rotl (v3 v) 12 + rotl (v4 v) 18) in
      (mergeRound (mergeRound (mergeRound (mergeRound h (v1 v)) (v2 v)) (v3 v)) (v4 v),
       rest) in
  let h := w64 (h + Z.of_nat n) in
  let '(h, rest) := tail8 n h rest in
  let '(h, rest) := tail4 h rest in
  avalanche (tail1 h rest).

(** [xxhash.Digest]: the state is what has been written since the last
    [Reset]; [Sum64] is a function of it. *)
Record Digest := mkDigest { written : bytes }.
Definition New : Digest := mkDigest [].
Definition Reset (h : Digest) : Digest := mkDigest [].
Definition Write (h : Digest) (b : bytes) : Digest := mkDigest (written h ++ b).
Definition WriteString (h : Digest) (s : string) : Digest :=
  Write h (bytes_of_string s).
Definition Sum64 (h : Digest) : Z := sum64 (written h).
End XXH64.

(** Published test vectors of both digests. *)
Example sha256_empty :
  map Z_of_byte (SHA256.Sum (bytes_of_string "")) =
  [227; 176; 196; 66; 152; 252; 28; 20; 154; 251; 244; 200; 153; 111; 185; 36;
   39; 174; 65; 228; 100; 155; 147; 76; 164; 149; 153; 27; 120; 82; 184; 85]%Z.
Proof. vm_compute. reflexivity. Qed.

Example sha256_abc :
  map Z_of_byte (SHA256.Sum (bytes_of_string "abc")) =
  [186; 120; 22; 191; 143; 1; 207; 234; 65; 65; 64; 222; 93; 174; 34; 35;
   176; 3; 97; 163; 150; 23; 122; 156; 180; 16; 255; 97; 242; 0; 21; 173]%Z.
Proof. vm_compute. reflexivity. Qed.

Example xxh64_vectors :
  XXH64.sum64 (bytes_of_string "") = 17241709254077376921%Z /\
  XXH64.sum64 (bytes_of_string "a") = 15154266338359012955%Z /\
  XXH64.sum64 (bytes_of_string "abc") = 4952883123889572249%Z /\
  XXH64.sum64 (bytes_of_string "xxhash") = 3665147885093898016%Z /\
  XXH64.sum64 (bytes_of_string "Nobody inspects the spammish repetition")
    = 18144624926692707313%Z.
Proof. vm_compute. repeat split. Qed.

(* ================================================================== *)
(** ** strings, strconv and sort.Strings *)

Definition selectorSep : ascii := "."%char.
Definition conditionKey : string := "condition"%string.

(** [strings.Split(s, sep)] for a one-byte separator: never empty, and
    [Split("", sep)] is [[""]]. *)
Fixpoint Split (s : string) (sep : ascii) : list string :=
  match s with
  | EmptyString => [EmptyString]
  | String c rest =>
      if Ascii.eqb c sep then EmptyString :: Split rest sep
      else match Split rest sep with
           | [] => [String c EmptyString]
           | h :: t => String c h :: t
           end
  end.

Definition splitPath (s : string) : list string :=
  if String.eqb s EmptyString then [] else Split s selectorSep.

(** [strconv.Itoa] and [strconv.FormatUint(_, 10)]. *)
Definition Itoa (i : Z) : string := NilZero.string_of_int (Z.to_int i).
Definition FormatUint (u : Z) : string := NilZero.string_of_int (Z.to_int u).

Definition digit_of (c : ascii) : option Z :=
  let n := Z.of_N (N_of_ascii c) in
  if ((48 <=? n) && (n <=? 57))%Z then Some (n - 48)%Z else None.

Fixpoint digits (s : string) (acc : Z) : option Z :=
  match s with
  | EmptyString => Some acc
  | String c rest =>
      match digit_of c with
      | Some d => digits rest (10 * acc + d)%Z
      | None => None
      end
  end.

(** [strconv.Atoi]: an optional sign, then one or more decimal digits; a
    value outside the 64-bit [int] is a range error. [None] is [err != nil]. *)
Definition Atoi (s : string) : option Z :=
  let unsigned (t : string) :=
    match t with
    | EmptyString => None
    | _ => digits t 0%Z
    end in
  let v :=
    match s with
    | String "-"%char t => option_map Z.opp (unsigned t)
    | String "+"%char t => unsigned t
    | _ => unsigned s
    end in
  match v with
  | Some z => if ((- 2 ^ 63 <=? z) && (z <=? 2 ^ 63 - 1))%Z then Some z else None
  | None => None
  end.

(** Insertion into a list sorted by a key, before the first entry that is
    not smaller. [sort_by] inserts each entry into the sorted rest of the
    list, so entries of equal key keep their order: it returns what the
    insertion sort Go's [sort] runs on the slices met here (fewer than
    twelve entries) returns, and on entries with pairwise distinct keys
    every sorting algorithm returns the same list. *)
Section SortBy.
Variable A : Type.
Variable key : A -> string.

Fixpoint insert_by (x : A) (l : list A) : list A :=
  match l with
  | [] => [x]
  | y :: tl =>
      if String.ltb (key y) (key x) then y :: insert_by x tl else x :: l
  end.

Fixpoint sort_by (l : list A) : list A :=
  match l with
  | [] => []
  | x :: tl => insert_by x (sort_by tl)
  end.
End SortBy.

(** [sort.Strings]. *)
Definition sort_Strings (names : list string) : list string :=
  sort_by (fun s => s) names.

Example Split_examples :
  Split "a.b" selectorSep = ["a"; "b"]%string /\
  Split "" selectorSep = [""%string] /\
  Split "a." selectorSep = ["a"; ""]%string /\
  splitPath "" = [] /\
  Atoi "12" = Some 12%Z /\ Atoi "-3" = Some (-3)%Z /\ Atoi "x" = None /\
  Atoi "" = None /\ Itoa (-45) = "-45"%string /\
  sort_Strings ["b"; "a.b"; "a"; "a!"]%string = ["a"; "a!"; "a.b"; "b"]%string.
Proof. vm_compute. repeat split. Qed.

(* ================================================================== *)
(** ** The data model *)

(** The types of the collaborators outside the package: a compiled EQL
    expression ([*eql.Expression]), the variable context ([*Vars]) and the
    two floating-point types. *)
Class ExtTypes := {
  Expression : Type;
  Vars : Type;
  float64 : Type;
  float32 : Type
}.

Section Model.
Context {ET : ExtTypes}.

(** A native Go value as [reflect] sees it in [load], pointers and
    interfaces already followed ([lookupVal]). A [map[string]interface{}]
    is its entries in some iteration order; [load] never depends on that
    order, it sorts the keys. *)
Inductive native :=
| NNil
| NString (s : string)
| NInt (i : Z)
| NInt64 (i : Z)
| NUint (u : Z)
| NUint64 (u : Z)
| NFloat64 (f : float64)
| NFloat32 (f : float32)
| NBool (b : bool)
| NSlice (l : list native)
| NMap (m : list (string * native))
| NFunc          (* a non-nil value of another kind that can be nil *)
| NOther.        (* a value of a kind that cannot be nil: int32, struct, ... *)

(** [Processors]: [None] is the nil slice. *)
Definition Processors := option (list (list (string * native))).

Inductive Node :=
| NilNode
| Dict (value : list Node) (processors : Processors)
| Key (name : string) (value : Node) (condition : option Expression)
| List (value : list Node) (processors : Processors)
| StrVal (value : string) (processors : Processors)
| IntVal (value : Z) (processors : Processors)
| UIntVal (value : Z) (processors : Processors)
| FloatVal (value : float64) (processors : Processors)
| BoolVal (value : bool) (processors : Processors).

(** [AST]: [{root: Node}]. *)
Record AST := mkAST { root : Node }.

(** Errors, by the message that builds them. *)
Inductive error :=
| ErrInvalidCondition (src cause : string)  (* invalid condition "%s": %w *)
| ErrConditionEval (src cause : string)     (* condition "%s" evaluation failed: %w *)
| ErrConditionType (received : Node)        (* condition key's value must be a string; received %T *)
| ErrReplace (cause : string)               (* from Vars.Replace *)
| ErrUnknownType                            (* unknown type %T for %+v *)
| ErrParse (cause : error)                  (* could not parse configuration into a tree, error: %w *)
| ErrExpectingCollection (to : string)      (* expecting collection and received %T for '%s' *)
| ErrExpectingDict (to : string)            (* expecting Dict and received %T for '%s' *)
| ErrExpectingKey (to : string)             (* expecting Key and received %T for '%s' *)
| ErrNotMap.                                (* could not convert to map[string]iface, type is %T *)

(** The outcome of a call that can return an error or panic. *)
Inductive res (A : Type) :=
| Ok (a : A)
| Err (e : error)
| Panic.
Arguments Err {A} e.
Arguments Panic {A}.

(** The spec's error kinds for the errors of [Apply] on a condition. *)
Definition BadCondition (e : error) : bool :=
  match e with
  | ErrInvalidCondition _ _ | ErrConditionEval _ _ | ErrConditionType _ => true
  | _ => false
  end.
End Model.

Arguments Err {ET A} e.
Arguments Panic {ET A}.

(** The operations of the collaborators: [eql.New], [Expression.Eval]
    (always called with [true], missing variable is an error),
    [Vars.Replace], [strconv.FormatFloat(_, 'f', -1, 64)] and the widening
    [float64(float32)]. An error is its message. *)
Class ExtOps {ET : ExtTypes} := {
  eql_New : string -> Expression + string;
  eql_Eval : Expression -> Vars -> bool + string;
  Vars_Replace : Vars -> string -> Node + string;
  FormatFloat : float64 -> string;
  widen : float32 -> float64
}.

(* ================================================================== *)
(** ** Helpers for loops that can fail *)

Section Loops.
Context {ET : ExtTypes}.
Variables A B : Type.

Definition bind (x : res A) (k : A -> res B) : res B :=
  match x with
  | Ok a => k a
  | Err e => Err e
  | Panic => Panic
  end.

Variable f : A -> res B.

(** [for _, v := range l { ... f(v) ... }], stopping at the first call
    that does not return. *)
Fixpoint mapM (l : list A) : res (list B) :=
  match l with
  | [] => Ok []
  | x :: tl =>
      match f x with
      | Ok y =>
          match mapM tl with
          | Ok ys => Ok (y :: ys)
          | Err e => Err e
          | Panic => Panic
          end
      | Err e => Err e
      | Panic => Panic
      end
  end.
End Loops.

Notation "x <- c1 ;; c2" := (bind c1 (fun x => c2))
  (at level 61, c1 at next level, right associativity).

(** Writing [l[i] = x] through a pointer to the [i]-th element. *)
Fixpoint set_nth {A : Type} (i : nat) (x : A) (l : list A) : list A :=
  match l, i with
  | [], _ => []
  | _ :: tl, O => x :: tl
  | y :: tl, S i' => y :: set_nth i' x tl
  end.

(* ================================================================== *)
(** ** The methods of the nodes *)

Section Methods.
Context {ET : ExtTypes} {EO : ExtOps}.

Definition isNil (n : Node) : bool :=
  match n with NilNode => true | _ => false end.

Definition isKey (n : Node) : bool :=
  match n with Key _ _ _ => true | _ => false end.

(** The name of a node asserted to be a [Key]. *)
Definition key_name (n : Node) : string :=
  match n with Key name _ _ => name | _ => EmptyString end.

(** *** Find *)

(** What [Find] returns: the node found and, as the identity of the
    pointer, its position among the children searched. *)
Inductive lookup :=
| Found (i : nat) (n : Node)
| NotFound
| LookupPanic.

Definition shift (r : lookup) : lookup :=
  match r with
  | Found i n => Found (S i) n
  | _ => r
  end.

(** [Dict.Find]: the first child whose name is [key]; the type
    assertion on each child visited panics on one that is not a [Key]. *)
Fixpoint Dict_Find (value : list Node) (key : string) : lookup :=
  match value with
  | [] => NotFound
  | Key name _ _ as i :: tl =>
      if String.eqb name key then Found O i else shift (Dict_Find tl key)
  | _ :: _ => LookupPanic
  end.

(** [List.Find]. *)
Definition List_Find (value : list Node) (idx : string) : lookup :=
  match Atoi idx with
  | None => NotFound
  | Some i =>
      if ((i >? Z.of_nat (length value) - 1) || (i <? 0))%Z then NotFound
      else Found (Z.to_nat i) (nth (Z.to_nat i) value NilNode)
  end.

Definition Find (n : Node) (key : string) : lookup :=
  match n with
  | NilNode => LookupPanic
  | Dict value _ => Dict_Find value key
  | Key _ (Dict value _) _ => Dict_Find value key
  | Key _ (List value _) _ => List_Find value key
  | Key _ _ _ => NotFound
  | List value _ => List_Find value key
  | _ => NotFound
  end.

(** Storing [x] where a pointer returned by [Find n] points. *)
Definition set_child (n : Node) (i : nat) (x : Node) : Node :=
  match n with
  | Dict value p => Dict (set_nth i x value) p
  | Key name (Dict value p) c => Key name (Dict (set_nth i x value) p) c
  | Key name (List value p) c => Key name (List (set_nth i x value) p) c
  | List value p => List (set_nth i x value) p
  | _ => n
  end.

(** *** Clone and ShallowClone *)

Section CloneChildren.
Variable f : Node -> Node.
(** [for _, i := range value { if i == nil { continue }; nodes = append(nodes, f(i)) }] *)
Fixpoint clone_children (value : list Node) : list Node :=
  match value with
  | [] => []
  | NilNode :: tl => clone_children tl
  | i :: tl => f i :: clone_children tl
  end.
End CloneChildren.

(** [Clone] on a node that is not nil; every call site but [AST.Clone]
    tests for nil first. *)
Fixpoint Clone (n : Node) : Node :=
  match n with
  | NilNode => NilNode
  | Dict value _ => Dict (clone_children Clone value) None
  | Key name NilNode _ => Key name NilNode None
  | Key name v _ => Key name (Clone v) None
  | List value _ => List (clone_children Clone value) None
  | StrVal _ _ | IntVal _ _ | UIntVal _ _ | FloatVal _ _ | BoolVal _ _ => n
  end.

Fixpoint ShallowClone (n : Node) : Node :=
  match n with
  | NilNode => NilNode
  | Dict value _ => Dict (clone_children ShallowClone value) None
  | Key name v _ => Key name v None
  | List value _ => List (clone_children (fun i => i) value) None
  | StrVal _ _ | IntVal _ _ | UIntVal _ _ | FloatVal _ _ | BoolVal _ _ => Clone n
  end.

(** [AST.Clone] and [AST.ShallowClone]: a method call on a nil root panics. *)
Definition AST_Clone (a : AST) : res AST :=
  match root a with
  | NilNode => Panic
  | r => Ok (mkAST (Clone r))
  end.

Definition AST_ShallowClone (a : AST) : res AST :=
  match root a with
  | NilNode => Panic
  | r => Ok (mkAST (ShallowClone r))
  end.

(** *** Hash (SHA-256) *)

Definition trueVal : bytes := [x01].
Definition falseVal : bytes := [x00].

Definition hashString (f : float64) : string := FormatFloat f.

(** What each variant hands to its caller: a container or a [Key] the
    digest of what it wrote to its own hasher, a scalar its raw bytes. *)
Fixpoint Hash (n : Node) : res bytes :=
  match n with
  | NilNode => Panic
  | Dict value _ =>
      hs <- mapM Hash value ;; Ok (SHA256.Sum (concat hs))
  | Key name NilNode _ => Ok (SHA256.Sum (bytes_of_string name))
  | Key name v _ =>
      hv <- Hash v ;; Ok (SHA256.Sum (bytes_of_string name ++ hv))
  | List value _ =>
      hs <- mapM Hash value ;; Ok (SHA256.Sum (concat hs))
  | StrVal s _ => Ok (bytes_of_string s)
  | IntVal i _ => Ok (bytes_of_string (Itoa i))
  | UIntVal u _ => Ok (bytes_of_string (FormatUint u))
  | FloatVal f _ => Ok (bytes_of_string (hashString f))
  | BoolVal b _ => Ok (if b then trueVal else falseVal)
  end.

Definition AST_Hash (a : AST) : res bytes := Hash (root a).

(** *** Hash64With (xxhash) *)

Section Hash64Children.
Variable f : Node -> XXH64.Digest -> res XXH64.Digest.
Fixpoint hash64_children (value : list Node) (h : XXH64.Digest) : res XXH64.Digest :=
  match value with
  | [] => Ok h
  | v :: tl => h' <- f v h ;; hash64_children tl h'
  end.
End Hash64Children.

(** The digest after the call; the [error] returned is always nil, since
    a write to an [xxhash.Digest] never fails. *)
Fixpoint Hash64With (n : Node) (h : XXH64.Digest) : res XXH64.Digest :=
  match n with
  | NilNode => Panic
  | Dict value _ => hash64_children Hash64With value h
  | Key name NilNode _ => Ok (XXH64.WriteString h name)
  | Key name v _ => Hash64With v (XXH64.WriteString h name)
  | List value _ => hash64_children Hash64With value h
  | StrVal s _ => Ok (XXH64.WriteString h s)
  | IntVal i _ => Ok (XXH64.WriteString h (Itoa i))
  | UIntVal u _ => Ok (XXH64.WriteString h (FormatUint u))
  | FloatVal f _ => Ok (XXH64.WriteString h (hashString f))
  | BoolVal b _ => Ok (XXH64.Write h (if b then trueVal else falseVal))
  end.

Definition AST_Hash64With (a : AST) (h : XXH64.Digest) : res XXH64.Digest :=
  Hash64With (root a) h.

(** The fast hash of a tree: a fresh digest, the tree fed to it, its sum. *)
Definition fast_hash (n : Node) : res Z :=
  h <- Hash64With n XXH64.New ;; Ok (XXH64.Sum64 h).

(** [AST.Equal]. *)
Definition AST_Equal (a other : AST) : res bool :=
  match root a, root other with
  | NilNode, NilNode => Ok true
  | NilNode, _ | _, NilNode => Ok false
  | _, _ =>
      h1 <- AST_Hash64With a XXH64.New ;;
      h2 <- AST_Hash64With other (XXH64.Reset h1) ;;
      Ok (Z.eqb (XXH64.Sum64 h1) (XXH64.Sum64 h2))
  end.

(** *** Processors *)

Section ProcessorsChildren.
Variable f : Node -> res Processors.
Fixpoint processors_children (value : list Node) : res Processors :=
  match value with
  | [] => Ok None
  | v :: tl =>
      p <- f v ;;
      match p with
      | Some _ => Ok p
      | None => processors_children tl
      end
  end.
End ProcessorsChildren.

Fixpoint Node_Processors (n : Node) : res Processors :=
  match n with
  | NilNode => Panic
  | Dict value (Some p) => Ok (Some p)
  | Dict value None => processors_children Node_Processors value
  | Key _ NilNode _ => Ok None
  | Key _ v _ => Node_Processors v
  | List value (Some p) => Ok (Some p)
  | List value None => processors_children Node_Processors value
  | StrVal _ p | IntVal _ p | UIntVal _ p | FloatVal _ p | BoolVal _ p => Ok p
  end.

(** *** sort *)

(** [Dict.sort]: [sort.Slice] by the name of each child asserted to be
    a [Key]. With fewer than two
    children nothing is compared; otherwise every child is, and the
    assertion panics on one that is not a [Key]. *)
Definition Dict_sort (value : list Node) : res (list Node) :=
  if (length value <? 2)%nat then Ok value
  else if forallb isKey value then Ok (sort_by key_name value)
  else Panic.
End Methods.

(* ================================================================== *)
(** ** Apply *)

Section ApplyLoops.
Context {ET : ExtTypes}.
(** [f] is [Apply vars]: the node as the call leaves it, and what the
    call returns. *)
Variable f : Node -> Node * res Node.

(** The loop of [Dict.Apply] over the children not yet visited, [nodes]
    being the result built so far. Returns the children as the loop
    leaves them and what [Dict.Apply] returns. *)
Fixpoint Dict_Apply_loop (value : list Node) (nodes : list Node)
  : list Node * res Node :=
  match value with
  | [] => ([], Ok (Dict nodes None))
  | Key name _ _ as v :: tl =>
      let '(k', r) := f v in
      match r with
      | Err e => (k' :: tl, Err e)
      | Panic => (k' :: tl, Panic)
      | Ok NilNode =>
          let '(tl', r') := Dict_Apply_loop tl nodes in (k' :: tl', r')
      | Ok n =>
          if String.eqb name conditionKey then
            match n with
            | Key _ (BoolVal b _) _ =>
                if b then
                  (* condition successful, but not included in the result *)
                  let '(tl', r') := Dict_Apply_loop tl nodes in (k' :: tl', r')
                else
                  (* condition failed; whole dictionary should be removed *)
                  (k' :: tl, Ok NilNode)
            | _ => (k' :: tl, Panic)
            end
          else
            let '(tl', r') := Dict_Apply_loop tl (nodes ++ [n]) in (k' :: tl', r')
      end
  | _ :: _ => (value, Panic)
  end.

(** The loop of [List.Apply]. *)
Fixpoint List_Apply_loop (value : list Node) (nodes : list Node)
  : list Node * res Node :=
  match value with
  | [] => ([], Ok (List nodes None))
  | v :: tl =>
      let '(v', r) := f v in
      match r with
      | Err e => (v' :: tl, Err e)
      | Panic => (v' :: tl, Panic)
      | Ok NilNode =>
          let '(tl', r') := List_Apply_loop tl nodes in (v' :: tl', r')
      | Ok n =>
          let '(tl', r') := List_Apply_loop tl (nodes ++ [n]) in (v' :: tl', r')
      end
  end.
End ApplyLoops.

Section Apply.
Context {ET : ExtTypes} {EO : ExtOps}.

(** [k.condition.Eval(vars, true)] and the node built from its result,
    for the entry [Key name v (Some ex)] whose string is [s]. *)
Definition Key_Apply_eval (vars : Vars) (name s : string) (v : Node)
           (ex : Expression) : Node * res Node :=
  match eql_Eval ex vars with
  | inr e => (Key name v (Some ex), Err (ErrConditionEval s e))
  | inl cond => (Key name v (Some ex), Ok (Key name (BoolVal cond None) None))
  end.

(** [Apply vars n]: the receiver [n] as the call leaves it (only the
    memoized [condition] of a [Key] is ever written), and the returned
    node ([Ok NilNode] is [nil, nil]) or error. *)
Fixpoint Apply (vars : Vars) (n : Node) : Node * res Node :=
  match n with
  | NilNode => (NilNode, Panic)
  | Dict value p =>
      let '(value', r) := Dict_Apply_loop (Apply vars) value [] in
      (Dict value' p, r)
  | Key name v c =>
      match v with
      | NilNode => (n, Ok n)
      | _ =>
          if String.eqb name conditionKey then
            match v with
            | BoolVal _ _ => (n, Ok n)
            | StrVal s _ =>
                match c with
                | None =>
                    match eql_New s with
                    | inr e => (n, Err (ErrInvalidCondition s e))
                    | inl ex => Key_Apply_eval vars name s v ex
                    end
                | Some ex => Key_Apply_eval vars name s v ex
                end
            | _ => (n, Err (ErrConditionType v))
            end
          else
            let '(v', r) := Apply vars v in
            (Key name v' c,
             match r with
             | Ok NilNode => Ok NilNode
             | Ok x => Ok (Key name x None)
             | Err e => Err e
             | Panic => Panic
             end)
      end
  | List value p =>
      let '(value', r) := List_Apply_loop (Apply vars) value [] in
      (List value' p, r)
  | StrVal s _ =>
      (n, match Vars_Replace vars s with
          | inl m => Ok m
          | inr e => Err (ErrReplace e)
          end)
  | IntVal _ _ | UIntVal _ _ | FloatVal _ _ | BoolVal _ _ => (n, Ok n)
  end.
End Apply.

(* ================================================================== *)
(** ** The loader *)

Section Loader.
Context {ET : ExtTypes} {EO : ExtOps}.

Definition isDictOrKey (val : Node) : bool :=
  match val with
  | Key _ _ _ | Dict _ _ => true
  | _ => false
  end.

(** The remainder built for [restKeys], from the last key to the first. *)
Definition loadMap_rest (restKeys : list string) (aValue : Node) : list Node :=
  match restKeys with
  | [] =>
      match aValue with
      | Dict v _ => v
      | Key _ v _ => [v]
      | _ => [aValue]
      end
  | _ =>
      fold_left
        (fun restValue k =>
           match restValue with
           | [] => [Key k aValue None]
           | _ => [Key k (Clone (Dict restValue None)) None]
           end)
        (rev restKeys) []
  end.

(** "Attach remainder to last known node". *)
Definition loadMap_attach (keys : list string) (aValue : Node)
           (lastKnownKeyIdx : nat) (knownNode : Node) : Node :=
  let restValue := loadMap_rest (skipn (S lastKnownKeyIdx) keys) aValue in
  let restKey := Key (nth lastKnownKeyIdx keys EmptyString) (Dict restValue None) None in
  match knownNode with
  | Dict value p => Dict (value ++ [restKey]) p
  | Key name (Dict value p) c => Key name (Dict (value ++ restValue) p) c
  | _ => knownNode
  end.

(** "get last known existing node", from the [i]-th key on, then the
    attachment; returns [knownNode] as the iteration leaves it. *)
Fixpoint loadMap_walk (keys : list string) (aValue : Node)
         (i lastKnownKeyIdx : nat) (ks : list string) (knownNode : Node)
  : res Node :=
  match ks with
  | [] => Ok (loadMap_attach keys aValue lastKnownKeyIdx knownNode)
  | k :: ks' =>
      match Find knownNode k with
      | LookupPanic => Panic
      | NotFound => Ok (loadMap_attach keys aValue lastKnownKeyIdx knownNode)
      | Found j n =>
          n' <- loadMap_walk keys aValue (S i) i ks' n ;;
          Ok (set_child knownNode j n')
      end
  end.

(** One iteration of the loop of [loadMap] over the sorted names, on the
    children of [node]. *)
Definition loadMap_step (value : list Node) (name : string) (aValue : Node)
  : res (list Node) :=
  let keys := Split name selectorSep in
  if negb (isDictOrKey aValue) then Ok (value ++ [Key name aValue None])
  else
    node <- loadMap_walk keys aValue 0 0 keys (Dict value None) ;;
    match node with
    | Dict value' _ => Ok value'
    | _ => Ok value
    end.

(** [val.MapIndex(name)], already loaded. *)
Fixpoint MapIndex {A : Type} (m : list (string * A)) (name : string) : option A :=
  match m with
  | [] => None
  | (k, v) :: tl => if String.eqb k name then Some v else MapIndex tl name
  end.

Fixpoint loadMap_loop (loaded : list (string * res Node)) (names : list string)
         (value : list Node) : res (list Node) :=
  match names with
  | [] => Ok value
  | name :: rest =>
      match MapIndex loaded name with
      | None => Panic
      | Some r =>
          aValue <- r ;;
          value' <- loadMap_step value name aValue ;;
          loadMap_loop loaded rest value'
      end
  end.

(** [loadMap], given each entry with the result [load] has on its value. *)
Definition loadMap (loaded : list (string * res Node)) : res Node :=
  value <- loadMap_loop loaded (sort_Strings (map fst loaded)) [] ;;
  Ok (Dict value None).

Definition loadSliceOrArray (loaded : list (res Node)) : res Node :=
  value <- mapM (fun r => r) loaded ;; Ok (List value None).

Fixpoint load (val : native) : res Node :=
  match val with
  | NMap m => loadMap (map (fun kv => (fst kv, load (snd kv))) m)
  | NSlice l => loadSliceOrArray (map load l)
  | NString s => Ok (StrVal s None)
  | NInt i => Ok (IntVal i None)
  | NInt64 i => Ok (IntVal i None)
  | NUint u => Ok (UIntVal u None)
  | NUint64 u => Ok (UIntVal u None)
  | NFloat64 f => Ok (FloatVal f None)
  | NFloat32 f => Ok (FloatVal (widen f) None)
  | NBool b => Ok (BoolVal b None)
  | NNil => Ok NilNode
  | NFunc => Err ErrUnknownType
  | NOther => Panic
  end.

Definition loadForNew (val : native) : res Node :=
  match load val with
  | Ok r => Ok r
  | Err e => Err (ErrParse e)
  | Panic => Panic
  end.

Definition NewAST (m : list (string * native)) : res AST :=
  r <- loadForNew (NMap m) ;; Ok (mkAST r).
End Loader.

(* ================================================================== *)
(** ** Visitors and Map *)

Section Visitors.
Context {ET : ExtTypes}.

(** A [Visitor] by what a visit leaves in it ([R], the [Content] of a
    [MapVisitor]): [fresh] is a new sub-visitor on which nothing was
    called; [OnDict] receives, in the order of the children, each
    [OnKey] name with the sub-visitor handed to [OnValue]; [OnList] each
    sub-visitor handed to [OnValue]. *)
Record Visitor (R : Type) := {
  fresh : R;
  OnDict : list (string * R) -> R;
  OnList : list R -> R;
  OnStr : string -> R;
  OnInt : Z -> R;
  OnUInt : Z -> R;
  OnBool : bool -> R;
  OnFloat : float64 -> R
}.

Section Dispatch.
Variable R : Type.
Variable visitor : Visitor R.

(** [AST.dispatch]: no case of the type switch matches a nil node or a
    [Key], and the visitor is left as it was. *)
Fixpoint dispatch (n : Node) : res R :=
  match n with
  | Dict value _ =>
      entries <- mapM (fun child =>
                         match child with
                         | Key name v _ => r <- dispatch v ;; Ok (name, r)
                         | _ => Panic
                         end) value ;;
      Ok (OnDict visitor entries)
  | List value _ =>
      subs <- mapM dispatch value ;; Ok (OnList visitor subs)
  | StrVal s _ => Ok (OnStr visitor s)
  | IntVal i _ => Ok (OnInt visitor i)
  | UIntVal u _ => Ok (OnUInt visitor u)
  | BoolVal b _ => Ok (OnBool visitor b)
  | FloatVal f _ => Ok (OnFloat visitor f)
  | NilNode | Key _ _ _ => Ok (fresh visitor)
  end.
End Dispatch.

(** [m[k] = v] on a map held as its entries: a present key keeps its
    place and takes the new value. *)
Fixpoint map_store (m : list (string * native)) (k : string) (v : native)
  : list (string * native) :=
  match m with
  | [] => [(k, v)]
  | (k', v') :: tl =>
      if String.eqb k' k then (k, v) :: tl else (k', v') :: map_store tl k v
  end.

(** Modelled from the spec: [MapVisitor], whose code is not among the
    sources. "It reconstitutes a native mapping whose container types
    mirror the variants"; its output has "the same shape, with the same
    type correspondences" as the loader's input, whose leaves are
    [string | int64 | uint64 | float64 | bool | nil]. *)
Definition MapVisitor : Visitor native := {|
  fresh := NNil;
  OnDict := fun entries =>
    NMap (fold_left (fun m kv => map_store m (fst kv) (snd kv)) entries []);
  OnList := fun subs => NSlice subs;
  OnStr := NString;
  OnInt := NInt64;
  OnUInt := NUint64;
  OnBool := NBool;
  OnFloat := NFloat64
|}.

(** [AST.Map]. *)
Definition AST_Map (a : AST) : res (list (string * native)) :=
  content <- dispatch MapVisitor (root a) ;;
  match content with
  | NMap mapped => Ok mapped
  | _ => Err ErrNotMap
  end.
End Visitors.

(* ================================================================== *)
(** ** Insert *)

Section Insert.
Context {ET : ExtTypes} {EO : ExtOps}.

(** The position of the first [Key] child named [name], children that
    are not a [Key] being skipped. *)
Fixpoint dup_index (name : string) (value : list Node) : option nat :=
  match value with
  | [] => None
  | Key k _ _ :: tl =>
      if String.eqb k name then Some O else option_map S (dup_index name tl)
  | _ :: tl => option_map S (dup_index name tl)
  end.

(** "remove the duplicate key (if it exists)": the last child is moved
    to its place and the slice shortened by one. *)
Definition remove_dup (name : string) (value : list Node) : list Node :=
  match dup_index name value with
  | Some i => removelast (set_nth i (last value NilNode) value)
  | None => value
  end.

(** What follows the loop of [Insert]: [current] takes [node]. Returns
    [current] as it is left. *)
Definition Insert_assign (to : string) (node : Node) (current : Node)
  : Node * res unit :=
  match current with
  | Key name v c =>
      match node with
      | Dict _ _ | List _ _ => (Key name node c, Ok tt)
      | Key ntname _ _ =>
          match v with
          | Dict dValue p =>
              let removed := remove_dup ntname dValue ++ [node] in
              match Dict_sort removed with
              | Ok sorted => (Key name (Dict sorted p) c, Ok tt)
              | Err e => (Key name (Dict removed p) c, Err e)
              | Panic => (Key name (Dict removed p) c, Panic)
              end
          | _ => (Key name (Dict [node] None) c, Ok tt)
          end
      | _ => (Key name (Dict [node] None) c, Ok tt)
      end
  | _ => (current, Err (ErrExpectingKey to))
  end.

(** A new [Key] appended to the children [value] of a [Dict], the
    children sorted, and the rest of the walk [k] run on the new key
    where the sort has put it. *)
Definition Insert_new_key (k : Node -> Node * res unit) (part : string)
           (value : list Node) : list Node * res unit :=
  let newNode := Key part (Dict [] None) None in
  match Dict_sort (value ++ [newNode]) with
  | Ok sorted =>
      let '(newNode', r) := k newNode in
      match Dict_Find sorted part with
      | Found j _ => (set_nth j newNode' sorted, r)
      | _ => (sorted, r)
      end
  | Err e => (value ++ [newNode], Err e)
  | Panic => (value ++ [newNode], Panic)
  end.

(** The loop of [Insert] over the parts of the selector from [current],
    then the assignment. Returns [current] as it is left, also when the
    call fails after it has created nodes. *)
Fixpoint Insert_walk (to : string) (node : Node) (parts : list string)
         (current : Node) : Node * res unit :=
  match parts with
  | [] => Insert_assign to node current
  | part :: rest =>
      match Find current part with
      | LookupPanic => (current, Panic)
      | Found i n =>
          let '(n', r) := Insert_walk to node rest n in
          (set_child current i n', r)
      | NotFound =>
          match current with
          | Key name (Dict value p) c =>
              let '(value', r) :=
                Insert_new_key (Insert_walk to node rest) part value in
              (Key name (Dict value' p) c, r)
          | Key name (List value p) c =>
              (* inserting at index but array empty *)
              let '(newNode', r) := Insert_walk to node rest (Dict [] None) in
              (Key name (List (value ++ [newNode']) p) c, r)
          | Key _ _ _ => (current, Err (ErrExpectingCollection to))
          | Dict value p =>
              let '(value', r) :=
                Insert_new_key (Insert_walk to node rest) part value in
              (Dict value' p, r)
          | _ => (current, Err (ErrExpectingDict to))
          end
      end
  end.

(** [Insert(a, node, to)]: the tree as the call leaves it, and the error
    returned ([Ok tt] is nil). *)
Definition Insert (a : AST) (node : Node) (to : string) : AST * res unit :=
  let '(r, e) := Insert_walk to node (splitPath to) (root a) in
  (mkAST r, e).
End Insert.

(* ================================================================== *)
(** ** A small instance of the collaborators, to run the model *)

Module Toy.
(** Expressions: the two boolean literals. Variables: none. Floats:
    none either. *)
#[global] Instance types : ExtTypes := {|
  Expression := bool;
  Vars := unit;
  float64 := Empty_set;
  float32 := Empty_set
|}.

Definition lit (b : bool) : @Expression types := b.

Definition compile (s : string) : @Expression types + string :=
  if String.eqb s "true" then inl (lit true)
  else if String.eqb s "false" then inl (lit false)
  else inr "syntax error"%string.

(** A string with no variable reference is returned as a [StrVal]. *)
#[global] Instance ops : ExtOps := {|
  eql_New := compile;
  eql_Eval := fun ex _ => inl ex;
  Vars_Replace := fun _ s => inl (StrVal s None);
  FormatFloat := fun f => match f with end;
  widen := fun f => f
|}.
End Toy.

(* ================================================================== *)
(** * Properties *)

(** ** Induction on nodes, through the lists of children *)

Section NodeInduction.
Context {ET : ExtTypes}.
Variable P : Node -> Prop.
Hypothesis HNil : P NilNode.
Hypothesis HDict : forall value p, Forall P value -> P (Dict value p).
Hypothesis HKey : forall name v c, P v -> P (Key name v c).
Hypothesis HList : forall value p, Forall P value -> P (List value p).
Hypothesis HStr : forall s p, P (StrVal s p).
Hypothesis HInt : forall i p, P (IntVal i p).
Hypothesis HUInt : forall u p, P (UIntVal u p).
Hypothesis HFloat : forall f p, P (FloatVal f p).
Hypothesis HBool : forall b p, P (BoolVal b p).

Fixpoint Node_nested_ind (n : Node) : P n :=
  let children :=
    fix children (l : list Node) : Forall P l :=
      match l with
      | [] => Forall_nil P
      | x :: tl => Forall_cons x (Node_nested_ind x) (children tl)
      end in
  match n with
  | NilNode => HNil
  | Dict value p => HDict p (children value)
  | Key name v c => HKey name c (Node_nested_ind v)
  | List value p => HList p (children value)
  | StrVal s p => HStr s p
  | IntVal i p => HInt i p
  | UIntVal u p => HUInt u p
  | FloatVal f p => HFloat f p
  | BoolVal b p => HBool b p
  end.
End NodeInduction.

Ltac node_induction n :=
  induction n as [ | value p IHvalue | name v c IHv | value p IHvalue
                 | s p | i p | u p | f p | b p ] using Node_nested_ind.

(** ** Loops that return *)

Lemma mapM_Ok_inv {ET : ExtTypes} (A B : Type) (f : A -> res B) x l ys :
  mapM f (x :: l) = Ok ys ->
  exists y ys', f x = Ok y /\ mapM f l = Ok ys' /\ ys = y :: ys'.
Proof.
  simpl. destruct (f x) as [y | e | ]; try discriminate.
  destruct (mapM f l) as [ys' | e | ]; try discriminate.
  intros H. inversion H. subst. eauto.
Qed.

Lemma clone_children_no_nil {ET : ExtTypes} (f : Node -> Node) (value : list Node) :
  Forall (fun v => isNil v = false) value ->
  clone_children f value = map f value.
Proof.
  induction 1 as [ | v tl Hv _ IH]; simpl; [reflexivity | ].
  rewrite IH. destruct v; simpl in Hv; try discriminate; reflexivity.
Qed.
(** ** The equations of the methods on a [Key] *)

Section KeyEquations.
Context {ET : ExtTypes} {EO : ExtOps}.

Lemma Clone_Key name v c : Clone (Key name v c) = Key name (Clone v) None.
Proof. destruct v; reflexivity. Qed.

Lemma isNil_Clone n : isNil (Clone n) = isNil n.
Proof. destruct n as [ | | ? v ? | | | | | | ]; try reflexivity. destruct v; reflexivity. Qed.

Lemma isNil_ShallowClone n : isNil (ShallowClone n) = isNil n.
Proof. destruct n; reflexivity. Qed.

Lemma Hash_Key name v c :
  Hash (Key name v c) =
  if isNil v then Ok (SHA256.Sum (bytes_of_string name))
  else hv <- Hash v ;; Ok (SHA256.Sum (bytes_of_string name ++ hv)).
Proof. destruct v; reflexivity. Qed.

Lemma Hash64With_Key name v c h :
  Hash64With (Key name v c) h =
  if isNil v then Ok (XXH64.WriteString h name)
  else Hash64With v (XXH64.WriteString h name).
Proof. destruct v; reflexivity. Qed.

Lemma Processors_Key name v c :
  Node_Processors (Key name v c) = if isNil v then Ok None else Node_Processors v.
Proof. destruct v; reflexivity. Qed.


Lemma Hash64With_Ok_not_nil n h h' : Hash64With n h = Ok h' -> isNil n = false.
Proof. destruct n; simpl; congruence. Qed.
End KeyEquations.

(** ** Hashes of clones *)

Section HashClone.
Context {ET : ExtTypes} {EO : ExtOps}.
Variable f : Node -> Node.


Lemma hash64_clone_children value :
  Forall (fun v => forall h h', Hash64With v h = Ok h' -> Hash64With (f v) h = Ok h') value ->
  forall h h',
  hash64_children Hash64With value h = Ok h' ->
  hash64_children Hash64With (clone_children f value) h = Ok h'.
Proof.
  induction 1 as [ | v tl Hv _ IH]; intros h h' H; [exact H | ].
  simpl in H. destruct (Hash64With v h) as [h1 | e | ] eqn:E1; try discriminate.
  simpl in H.
  assert (Hn : isNil v = false) by (eapply Hash64With_Ok_not_nil; eauto).
  assert (E : clone_children f (v :: tl) = f v :: clone_children f tl)
    by (destruct v; simpl in Hn; try discriminate; reflexivity).
  rewrite E. simpl. rewrite (Hv _ _ E1). simpl. apply IH. exact H.
Qed.
End HashClone.

Section HashCloneNodes.
Context {ET : ExtTypes} {EO : ExtOps}.


Lemma Hash64With_Clone n :
  forall h h', Hash64With n h = Ok h' -> Hash64With (Clone n) h = Ok h'.
Proof.
  node_induction n; intros h h' H; try exact H.
  - simpl in *. apply hash64_clone_children; assumption.
  - rewrite Clone_Key, Hash64With_Key, isNil_Clone. rewrite Hash64With_Key in H.
    destruct (isNil v); [exact H | ]. apply IHv. exact H.
  - simpl in *. apply hash64_clone_children; assumption.
Qed.


Lemma Hash64With_ShallowClone n :
  forall h h', Hash64With n h = Ok h' -> Hash64With (ShallowClone n) h = Ok h'.
Proof.
  node_induction n; intros h h' H; try exact H.
  - simpl in *. apply hash64_clone_children; assumption.
  - simpl in *. apply (@hash64_clone_children _ _ (fun i => i)); [ | exact H].
    apply Forall_forall. auto.
Qed.
End HashCloneNodes.



(** ** Processors of clones *)

Section ProcessorsClone.
Context {ET : ExtTypes} {EO : ExtOps}.

Lemma processors_children_all_None value :
  Forall (fun v => Node_Processors v = Ok None) value ->
  processors_children Node_Processors value = Ok None.
Proof.
  induction 1 as [ | v tl Hv _ IH]; simpl; [reflexivity | ].
  rewrite Hv. simpl. exact IH.
Qed.

Lemma processors_children_None_inv value :
  processors_children Node_Processors value = Ok None ->
  Forall (fun v => Node_Processors v = Ok None) value.
Proof.
  induction value as [ | v tl IH]; simpl; intros H; constructor.
  - destruct (Node_Processors v) as [[q | ] | e | ]; simpl in H;
      try discriminate; reflexivity.
  - apply IH.
    destruct (Node_Processors v) as [[q | ] | e | ]; simpl in H;
      try discriminate; exact H.
Qed.

Lemma Processors_Ok_not_nil n q : Node_Processors n = Ok q -> isNil n = false.
Proof. destruct n; simpl; congruence. Qed.

(** Children that carry no processors carry none once cloned by [f]. *)
Lemma processors_clone_children (f : Node -> Node) value :
  Forall (fun v => Node_Processors v = Ok None -> Node_Processors (f v) = Ok None) value ->
  Forall (fun v => Node_Processors v = Ok None) value ->
  processors_children Node_Processors (clone_children f value) = Ok None.
Proof.
  intros HF HN. rewrite clone_children_no_nil.
  - apply processors_children_all_None. apply Forall_map.
    rewrite Forall_forall in *. intros v Hv. apply HF; auto.
  - rewrite Forall_forall in *. intros v Hv.
    eapply Processors_Ok_not_nil. apply HN. exact Hv.
Qed.

Lemma Processors_Clone_None n :
  Node_Processors n = Ok None -> Node_Processors (Clone n) = Ok None.
Proof.
  node_induction n; intros H; try exact H.
  - destruct p as [q | ]; [discriminate H | ]. simpl in *.
    apply processors_clone_children; [exact IHvalue | ].
    apply processors_children_None_inv. exact H.
  - rewrite Clone_Key, Processors_Key, isNil_Clone. rewrite Processors_Key in H.
    destruct (isNil v); [reflexivity | auto].
  - destruct p as [q | ]; [discriminate H | ]. simpl in *.
    apply processors_clone_children; [exact IHvalue | ].
    apply processors_children_None_inv. exact H.
Qed.

Lemma Processors_ShallowClone_None n :
  Node_Processors n = Ok None -> Node_Processors (ShallowClone n) = Ok None.
Proof.
  node_induction n; intros H; try exact H.
  - destruct p as [q | ]; [discriminate H | ]. simpl in *.
    apply processors_clone_children; [exact IHvalue | ].
    apply processors_children_None_inv. exact H.
  - destruct p as [q | ]; [discriminate H | ]. simpl in *.
    apply processors_clone_children.
    + apply Forall_forall. auto.
    + apply processors_children_None_inv. exact H.
Qed.
End ProcessorsClone.

Definition isScalar {ET : ExtTypes} (n : Node) : bool :=
  match n with
  | StrVal _ _ | IntVal _ _ | UIntVal _ _ | FloatVal _ _ | BoolVal _ _ => true
  | _ => false
  end.

(** C10. [Clone] and [ShallowClone] of a [Dict] or [List] discard the
    node's own processors: when the node carries a non-nil list [q] and its
    children carry none, [Processors] returns [q] on the node and nil on
    both clones; a scalar keeps its processors under [Clone]. *)
Theorem clone_discards_container_processors {ET : ExtTypes} {EO : ExtOps}
        (value : list Node) (q : list (list (string * native))) :
  Forall (fun v => Node_Processors v = Ok None) value ->
  (Node_Processors (Dict value (Some q)) = Ok (Some q) /\
   Node_Processors (Clone (Dict value (Some q))) = Ok None /\
   Node_Processors (ShallowClone (Dict value (Some q))) = Ok None) /\
  (Node_Processors (List value (Some q)) = Ok (Some q) /\
   Node_Processors (Clone (List value (Some q))) = Ok None /\
   Node_Processors (ShallowClone (List value (Some q))) = Ok None) /\
  (forall s, isScalar s = true ->
             Node_Processors (Clone s) = Node_Processors s /\
             Node_Processors (ShallowClone s) = Node_Processors s).
Proof.
  intros HN.
  assert (HC : processors_children Node_Processors (clone_children Clone value) = Ok None).
  { apply processors_clone_children; [ | exact HN].
    apply Forall_forall. intros v _. apply Processors_Clone_None. }
  assert (HS : processors_children Node_Processors (clone_children ShallowClone value) = Ok None).
  { apply processors_clone_children; [ | exact HN].
    apply Forall_forall. intros v _. apply Processors_ShallowClone_None. }
  assert (HI : processors_children Node_Processors (clone_children (fun i => i) value) = Ok None).
  { apply processors_clone_children; [ | exact HN]. apply Forall_forall. auto. }
  repeat split; try reflexivity; try assumption.
  all: match goal with s : Node |- _ => destruct s end.
  all: simpl in *; try discriminate; reflexivity.
Qed.

Lemma clone_discards_container_processors_witness :
  let q : list (list (string * @native Toy.types)) :=
    [[("add_fields"%string, NString "x")]] in
  let d := Dict [Key "a" (StrVal "v" None) None; Key "b" NilNode None] (Some q) in
  Node_Processors d = Ok (Some q) /\
  Node_Processors (Clone d) = Ok None /\
  Node_Processors (ShallowClone d) = Ok None /\
  Node_Processors (Clone (StrVal "v" (Some q))) = Ok (Some q).
Proof.
  intros q d.
  assert (HN : Forall (fun v => Node_Processors v = Ok None)
                      [Key "a" (StrVal "v" None) None; Key "b" (@NilNode Toy.types) None])
    by (repeat constructor).
  destruct (clone_discards_container_processors q HN) as ((H1 & H2 & H3) & _ & H4).
  split; [exact H1 | split; [exact H2 | split; [exact H3 | ]]].
  exact (proj1 (H4 (StrVal "v" (Some q)) eq_refl)).
Defined.

(* ================================================================== *)
(** ** Apply on a condition entry *)

Definition isBoolOrStr {ET : ExtTypes} (n : Node) : bool :=
  match n with
  | BoolVal _ _ | StrVal _ _ => true
  | _ => false
  end.

(** The expression a condition entry evaluates: the memoized one, or the
    string compiled. *)
Definition condition_of {ET : ExtTypes} {EO : ExtOps}
           (c : option Expression) (s : string) : Expression + string :=
  match c with
  | Some ex => inl ex
  | None => eql_New s
  end.

(** C9. On a [Key] named [condition] whose value is not nil, not a
    [BoolVal] and not a [StrVal], [Apply] returns an error of kind
    BadCondition and no node; a [BoolVal] is kept as it is; a [StrVal] is
    compiled (unless memoized) and evaluated, and the entry returned holds
    the [BoolVal] of the result, a failure of either step being an error
    of kind BadCondition. *)
Theorem condition_value_kinds {ET : ExtTypes} {EO : ExtOps}
        (vars : Vars) (v : Node) (c : option Expression) :
  isNil v = false ->
  isBoolOrStr v = false ->
  (exists e, snd (Apply vars (Key conditionKey v c)) = Err e /\ BadCondition e = true) /\
  (forall b p c',
      Apply vars (Key conditionKey (BoolVal b p) c') =
      (Key conditionKey (BoolVal b p) c', Ok (Key conditionKey (BoolVal b p) c'))) /\
  (forall s p c',
      match condition_of c' s with
      | inr e =>
          exists e', snd (Apply vars (Key conditionKey (StrVal s p) c')) = Err e' /\
                     BadCondition e' = true
      | inl ex =>
          match eql_Eval ex vars with
          | inl cond =>
              snd (Apply vars (Key conditionKey (StrVal s p) c')) =
              Ok (Key conditionKey (BoolVal cond None) None)
          | inr e =>
              exists e', snd (Apply vars (Key conditionKey (StrVal s p) c')) = Err e' /\
                         BadCondition e' = true
          end
      end).
Proof.
  intros Hnil Hkind. split; [ | split].
  - exists (ErrConditionType v). split; [ | reflexivity].
    destruct v; simpl in *; try discriminate; reflexivity.
  - intros b p c'. reflexivity.
  - intros s p c'. simpl. unfold condition_of, Key_Apply_eval.
    destruct c' as [ex | ].
    + destruct (eql_Eval ex vars) as [cond | e]; simpl; eauto.
    + destruct (eql_New s) as [ex | e]; simpl; [ | eauto].
      destruct (eql_Eval ex vars) as [cond | e']; simpl; eauto.
Qed.

Lemma condition_value_kinds_witness :
  (exists e, snd (Apply (tt : @Vars Toy.types)
                        (Key conditionKey (IntVal 1 None) None)) = Err e /\
             BadCondition e = true) /\
  snd (Apply (tt : @Vars Toy.types) (Key conditionKey (BoolVal false None) None)) =
    Ok (Key conditionKey (BoolVal false None) None) /\
  snd (Apply (tt : @Vars Toy.types) (Key conditionKey (StrVal "true" None) None)) =
    Ok (Key conditionKey (BoolVal true None) None).
Proof.
  destruct (@condition_value_kinds Toy.types Toy.ops tt (IntVal 1 None) None
              eq_refl eq_refl) as (H1 & H2 & H3).
  split; [exact H1 | split].
  - rewrite (H2 false None None). reflexivity.
  - exact (H3 "true"%string None None).
Defined.

(* ================================================================== *)
(** ** What the two hashes are fed *)

Section Canonical.
Context {ET : ExtTypes} {EO : ExtOps}.

(** The canonical serialization as the specification words it: a
    Mapping or a Sequence concatenates its children with no delimiter, a
    KeyedEntry gives the bytes of its name and then, unless the value is
    absent, those of its value, a scalar its textual form. *)
Fixpoint canonical (n : Node) : res bytes :=
  match n with
  | NilNode => Panic
  | Dict value _ => bs <- mapM canonical value ;; Ok (concat bs)
  | Key name NilNode _ => Ok (bytes_of_string name)
  | Key name v _ => b <- canonical v ;; Ok (bytes_of_string name ++ b)
  | List value _ => bs <- mapM canonical value ;; Ok (concat bs)
  | StrVal s _ => Ok (bytes_of_string s)
  | IntVal i _ => Ok (bytes_of_string (Itoa i))
  | UIntVal u _ => Ok (bytes_of_string (FormatUint u))
  | FloatVal f _ => Ok (bytes_of_string (FormatFloat f))
  | BoolVal b _ => Ok (if b then [x01] else [x00])
  end.

Lemma canonical_Key name v c :
  canonical (Key name v c) =
  if isNil v then Ok (bytes_of_string name)
  else b <- canonical v ;; Ok (bytes_of_string name ++ b).
Proof. destruct v; reflexivity. Qed.

Lemma Write_nil h : XXH64.Write h [] = h.
Proof. destruct h as [w]. unfold XXH64.Write. simpl. rewrite app_nil_r. reflexivity. Qed.

Lemma Write_Write h a b : XXH64.Write (XXH64.Write h a) b = XXH64.Write h (a ++ b).
Proof. unfold XXH64.Write. simpl. rewrite app_assoc. reflexivity. Qed.

Lemma hash64_children_canonical value :
  Forall (fun v => forall h, Hash64With v h = (b <- canonical v ;; Ok (XXH64.Write h b))) value ->
  forall h,
  hash64_children Hash64With value h =
  (bs <- mapM canonical value ;; Ok (XXH64.Write h (concat bs))).
Proof.
  induction 1 as [ | v tl Hv _ IH]; intros h; simpl.
  - rewrite Write_nil. reflexivity.
  - rewrite Hv. destruct (canonical v) as [b | e | ]; simpl; try reflexivity.
    rewrite IH. destruct (mapM canonical tl) as [bs | e | ]; simpl; try reflexivity.
    rewrite Write_Write. reflexivity.
Qed.

(** The xxhash digest is fed the canonical serialization. *)
Lemma Hash64With_canonical n :
  forall h, Hash64With n h = (b <- canonical n ;; Ok (XXH64.Write h b)).
Proof.
  node_induction n; intros h; try reflexivity.
  - simpl. rewrite (hash64_children_canonical IHvalue).
    destruct (mapM canonical value) as [bs | e | ]; reflexivity.
  - rewrite Hash64With_Key, canonical_Key. destruct (isNil v); [reflexivity | ].
    rewrite IHv. destruct (canonical v) as [b | e | ]; simpl; try reflexivity.
    unfold XXH64.WriteString. rewrite Write_Write. reflexivity.
  - simpl. rewrite (hash64_children_canonical IHvalue).
    destruct (mapM canonical value) as [bs | e | ]; reflexivity.
Qed.
End Canonical.

(** The configuration of the first end-to-end scenario. *)
Definition scenario1 {ET : ExtTypes} : list (string * native) :=
  [("a.b"%string, NInt64 1); ("a.c"%string, NInt64 2)].

(** C1, as the code has it. The fast hash is fed the canonical flat byte
    sequence. The strong hash is not: a [Dict], a [List] and a [Key] each
    return the SHA-256 digest of what they are fed, so a parent is fed the
    32-byte digests of such children and the raw bytes of scalars only. The
    tree loaded from [{"a.b": 1, "a.c": 2}] keeps the two dotted names; its
    fast hash is fed ["a.b" ++ "1" ++ "a.c" ++ "2"] and its strong hash is
    [SHA-256 (SHA-256 ("a.b" ++ "1") ++ SHA-256 ("a.c" ++ "2"))]. *)
Theorem hash_feeds {ET : ExtTypes} {EO : ExtOps} :
  (forall n h, Hash64With n h = (b <- canonical n ;; Ok (XXH64.Write h b))) /\
  (forall n, fast_hash n = (b <- canonical n ;; Ok (XXH64.sum64 b))) /\
  (forall value p,
      Hash (Dict value p) = (hs <- mapM Hash value ;; Ok (SHA256.Sum (concat hs)))) /\
  (forall value p,
      Hash (List value p) = (hs <- mapM Hash value ;; Ok (SHA256.Sum (concat hs)))) /\
  (forall name v c,
      Hash (Key name v c) =
      if isNil v then Ok (SHA256.Sum (bytes_of_string name))
      else hv <- Hash v ;; Ok (SHA256.Sum (bytes_of_string name ++ hv))) /\
  NewAST scenario1 =
    Ok (mkAST (Dict [Key "a.b" (IntVal 1 None) None; Key "a.c" (IntVal 2 None) None] None)) /\
  (t <- NewAST scenario1 ;; canonical (root t)) = Ok (bytes_of_string "a.b1a.c2") /\
  (t <- NewAST scenario1 ;; AST_Hash t) =
    Ok (SHA256.Sum (SHA256.Sum (bytes_of_string "a.b1") ++
                    SHA256.Sum (bytes_of_string "a.c2"))).
Proof.
  split; [exact Hash64With_canonical | ].
  split.
  { intros n. unfold fast_hash. rewrite Hash64With_canonical.
    destruct (canonical n) as [b | e | ]; reflexivity. }
  split; [reflexivity | ].
  split; [reflexivity | ].
  split; [exact Hash_Key | ].
  split; [reflexivity | ].
  split; reflexivity.
Qed.

(** C1 as stated fails: on the tree loaded from [{"a.b": 1, "a.c": 2}] the
    strong hash is neither the SHA-256 of ["a" ++ "b" ++ "1" ++ "c" ++ "2"]
    nor the SHA-256 of the bytes the fast hash is fed. *)
Lemma strong_hash_not_flat :
  (t <- NewAST (ET := Toy.types) scenario1 ;; AST_Hash t) <>
    Ok (SHA256.Sum (bytes_of_string "ab1c2")) /\
  (t <- NewAST (ET := Toy.types) scenario1 ;; AST_Hash t) <>
    (t <- NewAST (ET := Toy.types) scenario1 ;;
     b <- canonical (root t) ;; Ok (SHA256.Sum b)).
Proof.
  split; vm_compute; intros H; discriminate H.
Qed.

(* ================================================================== *)
(** ** Apply on a Dict: conditions *)

Section DictApplyLoop.
Context {ET : ExtTypes}.
Variable f : Node -> Node * res Node.

(** An entry other than the condition whose apply returns, a node or nil. *)
Definition entry_ok (k : Node) : Prop :=
  isKey k = true /\ key_name k <> conditionKey /\ exists r, snd (f k) = Ok r.


(** What an entry contributes to the result: its applied node, unless nil. *)
Definition applied (k : Node) : list Node :=
  match snd (f k) with
  | Ok n => if isNil n then [] else [n]
  | _ => []
  end.

Lemma Dict_Apply_loop_skip name v c tl nodes :
  snd (f (Key name v c)) = Ok NilNode ->
  snd (Dict_Apply_loop f (Key name v c :: tl) nodes) =
  snd (Dict_Apply_loop f tl nodes).
Proof.
  intros H. cbn [Dict_Apply_loop].
  destruct (f (Key name v c)) as [k' r]. simpl in H. subst r.
  destruct (Dict_Apply_loop f tl nodes). reflexivity.
Qed.

Lemma Dict_Apply_loop_keep name v c tl nodes n :
  snd (f (Key name v c)) = Ok n -> isNil n = false -> name <> conditionKey ->
  snd (Dict_Apply_loop f (Key name v c :: tl) nodes) =
  snd (Dict_Apply_loop f tl (nodes ++ [n])).
Proof.
  intros H Hn Hname. cbn [Dict_Apply_loop].
  destruct (f (Key name v c)) as [k' r]. simpl in H. subst r.
  apply String.eqb_neq in Hname. rewrite Hname.
  destruct n; try discriminate Hn;
    destruct (Dict_Apply_loop f tl _); reflexivity.
Qed.


Lemma Dict_Apply_loop_entries pre rest :
  Forall entry_ok pre ->
  forall nodes,
  snd (Dict_Apply_loop f (pre ++ rest) nodes) =
  snd (Dict_Apply_loop f rest (nodes ++ flat_map applied pre)).
Proof.
  induction 1 as [ | k tl Hk _ IH]; intros nodes.
  - simpl. rewrite app_nil_r. reflexivity.
  - destruct Hk as (Hkey & Hname & r & Hr).
    destruct k as [ | | name v c | | | | | | ]; try discriminate Hkey.
    simpl in Hname. cbn [app flat_map]. unfold applied at 1. rewrite Hr.
    destruct (isNil r) eqn:Hnil.
    + destruct r; try discriminate Hnil.
      erewrite Dict_Apply_loop_skip by eassumption. apply IH.
    + erewrite Dict_Apply_loop_keep by eassumption. rewrite IH.
      rewrite <- app_assoc. reflexivity.
Qed.


End DictApplyLoop.

Section ApplyKey.
Context {ET : ExtTypes} {EO : ExtOps}.

(** [Key.Apply] returns nil or an entry of the same name. *)
Lemma Apply_Key_result vars name v c r :
  snd (Apply vars (Key name v c)) = Ok r ->
  isNil r = true \/ (isKey r = true /\ key_name r = name).
Proof.
  intros H. destruct v; simpl in H; unfold Key_Apply_eval in H.
  all: repeat (match type of H with
               | context [match ?x with _ => _ end] => destruct x eqn:?
               end; simpl in H).
  all: try discriminate H.
  all: inversion H; subst; auto.
Qed.

(** [Key.Apply] on an entry that is not the condition. *)
Lemma Apply_Key_general vars name v c :
  isNil v = false -> name <> conditionKey ->
  snd (Apply vars (Key name v c)) =
  match snd (Apply vars v) with
  | Ok n => if isNil n then Ok NilNode else Ok (Key name n None)
  | Err e => Err e
  | Panic => Panic
  end.
Proof.
  intros Hnil Hname. apply String.eqb_neq in Hname.
  destruct v; try discriminate Hnil; simpl; rewrite Hname.
  all: repeat match goal with
              | |- context [let '(_, _) := ?x in _] => destruct x; simpl
              end.
  all: repeat match goal with
              | |- context [match ?x with _ => _ end] => destruct x; simpl
              end.
  all: reflexivity.
Qed.

End ApplyKey.




(* ================================================================== *)
(** ** What Apply writes to its receiver *)

Section ApplyFrame.
Context {ET : ExtTypes}.
Variable f : Node -> Node * res Node.
Variable R : Node -> Node -> Prop.
Hypothesis R_refl : forall n, R n n.

Lemma Forall2_refl_R l : Forall2 R l l.
Proof. induction l; constructor; auto. Qed.

Lemma Dict_Apply_loop_frame value :
  Forall (fun v => R v (fst (f v))) value ->
  forall nodes, Forall2 R value (fst (Dict_Apply_loop f value nodes)).
Proof.
  induction 1 as [ | v tl Hv _ IH]; intros nodes; [constructor | ].
  destruct v; try apply Forall2_refl_R.
  cbn [Dict_Apply_loop].
  match goal with |- context [f ?k] => destruct (f k) as [k' r] end.
  simpl in Hv.
  repeat match goal with
         | |- context [let '(_, _) := Dict_Apply_loop f tl ?a in _] =>
             let H := fresh "IHa" in
             pose proof (IH a) as H; destruct (Dict_Apply_loop f tl a)
         | |- context [match ?x with _ => _ end] => destruct x
         end.
  all: simpl; constructor; auto using Forall2_refl_R.
Qed.

Lemma List_Apply_loop_frame value :
  Forall (fun v => R v (fst (f v))) value ->
  forall nodes, Forall2 R value (fst (List_Apply_loop f value nodes)).
Proof.
  induction 1 as [ | v tl Hv _ IH]; intros nodes; [constructor | ].
  cbn [List_Apply_loop].
  destruct (f v) as [v' r]. simpl in Hv.
  repeat match goal with
         | |- context [let '(_, _) := List_Apply_loop f tl ?a in _] =>
             let H := fresh "IHa" in
             pose proof (IH a) as H; destruct (List_Apply_loop f tl a)
         | |- context [match ?x with _ => _ end] => destruct x
         end.
  all: simpl; constructor; auto using Forall2_refl_R.
Qed.
End ApplyFrame.

(** [memo n n']: [n'] is [n] but for memoized conditions: the slot of an
    entry named [condition] whose value is a string [s] may have gone from
    empty to the expression [s] compiles to. *)
Inductive memo {ET : ExtTypes} {EO : ExtOps} : Node -> Node -> Prop :=
| memo_same n : memo n n
| memo_fill s p ex :
    eql_New s = inl ex ->
    memo (Key conditionKey (StrVal s p) None) (Key conditionKey (StrVal s p) (Some ex))
| memo_Key name v v' c : memo v v' -> memo (Key name v c) (Key name v' c)
| memo_Dict value value' p : Forall2 memo value value' -> memo (Dict value p) (Dict value' p)
| memo_List value value' p : Forall2 memo value value' -> memo (List value p) (List value' p).

(** C5, as the code has it. [Apply] leaves its receiver as it was but for
    memoized conditions: names, values, processors and the shape of the
    tree are untouched, and the only slot written is the [condition] of an
    entry named [condition] whose value is a string, filled with the
    compiled expression by the first [Apply] that compiles it. *)
Theorem Apply_writes_only_memo {ET : ExtTypes} {EO : ExtOps} (vars : Vars) (n : Node) :
  memo n (fst (Apply vars n)).
Proof.
  node_induction n; try apply memo_same.
  - simpl. pose proof (@Dict_Apply_loop_frame _ (Apply vars) memo memo_same value IHvalue []) as H.
    destruct (Dict_Apply_loop (Apply vars) value []). simpl in *.
    apply memo_Dict. exact H.
  - destruct v; simpl; try apply memo_same.
    all: destruct (String.eqb name conditionKey) eqn:En; try apply memo_same.
    all: try (apply String.eqb_eq in En; subst name).
    all: simpl in IHv.
    all: repeat match goal with
                | |- context [let '(_, _) := ?x in _] => destruct x; simpl in *
                end.
    all: try (apply memo_Key; exact IHv).
    unfold Key_Apply_eval.
    destruct c as [ex | ].
    + destruct (eql_Eval ex vars); apply memo_same.
    + destruct (eql_New value) as [ex | e] eqn:Ec; [ | apply memo_same].
      destruct (eql_Eval ex vars); apply memo_fill; exact Ec.
  - simpl. pose proof (@List_Apply_loop_frame _ (Apply vars) memo memo_same value IHvalue []) as H.
    destruct (List_Apply_loop (Apply vars) value []). simpl in *.
    apply memo_List. exact H.
Qed.

(** C5 as stated fails: the first [Apply] on a condition entry with a
    string value fills its memoized condition slot. *)
Lemma Apply_fills_condition_slot :
  let k := Key "condition" (StrVal "true" None) (None : option (@Expression Toy.types)) in
  fst (Apply (tt : @Vars Toy.types) k) =
    Key "condition" (StrVal "true" None) (Some (Toy.lit true)) /\
  fst (Apply (tt : @Vars Toy.types) k) <> k.
Proof.
  intros k. split; [reflexivity | discriminate].
Qed.

(* ================================================================== *)
(** ** The order of strings and [sort_by] *)

Lemma Ascii_compare_lt_trans a b c :
  Ascii.compare a b = Lt -> Ascii.compare b c = Lt -> Ascii.compare a c = Lt.
Proof.
  unfold Ascii.compare. rewrite !N.compare_lt_iff. apply N.lt_trans.
Qed.

Lemma String_compare_refl s : String.compare s s = Eq.
Proof.
  induction s as [ | c s IH]; simpl; [reflexivity | ].
  unfold Ascii.compare. rewrite N.compare_refl. exact IH.
Qed.

Lemma String_compare_lt_trans a :
  forall b c, String.compare a b = Lt -> String.compare b c = Lt ->
              String.compare a c = Lt.
Proof.
  induction a as [ | x a IH]; intros [ | y b] [ | z c]; simpl; try congruence.
  destruct (Ascii.compare x y) eqn:Exy; try discriminate.
  - apply Ascii.compare_eq_iff in Exy. subst y.
    destruct (Ascii.compare x z) eqn:Exz; try congruence. apply IH.
  - intros _. destruct (Ascii.compare y z) eqn:Eyz; try discriminate.
    + apply Ascii.compare_eq_iff in Eyz. subst z. rewrite Exy. reflexivity.
    + intros _. rewrite (Ascii_compare_lt_trans _ _ _ Exy Eyz). reflexivity.
Qed.

Lemma ltb_irrefl s : String.ltb s s = false.
Proof. unfold String.ltb. rewrite String_compare_refl. reflexivity. Qed.

Lemma ltb_trans a b c :
  String.ltb a b = true -> String.ltb b c = true -> String.ltb a c = true.
Proof.
  unfold String.ltb.
  destruct (String.compare a b) eqn:E1; try discriminate.
  destruct (String.compare b c) eqn:E2; try discriminate.
  rewrite (String_compare_lt_trans _ _ _ E1 E2). reflexivity.
Qed.

(** Two strings are equal or one is before the other. *)
Lemma ltb_total a b : String.ltb a b = false -> a = b \/ String.ltb b a = true.
Proof.
  unfold String.ltb. rewrite (String.compare_antisym a b).
  destruct (String.compare b a) eqn:E; simpl; try discriminate; auto.
  left. symmetry. apply String.compare_eq_iff. exact E.
Qed.

Lemma ltb_asym a b : String.ltb a b = true -> String.ltb b a = false.
Proof.
  intros H. destruct (String.ltb b a) eqn:E; [ | reflexivity].
  pose proof (ltb_trans _ _ _ H E) as C. rewrite ltb_irrefl in C. discriminate.
Qed.

(** Ascending order of names, duplicates allowed: no name is before the
    one that precedes it. *)
Fixpoint ascending (names : list string) : bool :=
  match names with
  | a :: (b :: _) as tl => negb (String.ltb b a) && ascending tl
  | _ => true
  end.

(** Strictly ascending: each name is before the next. *)
Fixpoint strictly_ascending (names : list string) : bool :=
  match names with
  | a :: (b :: _) as tl => String.ltb a b && strictly_ascending tl
  | _ => true
  end.

Section SortByFacts.
Variable A : Type.
Variable key : A -> string.

Lemma insert_by_perm x l : Permutation (insert_by key x l) (x :: l).
Proof.
  induction l as [ | y tl IH]; simpl; [reflexivity | ].
  destruct (String.ltb (key y) (key x)); [ | reflexivity].
  rewrite IH. apply perm_swap.
Qed.

Lemma sort_by_perm l : Permutation (sort_by key l) l.
Proof.
  induction l as [ | x tl IH]; simpl; [reflexivity | ].
  rewrite insert_by_perm. constructor. exact IH.
Qed.

Lemma insert_by_ascending x l :
  ascending (map key l) = true -> ascending (map key (insert_by key x l)) = true.
Proof.
  induction l as [ | y tl IH]; intros H; [reflexivity | ].
  cbn [insert_by]. destruct (String.ltb (key y) (key x)) eqn:E.
  - assert (Htl : ascending (map key tl) = true).
    { destruct tl; [reflexivity | ]. cbn [map ascending] in H.
      apply andb_true_iff in H. apply H. }
    specialize (IH Htl). destruct tl as [ | z tl'].
    + cbn. rewrite (ltb_asym _ _ E). reflexivity.
    + cbn [insert_by] in *. cbn [map ascending] in H.
      apply andb_true_iff in H. destruct H as [Hyz Hrest].
      destruct (String.ltb (key z) (key x)) eqn:E'.
      * cbn [map ascending] in *. rewrite Hyz. exact IH.
      * cbn [map ascending] in *. rewrite (ltb_asym _ _ E). exact IH.
  - cbn [map ascending]. rewrite E. exact H.
Qed.

Lemma sort_by_ascending l : ascending (map key (sort_by key l)) = true.
Proof.
  induction l as [ | x tl IH]; [reflexivity | ].
  simpl. apply insert_by_ascending. exact IH.
Qed.

(** In a strictly ascending list the head is before every later name. *)
Lemma strictly_ascending_head a names :
  strictly_ascending (a :: names) = true ->
  Forall (fun b => String.ltb a b = true) names.
Proof.
  revert a. induction names as [ | b tl IH]; intros a H; constructor.
  - cbn in H. apply andb_true_iff in H. apply H.
  - cbn [strictly_ascending] in H. apply andb_true_iff in H. destruct H as [Hab Htl].
    specialize (IH _ Htl). rewrite Forall_forall in *. intros c Hc.
    eapply ltb_trans; eauto.
Qed.

Lemma strictly_ascending_tail a names :
  strictly_ascending (a :: names) = true -> strictly_ascending names = true.
Proof.
  destruct names; [reflexivity | ]. cbn [strictly_ascending].
  intros H. apply andb_true_iff in H. apply H.
Qed.

Lemma strictly_ascending_NoDup names :
  strictly_ascending names = true -> NoDup names.
Proof.
  induction names as [ | a tl IH]; intros H; constructor.
  - intros Hin. pose proof (strictly_ascending_head _ _ H) as HF.
    rewrite Forall_forall in HF. specialize (HF _ Hin).
    rewrite ltb_irrefl in HF. discriminate.
  - apply IH. eapply strictly_ascending_tail; eauto.
Qed.

Lemma ascending_NoDup_strict names :
  ascending names = true -> NoDup names -> strictly_ascending names = true.
Proof.
  induction names as [ | a tl IH]; intros H HN; [reflexivity | ].
  destruct tl as [ | b tl']; [reflexivity | ].
  cbn [ascending strictly_ascending] in *.
  apply andb_true_iff in H. destruct H as [Hab Htl].
  inversion HN as [ | ? ? Hnotin HN']. subst.
  rewrite (IH Htl HN'), andb_true_r.
  apply negb_true_iff in Hab. destruct (ltb_total _ _ Hab) as [-> | Hlt]; [ | exact Hlt].
  exfalso. apply Hnotin. left. reflexivity.
Qed.

(** Two strictly ascending lists with the same entries are the same list. *)
Lemma strictly_ascending_unique l :
  forall l',
  strictly_ascending (map key l) = true ->
  strictly_ascending (map key l') = true ->
  Permutation l l' -> l = l'.
Proof.
  induction l as [ | x tl IH]; intros l' Hl Hl' HP.
  - apply Permutation_nil in HP. subst. reflexivity.
  - destruct l' as [ | y tl'].
    + apply Permutation_sym, Permutation_nil in HP. discriminate.
    + assert (Hxy : x = y).
      { pose proof (strictly_ascending_head _ _ Hl) as Hx.
        pose proof (strictly_ascending_head _ _ Hl') as Hy.
        cbn [map] in Hx, Hy. rewrite Forall_forall in Hx, Hy.
        assert (Hin1 : In x (y :: tl')) by (eapply Permutation_in; [exact HP | left; reflexivity]).
        assert (Hin2 : In y (x :: tl))
          by (eapply Permutation_in; [apply Permutation_sym; exact HP | left; reflexivity]).
        destruct Hin1 as [-> | Hin1]; [reflexivity | ].
        destruct Hin2 as [-> | Hin2]; [reflexivity | ].
        pose proof (Hy _ (in_map key _ _ Hin1)) as H1.
        pose proof (Hx _ (in_map key _ _ Hin2)) as H2.
        rewrite (ltb_asym _ _ H1) in H2. discriminate. }
      subst y. f_equal. apply IH.
      * eapply strictly_ascending_tail; eauto.
      * eapply strictly_ascending_tail; eauto.
      * eapply Permutation_cons_inv; eauto.
Qed.

(** Sorting entries with pairwise distinct keys gives the one strictly
    ascending arrangement of them. *)
Lemma sort_by_strict l :
  NoDup (map key l) -> strictly_ascending (map key (sort_by key l)) = true.
Proof.
  intros HN. apply ascending_NoDup_strict; [apply sort_by_ascending | ].
  eapply Permutation_NoDup; [ | exact HN].
  apply Permutation_map, Permutation_sym, sort_by_perm.
Qed.

Lemma sort_by_unique l l' :
  strictly_ascending (map key l') = true ->
  Permutation l l' -> sort_by key l = l'.
Proof.
  intros Hl' HP. apply strictly_ascending_unique.
  - apply sort_by_strict. eapply Permutation_NoDup.
    + apply Permutation_map, Permutation_sym. exact HP.
    + apply strictly_ascending_NoDup. exact Hl'.
  - exact Hl'.
  - rewrite sort_by_perm. exact HP.
Qed.
End SortByFacts.

(* ================================================================== *)
(** ** Well-formed trees *)

Fixpoint distinct (names : list string) : bool :=
  match names with
  | [] => true
  | a :: tl => negb (existsb (String.eqb a) tl) && distinct tl
  end.

Lemma distinct_NoDup names : distinct names = true <-> NoDup names.
Proof.
  induction names as [ | a tl IH]; simpl.
  - split; [constructor | reflexivity].
  - rewrite andb_true_iff, negb_true_iff, IH. split.
    + intros [Hex Hd]. constructor; [ | exact Hd].
      intros Hin. assert (existsb (String.eqb a) tl = true); [ | congruence].
      apply existsb_exists. exists a. split; [exact Hin | apply String.eqb_refl].
    + intros H. inversion H as [ | ? ? Hnotin Hd]. subst. split; [ | exact Hd].
      destruct (existsb (String.eqb a) tl) eqn:E; [ | reflexivity].
      apply existsb_exists in E. destruct E as (b & Hb & Eb).
      apply String.eqb_eq in Eb. subst b. contradiction.
Qed.

Section WellFormed.
Context {ET : ExtTypes}.

(** The invariant of the data model on names: the children of every
    Mapping are KeyedEntries with pairwise distinct names. *)
Fixpoint unique_names (n : Node) : bool :=
  match n with
  | Dict value _ =>
      forallb isKey value && distinct (map key_name value) &&
      forallb unique_names value
  | Key _ v _ => unique_names v
  | List value _ => forallb unique_names value
  | _ => true
  end.

Lemma unique_names_Dict value p :
  unique_names (Dict value p) = true <->
  Forall (fun k => isKey k = true) value /\ NoDup (map key_name value) /\
  Forall (fun k => unique_names k = true) value.
Proof.
  simpl. rewrite !andb_true_iff, !forallb_forall, distinct_NoDup, !Forall_forall.
  tauto.
Qed.

Lemma unique_names_List value p :
  unique_names (List value p) = true <-> Forall (fun k => unique_names k = true) value.
Proof. simpl. rewrite forallb_forall, Forall_forall. tauto. Qed.
End WellFormed.

(** ** Lists written through a pointer *)

Section SetNth.
Variable A : Type.

Lemma set_nth_same i (x : A) l : nth_error l i = Some x -> set_nth i x l = l.
Proof.
  revert i. induction l as [ | y tl IH]; intros [ | i] H; simpl in *; try congruence.
  rewrite IH; auto.
Qed.

Lemma nth_error_set_nth i (x : A) l :
  (i < length l)%nat -> nth_error (set_nth i x l) i = Some x.
Proof.
  revert i. induction l as [ | y tl IH]; intros [ | i] H; simpl in *; try lia; auto.
  apply IH. lia.
Qed.

Lemma length_set_nth i (x : A) l : length (set_nth i x l) = length l.
Proof. revert i. induction l as [ | y tl IH]; intros [ | i]; simpl; auto. Qed.

Lemma set_nth_set_nth i (x y : A) l : set_nth i x (set_nth i y l) = set_nth i x l.
Proof.
  revert i. induction l as [ | z tl IH]; intros [ | i]; simpl; try reflexivity.
  rewrite IH. reflexivity.
Qed.

Lemma set_nth_Forall (P : A -> Prop) i x l :
  Forall P l -> P x -> Forall P (set_nth i x l).
Proof.
  intros HF Hx. revert i. induction HF as [ | y tl Hy Htl IH]; intros [ | i]; simpl;
    constructor; auto.
Qed.

Lemma nth_error_Forall (P : A -> Prop) i x l :
  Forall P l -> nth_error l i = Some x -> P x.
Proof.
  intros HF H. rewrite Forall_forall in HF. apply HF. eapply nth_error_In; eauto.
Qed.

Lemma map_set_nth (B : Type) (g : A -> B) i x l :
  map g (set_nth i x l) = set_nth i (g x) (map g l).
Proof.
  revert i. induction l as [ | y tl IH]; intros [ | i]; simpl; try reflexivity.
  rewrite IH. reflexivity.
Qed.
End SetNth.

(** ** Find *)

Section FindFacts.
Context {ET : ExtTypes} {EO : ExtOps}.

Lemma Dict_Find_Found value key i n :
  Dict_Find value key = Found i n ->
  nth_error value i = Some n /\ isKey n = true /\ key_name n = key.
Proof.
  revert i. induction value as [ | k tl IH]; intros i H; [discriminate | ].
  destruct k; try discriminate. cbn [Dict_Find] in H.
  destruct (String.eqb name key) eqn:E.
  - inversion H. subst. apply String.eqb_eq in E. auto.
  - destruct (Dict_Find tl key) as [j m | | ]; try discriminate.
    inversion H. subst. simpl. apply IH. reflexivity.
Qed.

Lemma Dict_Find_NotFound value key :
  Dict_Find value key = NotFound ->
  Forall (fun k => isKey k = true) value /\ ~ In key (map key_name value).
Proof.
  induction value as [ | k tl IH]; intros H; [split; [constructor | intros []] | ].
  destruct k; try discriminate. cbn [Dict_Find] in H.
  destruct (String.eqb name key) eqn:E; [discriminate | ].
  destruct (Dict_Find tl key) as [j m | | ]; try discriminate.
  destruct (IH eq_refl) as [HK HN]. split; [constructor; auto | ].
  simpl. intros [H1 | H1]; [ | contradiction].
  subst. rewrite String.eqb_refl in E. discriminate.
Qed.

(** A store through the pointer returned by [Find] that keeps the name
    leaves the entry where [Find] finds it. *)
Lemma Dict_Find_set_nth value key i n n' :
  Dict_Find value key = Found i n ->
  isKey n' = true -> key_name n' = key ->
  Dict_Find (set_nth i n' value) key = Found i n'.
Proof.
  intros H Hk Hn. revert i H.
  induction value as [ | k tl IH]; intros i H; [discriminate | ].
  destruct k; try discriminate. cbn [Dict_Find] in H.
  destruct (String.eqb name key) eqn:E.
  - inversion H. subst. simpl. destruct n'; try discriminate Hk.
    simpl. rewrite String.eqb_refl. reflexivity.
  - destruct (Dict_Find tl key) as [j m | | ] eqn:Ej; try discriminate.
    inversion H. subst. simpl. rewrite E. rewrite (IH j eq_refl). reflexivity.
Qed.

(** Among entries with distinct names, [Find] finds the one of that name. *)
Lemma Dict_Find_In value k :
  Forall (fun k => isKey k = true) value ->
  NoDup (map key_name value) ->
  In k value ->
  exists i, Dict_Find value (key_name k) = Found i k.
Proof.
  induction value as [ | k0 tl IH]; intros HK HN Hin; [destruct Hin | ].
  inversion HK as [ | ? ? Hk0 HK']. inversion HN as [ | ? ? Hnotin HN']. subst.
  destruct k0; try discriminate Hk0. cbn [Dict_Find].
  destruct Hin as [<- | Hin].
  - simpl. rewrite String.eqb_refl. eauto.
  - destruct (String.eqb name (key_name k)) eqn:E.
    + apply String.eqb_eq in E. exfalso. apply Hnotin. simpl. rewrite E.
      apply in_map. exact Hin.
    + destruct (IH HK' HN' Hin) as (i & Hi). rewrite Hi. simpl. eauto.
Qed.

Lemma List_Find_Found value idx i n :
  List_Find value idx = Found i n -> nth_error value i = Some n.
Proof.
  unfold List_Find. destruct (Atoi idx) as [z | ]; [ | discriminate].
  destruct ((z >? Z.of_nat (length value) - 1) || (z <? 0))%Z eqn:E; [discriminate | ].
  intros H. inversion H. subst.
  apply orb_false_iff in E. destruct E as [E1 E2].
  apply nth_error_nth'. lia.
Qed.

Lemma List_Find_set_nth value idx i n n' :
  List_Find value idx = Found i n ->
  List_Find (set_nth i n' value) idx = Found i n'.
Proof.
  unfold List_Find. destruct (Atoi idx) as [z | ]; [ | discriminate].
  rewrite length_set_nth.
  destruct ((z >? Z.of_nat (length value) - 1) || (z <? 0))%Z eqn:E; [discriminate | ].
  intros H. inversion H. subst. f_equal.
  apply orb_false_iff in E. destruct E as [E1 E2].
  apply nth_error_nth. apply nth_error_set_nth. lia.
Qed.
End FindFacts.

(** ** The steps of Insert *)

Section InsertSteps.
Context {ET : ExtTypes} {EO : ExtOps}.

Lemma sort_by_short (l : list Node) :
  (length l < 2)%nat -> sort_by key_name l = l.
Proof. destruct l as [ | a [ | b tl]]; simpl; intros H; try reflexivity; lia. Qed.

Lemma Dict_sort_Ok value sorted :
  Dict_sort value = Ok sorted -> sorted = sort_by key_name value.
Proof.
  unfold Dict_sort. destruct (length value <? 2)%nat eqn:E.
  - intros H. inversion H. subst. symmetry. apply sort_by_short.
    apply Nat.ltb_lt. exact E.
  - destruct (forallb isKey value); [ | discriminate]. intros H. inversion H. reflexivity.
Qed.

Lemma Dict_sort_Keys value :
  Forall (fun k => isKey k = true) value ->
  Dict_sort value = Ok (sort_by key_name value).
Proof.
  intros HK. unfold Dict_sort. destruct (length value <? 2)%nat eqn:E.
  - rewrite sort_by_short; [reflexivity | apply Nat.ltb_lt; exact E].
  - assert (H : forallb isKey value = true)
      by (apply forallb_forall; rewrite Forall_forall in HK; exact HK).
    rewrite H. reflexivity.
Qed.

(** Moving the last entry to position [i] and dropping the last slot
    removes the [i]-th entry and keeps every other. *)
Lemma swap_remove_perm (l : list Node) :
  forall i x d,
  nth_error l i = Some x ->
  Permutation (x :: removelast (set_nth i (last l d) l)) l.
Proof.
  induction l as [ | y tl IH]; intros [ | i] x d H; simpl in H; try discriminate.
  - inversion H. subst y. destruct tl as [ | z tl'].
    + reflexivity.
    + change (set_nth 0 (last (x :: z :: tl') d) (x :: z :: tl'))
        with (last (z :: tl') d :: z :: tl').
      change (removelast (last (z :: tl') d :: z :: tl'))
        with (last (z :: tl') d :: removelast (z :: tl')).
      constructor.
      rewrite (app_removelast_last d (l := z :: tl')) at 3 by discriminate.
      apply Permutation_cons_append.
  - destruct tl as [ | z tl']; [destruct i; discriminate H | ].
    change (set_nth (S i) (last (y :: z :: tl') d) (y :: z :: tl'))
      with (y :: set_nth i (last (z :: tl') d) (z :: tl')).
    assert (Hne : set_nth i (last (z :: tl') d) (z :: tl') <> []).
    { intros C. apply (f_equal (@length _)) in C. rewrite length_set_nth in C.
      discriminate. }
    destruct (set_nth i (last (z :: tl') d) (z :: tl')) as [ | w l'] eqn:E;
      [congruence | ].
    change (removelast (y :: w :: l')) with (y :: removelast (w :: l')).
    rewrite perm_swap. constructor. rewrite <- E. apply IH. exact H.
Qed.

Lemma dup_index_Some name value i :
  dup_index name value = Some i ->
  exists x, nth_error value i = Some x /\ isKey x = true /\ key_name x = name.
Proof.
  revert i. induction value as [ | k tl IH]; intros i H; [discriminate | ].
  assert (Htl : option_map S (dup_index name tl) = Some i ->
                exists x, nth_error (k :: tl) i = Some x /\ isKey x = true /\
                          key_name x = name).
  { destruct (dup_index name tl) as [j | ]; [ | discriminate].
    intros Hj. inversion Hj. subst. simpl. apply IH. reflexivity. }
  destruct k; try (apply Htl; exact H).
  cbn [dup_index] in H. destruct (String.eqb name0 name) eqn:E; [ | apply Htl; exact H].
  inversion H. subst. apply String.eqb_eq in E. simpl. eauto.
Qed.

Lemma dup_index_None name value :
  dup_index name value = None ->
  Forall (fun k => isKey k = true) value ->
  ~ In name (map key_name value).
Proof.
  induction value as [ | k tl IH]; intros H HK; [intros [] | ].
  inversion HK as [ | ? ? Hk HK']. subst.
  destruct k; try discriminate Hk. cbn [dup_index] in H.
  destruct (String.eqb name0 name) eqn:E; [discriminate | ].
  destruct (dup_index name tl) eqn:Et; [discriminate | ].
  simpl. intros [H1 | H1].
  - subst. rewrite String.eqb_refl in E. discriminate.
  - exact (IH eq_refl HK' H1).
Qed.

(** After "remove the duplicate key" and "add the new key": the entries
    are the former ones but the one named like the new key, and the new
    key; their names are pairwise distinct. *)
Lemma remove_dup_append value nt :
  Forall (fun k => isKey k = true) value ->
  NoDup (map key_name value) ->
  isKey nt = true ->
  let added := remove_dup (key_name nt) value ++ [nt] in
  Forall (fun k => isKey k = true) added /\
  NoDup (map key_name added) /\
  (forall k, In k added <-> k = nt \/ (In k value /\ key_name k <> key_name nt)).
Proof.
  intros HK HN Hnt added. subst added. unfold remove_dup.
  destruct (dup_index (key_name nt) value) as [i | ] eqn:Ei.
  - destruct (dup_index_Some _ _ Ei) as (x & Hx & Hkx & Hnx).
    pose proof (swap_remove_perm value i NilNode Hx) as HP.
    set (rest := removelast (set_nth i (last value NilNode) value)) in *.
    assert (HN' : NoDup (map key_name (x :: rest))).
    { eapply Permutation_NoDup; [ | exact HN].
      apply Permutation_map, Permutation_sym, HP. }
    simpl in HN'. inversion HN' as [ | ? ? Hnotin HNrest]. subst.
    assert (HKrest : Forall (fun k => isKey k = true) rest).
    { assert (HKx : Forall (fun k => isKey k = true) (x :: rest))
        by (eapply Permutation_Forall; [apply Permutation_sym, HP | exact HK]).
      inversion HKx. assumption. }
    split; [apply Forall_app; split; [exact HKrest | repeat constructor; exact Hnt] | ].
    split.
    + rewrite map_app. simpl.
      eapply Permutation_NoDup; [apply Permutation_cons_append | ].
      constructor; [ | exact HNrest]. rewrite <- Hnx. exact Hnotin.
    + intros k. rewrite in_app_iff. simpl. split.
      * intros [Hin | [<- | []]]; [right | left; reflexivity].
        split; [eapply Permutation_in; [exact HP | right; exact Hin] | ].
        intros Ek. apply Hnotin. rewrite Hnx, <- Ek. apply in_map. exact Hin.
      * intros [-> | [Hin Hne]]; [right; left; reflexivity | left].
        apply (Permutation_in _ (Permutation_sym HP)) in Hin.
        destruct Hin as [<- | Hin]; [congruence | exact Hin].
  - pose proof Ei as Hnotin. apply dup_index_None in Hnotin; [ | exact HK].
    split; [apply Forall_app; split; [exact HK | repeat constructor; exact Hnt] | ].
    split.
    + rewrite map_app. simpl.
      eapply Permutation_NoDup; [apply Permutation_cons_append | ].
      constructor; assumption.
    + intros k. rewrite in_app_iff. simpl. split.
      * intros [Hin | [<- | []]]; [right | left; reflexivity].
        split; [exact Hin | ]. intros Ek. apply Hnotin. rewrite <- Ek.
        apply in_map. exact Hin.
      * intros [-> | [Hin Hne]]; auto.
Qed.
End InsertSteps.

Unset Implicit Arguments.

Section InsertAssign.
Context {ET : ExtTypes} {EO : ExtOps}.

(** The children of the target Mapping once a [Key] has been inserted. *)
Definition inserted (nt : Node) (dValue : list Node) : list Node :=
  sort_by key_name (remove_dup (key_name nt) dValue ++ [nt]).

Lemma Insert_assign_Key_Dict to nt name dValue p c :
  isKey nt = true ->
  Forall (fun k => isKey k = true) dValue ->
  NoDup (map key_name dValue) ->
  Insert_assign to nt (Key name (Dict dValue p) c) =
  (Key name (Dict (inserted nt dValue) p) c, Ok tt).
Proof.
  intros Hnt HK HN.
  destruct (remove_dup_append _ HK HN Hnt) as (HK' & _ & _).
  destruct nt; try discriminate Hnt. cbn [Insert_assign].
  simpl key_name in HK'. rewrite (Dict_sort_Keys HK'). reflexivity.
Qed.

Lemma inserted_spec nt dValue :
  isKey nt = true ->
  Forall (fun k => isKey k = true) dValue ->
  NoDup (map key_name dValue) ->
  Forall (fun k => isKey k = true) (inserted nt dValue) /\
  strictly_ascending (map key_name (inserted nt dValue)) = true /\
  (forall k, In k (inserted nt dValue) <->
             k = nt \/ (In k dValue /\ key_name k <> key_name nt)).
Proof.
  intros Hnt HK HN.
  destruct (remove_dup_append _ HK HN Hnt) as (HK' & HN' & Hin).
  unfold inserted. split; [ | split].
  - eapply Permutation_Forall; [apply Permutation_sym, sort_by_perm | exact HK'].
  - apply sort_by_strict. exact HN'.
  - intros k. rewrite <- Hin. split; apply Permutation_in;
      [ | apply Permutation_sym]; apply sort_by_perm.
Qed.

Lemma inserted_idem nt dValue :
  isKey nt = true ->
  Forall (fun k => isKey k = true) dValue ->
  NoDup (map key_name dValue) ->
  inserted nt (inserted nt dValue) = inserted nt dValue.
Proof.
  intros Hnt HK HN.
  destruct (inserted_spec nt dValue Hnt HK HN) as (HK1 & HS1 & Hin1).
  pose proof (strictly_ascending_NoDup _ HS1) as HN1.
  destruct (remove_dup_append _ HK1 HN1 Hnt) as (HK2 & HN2 & Hin2).
  unfold inserted at 1. apply sort_by_unique; [exact HS1 | ].
  apply NoDup_Permutation.
  - eapply NoDup_map_inv. exact HN2.
  - eapply NoDup_map_inv. exact HN1.
  - intros k. rewrite Hin2, Hin1. tauto.
Qed.

Lemma Insert_assign_idem to x d d' :
  unique_names d = true ->
  Insert_assign to x d = (d', Ok tt) ->
  Insert_assign to x d' = (d', Ok tt).
Proof.
  intros HU H. destruct d as [ | | name v c | | | | | | ]; try discriminate H.
  destruct (isKey x) eqn:Hx.
  - destruct v as [ | dValue p | | | | | | | ].
    2: { change (unique_names (Dict dValue p) = true) in HU.
         apply unique_names_Dict in HU. destruct HU as (HK & HN & _).
         rewrite (Insert_assign_Key_Dict to x name dValue p c Hx HK HN) in H. inversion H. subst d'.
         destruct (inserted_spec x dValue Hx HK HN) as (HK1 & HS1 & _).
         rewrite (Insert_assign_Key_Dict to x name _ p c Hx HK1 (strictly_ascending_NoDup _ HS1)).
         rewrite (inserted_idem x dValue Hx HK HN). reflexivity. }
    all: destruct x; try discriminate Hx; cbn [Insert_assign] in H; inversion H; subst d'.
    all: cbn [Insert_assign]; unfold remove_dup; cbn [dup_index];
      rewrite String.eqb_refl; reflexivity.
  - destruct x; try discriminate Hx; cbn [Insert_assign] in H; inversion H; subst d';
      reflexivity.
Qed.

(** [Insert] never changes the kind of the node it walks from, nor the
    name of a [Key]. *)
Lemma Insert_walk_Key to x parts name v c n' r :
  Insert_walk to x parts (Key name v c) = (n', r) ->
  isKey n' = true /\ key_name n' = name.
Proof.
  destruct parts as [ | part rest]; cbn [Insert_walk].
  - unfold Insert_assign.
    repeat match goal with
           | |- context [match ?y with _ => _ end] => destruct y
           end; intros H; inversion H; auto.
  - destruct (Find (Key name v c) part) as [i n | | ].
    + destruct (Insert_walk to x rest n). intros H. inversion H.
      destruct v; simpl; auto.
    + destruct v; try (intros H; inversion H; auto; fail).
      * destruct (Insert_new_key (Insert_walk to x rest) part value).
        intros H; inversion H; auto.
      * destruct (Insert_walk to x rest (Dict [] None)).
        intros H; inversion H; auto.
    + intros H; inversion H; auto.
Qed.
End InsertAssign.

(** ** The walk of Insert *)

Section InsertWalk.
Context {ET : ExtTypes} {EO : ExtOps}.

(** Whether the walk of [Insert] along [parts] from [current] appends a
    fresh Mapping to a Sequence: a part addressed to a Sequence that is
    not the index of one of its elements. *)
Fixpoint grows_list (parts : list string) (current : Node) : bool :=
  match parts with
  | [] => false
  | part :: rest =>
      match Find current part with
      | Found _ n => grows_list rest n
      | NotFound =>
          match current with
          | Key _ (List _ _) _ => true
          | _ => false
          end
      | LookupPanic => false
      end
  end.

Lemma Find_set_child current part i n n' :
  Find current part = Found i n ->
  (isKey n = true -> isKey n' = true /\ key_name n' = key_name n) ->
  Find (set_child current i n') part = Found i n'.
Proof.
  intros H Hn'.
  assert (HD : forall value, Dict_Find value part = Found i n ->
                             Dict_Find (set_nth i n' value) part = Found i n').
  { intros value Hv. pose proof Hv as Hv'. apply Dict_Find_Found in Hv'.
    destruct Hv' as (_ & Hk & Hname).
    destruct (Hn' Hk) as (Hk' & Hname').
    eapply Dict_Find_set_nth; eauto. congruence. }
  destruct current as [ | value p | name v c | value p | | | | | ]; try discriminate H.
  - simpl in *. auto.
  - destruct v as [ | value p | | value p | | | | | ]; try discriminate H; simpl in *.
    + auto.
    + eapply List_Find_set_nth; eauto.
  - simpl in *. eapply List_Find_set_nth; eauto.
Qed.

Lemma set_child_set_child current i n n' :
  set_child (set_child current i n) i n' = set_child current i n'.
Proof.
  destruct current as [ | value p | name v c | value p | | | | | ]; try reflexivity.
  - simpl. rewrite set_nth_set_nth. reflexivity.
  - destruct v; try reflexivity; simpl; rewrite set_nth_set_nth; reflexivity.
  - simpl. rewrite set_nth_set_nth. reflexivity.
Qed.

Lemma Find_child current part i n :
  Find current part = Found i n ->
  exists value, nth_error value i = Some n /\
    ((exists p, current = Dict value p) \/
     (exists p, current = List value p) \/
     (exists name p c, current = Key name (Dict value p) c) \/
     (exists name p c, current = Key name (List value p) c)).
Proof.
  intros H.
  destruct current as [ | value p | name v c | value p | | | | | ]; try discriminate H.
  - exists value. split; [ | eauto]. simpl in H. eapply Dict_Find_Found; eauto.
  - destruct v as [ | value p | | value p | | | | | ]; try discriminate H;
      exists value; simpl in H.
    + split; [eapply Dict_Find_Found; eauto | ]. right. right. left. eauto.
    + split; [eapply List_Find_Found; eauto | ]. right. right. right. eauto.
  - exists value. split; [ | eauto]. simpl in H. eapply List_Find_Found; eauto.
Qed.

Lemma unique_names_child current part i n :
  unique_names current = true ->
  Find current part = Found i n ->
  unique_names n = true.
Proof.
  intros HU H. destruct (Find_child _ _ _ _ H) as (value & Hnth & Hc).
  assert (HF : Forall (fun k => unique_names k = true) value).
  { destruct Hc as [(p & ->) | [(p & ->) | [(name & p & c & ->) | (name & p & c & ->)]]].
    - apply unique_names_Dict in HU. apply HU.
    - apply unique_names_List in HU. exact HU.
    - change (unique_names (Dict value p) = true) in HU.
      apply unique_names_Dict in HU. apply HU.
    - change (unique_names (List value p) = true) in HU.
      apply unique_names_List in HU. exact HU. }
  rewrite Forall_forall in HF. apply HF. eapply nth_error_In; eauto.
Qed.

(** A new key in a Mapping that has none of that name: the Mapping's
    children after the rest of the walk [k]. *)
Lemma Insert_new_key_Ok k part value value' :
  Forall (fun n => isKey n = true) value ->
  NoDup (map key_name value) ->
  ~ In part (map key_name value) ->
  (forall n n' r, k n = (n', r) -> isKey n = true ->
                  isKey n' = true /\ key_name n' = key_name n) ->
  Insert_new_key k part value = (value', Ok tt) ->
  exists j newNode',
    k (Key part (Dict [] None) None) = (newNode', Ok tt) /\
    Dict_Find (sort_by key_name (value ++ [Key part (Dict [] None) None])) part =
      Found j (Key part (Dict [] None) None) /\
    value' = set_nth j newNode'
               (sort_by key_name (value ++ [Key part (Dict [] None) None])) /\
    Dict_Find value' part = Found j newNode'.
Proof.
  intros HK HN Hnotin Hk H. unfold Insert_new_key in H.
  set (newNode := Key part (Dict [] None) None) in *.
  assert (HK1 : Forall (fun n => isKey n = true) (value ++ [newNode]))
    by (apply Forall_app; split; [exact HK | repeat constructor]).
  rewrite (Dict_sort_Keys HK1) in H.
  set (sorted := sort_by key_name (value ++ [newNode])) in *.
  assert (HP : Permutation sorted (value ++ [newNode])) by apply sort_by_perm.
  assert (HKs : Forall (fun n => isKey n = true) sorted)
    by (eapply Permutation_Forall; [apply Permutation_sym, HP | exact HK1]).
  assert (HNs : NoDup (map key_name sorted)).
  { eapply Permutation_NoDup; [apply Permutation_map, Permutation_sym, HP | ].
    rewrite map_app. simpl.
    eapply Permutation_NoDup; [apply Permutation_cons_append | ].
    constructor; assumption. }
  assert (Hin : In newNode sorted).
  { eapply Permutation_in; [apply Permutation_sym, HP | ].
    apply in_or_app. right. left. reflexivity. }
  destruct (Dict_Find_In newNode HKs HNs Hin) as (j & Hj). simpl key_name in Hj.
  destruct (k newNode) as [newNode' r] eqn:Ek. rewrite Hj in H.
  inversion H. subst. exists j, newNode'.
  split; [reflexivity | split; [exact Hj | split; [reflexivity | ]]].
  destruct (Hk _ _ _ Ek eq_refl) as (Hk' & Hname').
  eapply Dict_Find_set_nth; eauto.
Qed.

Lemma grows_list_fresh rest part :
  grows_list rest (Key part (Dict [] None) None) = false.
Proof. destruct rest; reflexivity. Qed.

Lemma Insert_walk_kind to x parts n n' r :
  Insert_walk to x parts n = (n', r) -> isKey n = true ->
  isKey n' = true /\ key_name n' = key_name n.
Proof.
  intros H Hk. destruct n; try discriminate Hk.
  eapply Insert_walk_Key. exact H.
Qed.

(** Inserting again where the walk grew no Sequence finds the tree of
    the first insertion and leaves it as it is. *)
Lemma Insert_walk_idem to x parts :
  forall current current',
  unique_names current = true ->
  grows_list parts current = false ->
  Insert_walk to x parts current = (current', Ok tt) ->
  Insert_walk to x parts current' = (current', Ok tt).
Proof.
  induction parts as [ | part rest IH]; intros current current' HU HG H.
  - apply Insert_assign_idem with (d := current); assumption.
  - cbn [Insert_walk grows_list] in *.
    destruct (Find current part) as [i n | | ] eqn:EF.
    + destruct (Insert_walk to x rest n) as [n' r] eqn:En.
      inversion H. subst current' r.
      assert (EF' : Find (set_child current i n') part = Found i n').
      { eapply Find_set_child; [exact EF | ]. eapply Insert_walk_kind; eauto. }
      rewrite EF'. rewrite (IH n n'); auto.
      * rewrite set_child_set_child. reflexivity.
      * eapply unique_names_child; eauto.
    + assert (HNK : forall value p,
                 Dict_Find value part = NotFound ->
                 unique_names (Dict value p) = true ->
                 forall value',
                 Insert_new_key (Insert_walk to x rest) part value = (value', Ok tt) ->
                 exists j newNode',
                   Dict_Find value' part = Found j newNode' /\
                   Insert_walk to x rest newNode' = (newNode', Ok tt) /\
                   set_nth j newNode' value' = value').
      { intros value p Hnf HUd value' Hv.
        apply unique_names_Dict in HUd. destruct HUd as (HK & HN & _).
        pose proof Hnf as Hnotin. apply Dict_Find_NotFound in Hnotin.
        destruct Hnotin as (_ & Hnotin).
        destruct (Insert_new_key_Ok _ _ _ _ HK HN Hnotin
                    (fun n n' r => Insert_walk_kind to x rest n n' r) Hv)
          as (j & newNode' & Hk & _ & -> & Hfind).
        exists j, newNode'. split; [exact Hfind | split].
        - apply IH with (current := Key part (Dict [] None) None);
            [reflexivity | apply grows_list_fresh | exact Hk].
        - apply set_nth_set_nth. }
      destruct current as [ | value p | name v c | | | | | | ]; try discriminate H.
      * destruct (Insert_new_key (Insert_walk to x rest) part value) as [value' r] eqn:Ev.
        inversion H. subst current' r.
        destruct (HNK value p EF HU value' Ev) as (j & newNode' & Hf & Hw & Hs).
        cbn [Find]. rewrite Hf, Hw. cbn [set_child]. rewrite Hs. reflexivity.
      * destruct v as [ | value p | | | | | | | ]; try discriminate H; try discriminate HG.
        destruct (Insert_new_key (Insert_walk to x rest) part value) as [value' r] eqn:Ev.
        inversion H. subst current' r.
        destruct (HNK value p EF HU value' Ev) as (j & newNode' & Hf & Hw & Hs).
        cbn [Find]. rewrite Hf, Hw. cbn [set_child]. rewrite Hs. reflexivity.
    + discriminate H.
Qed.
End InsertWalk.

(** C7, as the code has it. On a tree whose Mappings hold KeyedEntries with
    pairwise distinct names, and for a selector whose walk appends no fresh
    Mapping to a Sequence, [Insert] is idempotent: when inserting [x] at
    [s] succeeds, inserting it again succeeds and leaves the tree as the
    first insertion left it. *)
Theorem Insert_idempotent {ET : ExtTypes} {EO : ExtOps}
        (t t1 : AST) (x : Node) (s : string) :
  unique_names (root t) = true ->
  grows_list (splitPath s) (root t) = false ->
  Insert t x s = (t1, Ok tt) ->
  Insert t1 x s = (t1, Ok tt).
Proof.
  intros HU HG H. unfold Insert in *.
  destruct (Insert_walk s x (splitPath s) (root t)) as [r e] eqn:E.
  inversion H. subst t1 e. simpl root.
  rewrite (Insert_walk_idem s x (splitPath s) (root t) r HU HG E). reflexivity.
Qed.

Lemma Insert_idempotent_witness :
  let t := @mkAST Toy.types (Dict [Key "outputs" (Dict [] None) None] None) in
  let x := Key "monitoring" (BoolVal true None) None in
  let t1 := fst (Insert t x "agent.settings") in
  t1 = mkAST (Dict [Key "agent"
                      (Dict [Key "settings" (Dict [x] None) None] None) None;
                    Key "outputs" (Dict [] None) None] None) /\
  Insert t1 x "agent.settings" = (t1, Ok tt).
Proof.
  intros t x t1. split; [reflexivity | ].
  apply (@Insert_idempotent Toy.types Toy.ops t t1 x "agent.settings");
    reflexivity.
Defined.

(** C7 as stated fails: on the well-formed tree [{"l": []}] both
    insertions at ["l.x.y"] succeed, and each appends a Mapping to the
    Sequence. *)
Lemma Insert_twice_grows_list :
  let t := @mkAST Toy.types (Dict [Key "l" (List [] None) None] None) in
  let x := Dict [] None in
  let t1 := fst (Insert t x "l.x.y") in
  let t2 := fst (Insert t1 x "l.x.y") in
  unique_names (root t) = true /\
  snd (Insert t x "l.x.y") = Ok tt /\
  snd (Insert t1 x "l.x.y") = Ok tt /\
  t1 = mkAST (Dict [Key "l" (List [Dict [Key "y" x None] None] None) None] None) /\
  t2 = mkAST (Dict [Key "l" (List [Dict [Key "y" x None] None;
                                   Dict [Key "y" x None] None] None) None] None) /\
  t2 <> t1.
Proof.
  intros t x t1 t2. repeat split. discriminate.
Qed.

(** ** Lookup, and the target of Insert *)

Section LookupInsert.
Context {ET : ExtTypes} {EO : ExtOps}.

(** The loop of [Lookup]: [Ok None] is [nil, false]. *)
Fixpoint Lookup_walk (parts : list string) (current : Node) : res (option Node) :=
  match parts with
  | [] => Ok (Some current)
  | part :: rest =>
      match Find current part with
      | Found _ n => Lookup_walk rest n
      | NotFound => Ok None
      | LookupPanic => Panic
      end
  end.

(** [Lookup(a, selector)]. *)
Definition Lookup (a : AST) (selector : string) : res (option Node) :=
  match root a with
  | NilNode => Ok None
  | r => Lookup_walk (splitPath selector) r
  end.


Lemma unique_names_set_nth value i n n' :
  Forall (fun k => isKey k = true) value ->
  NoDup (map key_name value) ->
  Forall (fun k => unique_names k = true) value ->
  nth_error value i = Some n ->
  isKey n' = true -> key_name n' = key_name n -> unique_names n' = true ->
  Forall (fun k => isKey k = true) (set_nth i n' value) /\
  NoDup (map key_name (set_nth i n' value)) /\
  Forall (fun k => unique_names k = true) (set_nth i n' value).
Proof.
  intros HK HN HU Hnth Hk' Hname' HU'.
  split; [apply set_nth_Forall; assumption | ].
  split; [ | apply set_nth_Forall; assumption].
  rewrite map_set_nth, Hname'. rewrite set_nth_same; [exact HN | ].
  apply map_nth_error. exact Hnth.
Qed.

Lemma unique_names_set_child current part i n n' :
  unique_names current = true ->
  Find current part = Found i n ->
  (isKey n = true -> isKey n' = true /\ key_name n' = key_name n) ->
  unique_names n' = true ->
  unique_names (set_child current i n') = true.
Proof.
  intros HU HF Hn' HU'.
  assert (HD : forall value p, Dict_Find value part = Found i n ->
                               unique_names (Dict value p) = true ->
                               unique_names (Dict (set_nth i n' value) p) = true).
  { intros value p Hv HUd. apply unique_names_Dict in HUd.
    destruct HUd as (HK & HN & HUs).
    apply Dict_Find_Found in Hv. destruct Hv as (Hnth & Hk & _).
    destruct (Hn' Hk) as (Hk' & Hname').
    apply unique_names_Dict.
    apply unique_names_set_nth with (n := n); assumption. }
  assert (HL : forall value p, unique_names (List value p) = true ->
                               unique_names (List (set_nth i n' value) p) = true).
  { intros value p HUl. apply unique_names_List in HUl. apply unique_names_List.
    apply set_nth_Forall; assumption. }
  destruct current as [ | value p | name v c | value p | | | | | ]; try discriminate HF.
  - apply HD; assumption.
  - destruct v as [ | value p | | value p | | | | | ]; try discriminate HF.
    + apply (HD value p); assumption.
    + apply (HL value p); assumption.
  - apply HL; assumption.
Qed.

Lemma unique_names_inserted nt dValue :
  isKey nt = true -> unique_names nt = true ->
  Forall (fun k => isKey k = true) dValue ->
  NoDup (map key_name dValue) ->
  Forall (fun k => unique_names k = true) dValue ->
  forall p, unique_names (Dict (inserted nt dValue) p) = true.
Proof.
  intros Hnt HUnt HK HN HU p.
  destruct (inserted_spec nt dValue Hnt HK HN) as (HK1 & HS1 & Hin1).
  apply unique_names_Dict. split; [exact HK1 | ].
  split; [apply strictly_ascending_NoDup; exact HS1 | ].
  apply Forall_forall. intros k Hk. apply Hin1 in Hk.
  destruct Hk as [-> | [Hk _]]; [exact HUnt | ].
  rewrite Forall_forall in HU. apply HU. exact Hk.
Qed.

Lemma Insert_assign_unique to nt d d' :
  isKey nt = true -> unique_names nt = true ->
  unique_names d = true ->
  Insert_assign to nt d = (d', Ok tt) ->
  unique_names d' = true.
Proof.
  intros Hnt HUnt HU H.
  destruct d as [ | | name v c | | | | | | ]; try discriminate H.
  destruct v as [ | dValue p | | | | | | | ].
  2: { change (unique_names (Dict dValue p) = true) in HU.
       apply unique_names_Dict in HU. destruct HU as (HK & HN & HUs).
       rewrite (Insert_assign_Key_Dict to nt name dValue p c Hnt HK HN) in H.
       inversion H. subst d'.
       apply (unique_names_inserted nt dValue Hnt HUnt HK HN HUs p). }
  all: destruct nt; try discriminate Hnt; cbn [Insert_assign] in H; inversion H; subst d'.
  all: simpl in *; rewrite HUnt; reflexivity.
Qed.

(** [Insert] of a [Key] keeps the names unique in every Mapping of the tree. *)
Lemma Insert_walk_unique to nt parts :
  isKey nt = true -> unique_names nt = true ->
  forall current current',
  unique_names current = true ->
  Insert_walk to nt parts current = (current', Ok tt) ->
  unique_names current' = true.
Proof.
  intros Hnt HUnt.
  induction parts as [ | part rest IH]; intros current current' HU H.
  - apply Insert_assign_unique with (to := to) (nt := nt) (d := current); assumption.
  - cbn [Insert_walk] in H.
    destruct (Find current part) as [i n | | ] eqn:EF.
    + destruct (Insert_walk to nt rest n) as [n' r] eqn:En.
      inversion H. subst current' r.
      eapply unique_names_set_child; eauto.
      * eapply Insert_walk_kind; eauto.
      * eapply IH; [ | exact En]. eapply unique_names_child; eauto.
    + assert (HNK : forall value p,
                 Dict_Find value part = NotFound ->
                 unique_names (Dict value p) = true ->
                 forall value',
                 Insert_new_key (Insert_walk to nt rest) part value = (value', Ok tt) ->
                 unique_names (Dict value' p) = true).
      { intros value p Hnf HUd value' Hv.
        apply unique_names_Dict in HUd. destruct HUd as (HK & HN & HUs).
        pose proof Hnf as Hnotin. apply Dict_Find_NotFound in Hnotin.
        destruct Hnotin as (_ & Hnotin).
        destruct (Insert_new_key_Ok _ _ _ _ HK HN Hnotin
                    (fun n n' r => Insert_walk_kind to nt rest n n' r) Hv)
          as (j & newNode' & Hk & Hfind & -> & _).
        set (newNode := Key part (Dict [] None) None) in *.
        assert (HP : Permutation (sort_by key_name (value ++ [newNode]))
                                 (value ++ [newNode])) by apply sort_by_perm.
        assert (HK1 : Forall (fun n => isKey n = true) (value ++ [newNode]))
          by (apply Forall_app; split; [exact HK | repeat constructor]).
        assert (HU1 : Forall (fun n => unique_names n = true) (value ++ [newNode]))
          by (apply Forall_app; split; [exact HUs | repeat constructor]).
        assert (HN1 : NoDup (map key_name (value ++ [newNode]))).
        { rewrite map_app. simpl.
          eapply Permutation_NoDup; [apply Permutation_cons_append | ].
          constructor; assumption. }
        apply Dict_Find_Found in Hfind. destruct Hfind as (Hnth & _ & _).
        destruct (Insert_walk_kind to nt rest newNode newNode' (Ok tt) Hk eq_refl)
          as (Hk' & Hname').
        apply unique_names_Dict.
        apply unique_names_set_nth with (n := newNode); try assumption.
        - eapply Permutation_Forall; [apply Permutation_sym, HP | exact HK1].
        - eapply Permutation_NoDup; [apply Permutation_map, Permutation_sym, HP | exact HN1].
        - eapply Permutation_Forall; [apply Permutation_sym, HP | exact HU1].
        - apply (IH newNode newNode'); [reflexivity | exact Hk]. }
      destruct current as [ | value p | name v c | | | | | | ]; try discriminate H.
      * destruct (Insert_new_key (Insert_walk to nt rest) part value) as [value' r] eqn:Ev.
        inversion H. subst current' r. apply (HNK value p EF HU value' Ev).
      * destruct v as [ | value p | | value p | | | | | ]; try discriminate H.
        -- destruct (Insert_new_key (Insert_walk to nt rest) part value) as [value' r] eqn:Ev.
           inversion H. subst current' r. apply (HNK value p EF HU value' Ev).
        -- destruct (Insert_walk to nt rest (Dict [] None)) as [newNode' r] eqn:En.
           inversion H. subst current' r.
           change (unique_names (List value p) = true) in HU.
           apply unique_names_List in HU.
           change (unique_names (List (value ++ [newNode']) p) = true).
           apply unique_names_List. apply Forall_app. split; [exact HU | ].
           repeat constructor. apply (IH (Dict [] None) newNode'); [reflexivity | exact En].
    + discriminate H.
Qed.
End LookupInsert.

Section InsertTarget.
Context {ET : ExtTypes} {EO : ExtOps}.

Lemma List_Find_append value m part i n :
  List_Find value part = NotFound ->
  List_Find (value ++ [m]) part = Found i n ->
  n = m.
Proof.
  unfold List_Find. destruct (Atoi part) as [z | ]; [ | discriminate].
  rewrite length_app. simpl length.
  destruct ((z >? Z.of_nat (length value) - 1) || (z <? 0))%Z eqn:E1; [ | discriminate].
  destruct ((z >? Z.of_nat (length value + 1) - 1) || (z <? 0))%Z eqn:E2; [discriminate | ].
  intros _ H. inversion H. subst.
  apply orb_false_iff in E2. destruct E2 as [E2 E3].
  rewrite E3, orb_false_r in E1.
  rewrite Z.gtb_ltb in E1, E2. apply Z.ltb_lt in E1. apply Z.ltb_ge in E2, E3.
  assert (Hz : Z.to_nat z = length value) by lia.
  rewrite Hz, nth_middle. reflexivity.
Qed.

(** Where [Lookup] arrives after an [Insert]: at the entry the walk ended
    on, as the assignment left it; that entry is the one [Lookup] found
    before, if it found one. *)
Lemma Insert_walk_target to nt parts :
  forall current current',
  unique_names current = true ->
  Insert_walk to nt parts current = (current', Ok tt) ->
  forall tgt,
  Lookup_walk parts current' = Ok (Some tgt) ->
  exists d, unique_names d = true /\
            Insert_assign to nt d = (tgt, Ok tt) /\
            (forall old, Lookup_walk parts current = Ok (Some old) -> d = old).
Proof.
  induction parts as [ | part rest IH]; intros current current' HU H tgt HL.
  - simpl in HL. inversion HL. subst tgt. exists current.
    split; [exact HU | split; [exact H | ]].
    intros old Hold. simpl in Hold. inversion Hold. reflexivity.
  - cbn [Insert_walk] in H. cbn [Lookup_walk] in HL |- *.
    destruct (Find current part) as [i n | | ] eqn:EF.
    + destruct (Insert_walk to nt rest n) as [n' r] eqn:En.
      inversion H. subst current' r.
      assert (EF' : Find (set_child current i n') part = Found i n').
      { eapply Find_set_child; [exact EF | ]. eapply Insert_walk_kind; eauto. }
      rewrite EF' in HL.
      apply (IH n n'); try assumption. eapply unique_names_child; eauto.
    + assert (HNK : forall value p,
                 Dict_Find value part = NotFound ->
                 unique_names (Dict value p) = true ->
                 forall value',
                 Insert_new_key (Insert_walk to nt rest) part value = (value', Ok tt) ->
                 exists j newNode',
                   Dict_Find value' part = Found j newNode' /\
                   Insert_walk to nt rest (Key part (Dict [] None) None) =
                     (newNode', Ok tt)).
      { intros value p Hnf HUd value' Hv.
        apply unique_names_Dict in HUd. destruct HUd as (HK & HN & _).
        pose proof Hnf as Hnotin. apply Dict_Find_NotFound in Hnotin.
        destruct Hnotin as (_ & Hnotin).
        destruct (Insert_new_key_Ok _ _ _ _ HK HN Hnotin
                    (fun n n' r => Insert_walk_kind to nt rest n n' r) Hv)
          as (j & newNode' & Hk & _ & _ & Hfind).
        eauto. }
      destruct current as [ | value p | name v c | | | | | | ]; try discriminate H.
      * destruct (Insert_new_key (Insert_walk to nt rest) part value) as [value' r] eqn:Ev.
        inversion H. subst current' r.
        destruct (HNK value p EF HU value' Ev) as (j & newNode' & Hf & Hw).
        cbn [Find] in HL. rewrite Hf in HL.
        destruct (IH (Key part (Dict [] None) None) newNode' eq_refl Hw tgt HL)
          as (d & Hd & Ha & _).
        exists d. split; [exact Hd | split; [exact Ha | ]]. discriminate.
      * destruct v as [ | value p | | value p | | | | | ]; try discriminate H.
        -- destruct (Insert_new_key (Insert_walk to nt rest) part value) as [value' r] eqn:Ev.
           inversion H. subst current' r.
           destruct (HNK value p EF HU value' Ev) as (j & newNode' & Hf & Hw).
           cbn [Find] in HL. rewrite Hf in HL.
           destruct (IH (Key part (Dict [] None) None) newNode' eq_refl Hw tgt HL)
          as (d & Hd & Ha & _).
           exists d. split; [exact Hd | split; [exact Ha | ]]. discriminate.
        -- destruct (Insert_walk to nt rest (Dict [] None)) as [newNode' r] eqn:En.
           inversion H. subst current' r. cbn [Find] in HL, EF.
           destruct (List_Find (value ++ [newNode']) part) as [i m | | ] eqn:EL;
             try discriminate HL.
           apply (List_Find_append value newNode' part i m EF) in EL. subst m.
           destruct (IH (Dict [] None) newNode' eq_refl En tgt HL) as (d & Hd & Ha & _).
           exists d. split; [exact Hd | split; [exact Ha | ]]. discriminate.
    + discriminate H.
Qed.
End InsertTarget.




(* ================================================================== *)
(** ** The loader on mappings without dotted keys of mappings *)

Fixpoint has_dot (s : string) : bool :=
  match s with
  | EmptyString => false
  | String c rest => Ascii.eqb c selectorSep || has_dot rest
  end.

Lemma Split_no_dot name : has_dot name = false -> Split name selectorSep = [name].
Proof.
  induction name as [ | c rest IH]; simpl; [reflexivity | ].
  intros H. apply orb_false_iff in H. destruct H as [Hc Hrest].
  rewrite Hc, (IH Hrest). reflexivity.
Qed.

Section NativeInduction.
Context {ET : ExtTypes}.
Variable P : native -> Prop.
Hypothesis HNil : P NNil.
Hypothesis HString : forall s, P (NString s).
Hypothesis HInt : forall i, P (NInt i).
Hypothesis HInt64 : forall i, P (NInt64 i).
Hypothesis HUint : forall u, P (NUint u).
Hypothesis HUint64 : forall u, P (NUint64 u).
Hypothesis HFloat64 : forall f, P (NFloat64 f).
Hypothesis HFloat32 : forall f, P (NFloat32 f).
Hypothesis HBool : forall b, P (NBool b).
Hypothesis HSlice : forall l, Forall P l -> P (NSlice l).
Hypothesis HMap : forall m, Forall (fun kv => P (snd kv)) m -> P (NMap m).
Hypothesis HFunc : P NFunc.
Hypothesis HOther : P NOther.

Fixpoint native_nested_ind (v : native) : P v :=
  match v with
  | NNil => HNil
  | NString s => HString s
  | NInt i => HInt i
  | NInt64 i => HInt64 i
  | NUint u => HUint u
  | NUint64 u => HUint64 u
  | NFloat64 f => HFloat64 f
  | NFloat32 f => HFloat32 f
  | NBool b => HBool b
  | NSlice l =>
      HSlice l ((fix elements (l : list native) : Forall P l :=
                 match l with
                 | [] => Forall_nil P
                 | x :: tl => Forall_cons x (native_nested_ind x) (elements tl)
                 end) l)
  | NMap m =>
      HMap m ((fix entries (m : list (string * native))
               : Forall (fun kv => P (snd kv)) m :=
               match m with
               | [] => Forall_nil _
               | kv :: tl =>
                   Forall_cons (P := fun kv => P (snd kv)) kv
                               (native_nested_ind (snd kv)) (entries tl)
               end) m)
  | NFunc => HFunc
  | NOther => HOther
  end.
End NativeInduction.

Section LoaderFacts.
Context {ET : ExtTypes} {EO : ExtOps}.

Definition isMap (v : native) : bool :=
  match v with NMap _ => true | _ => false end.

(** What [load] returns for a value that is not a map is not a [Dict]
    nor a [Key]; for a map it is a [Dict] with no processors. *)
Lemma load_kind v n :
  load v = Ok n ->
  if isMap v then exists value, n = Dict value None
  else isDictOrKey n = false.
Proof.
  destruct v; simpl; try (intros H; inversion H; reflexivity).
  - unfold loadSliceOrArray.
    destruct (mapM (fun r => r) (map load l)); simpl; intros H; inversion H; reflexivity.
  - unfold loadMap.
    destruct (loadMap_loop _ _ _); simpl; intros H; inversion H; eauto.
Qed.

Lemma Dict_Find_NotFound_intro value name :
  Forall (fun k => isKey k = true) value ->
  ~ In name (map key_name value) ->
  Dict_Find value name = NotFound.
Proof.
  induction 1 as [ | k tl Hk _ IH]; intros Hnotin; [reflexivity | ].
  destruct k; try discriminate Hk. cbn [Dict_Find].
  destruct (String.eqb name0 name) eqn:E.
  - apply String.eqb_eq in E. subst. exfalso. apply Hnotin. left. reflexivity.
  - rewrite IH; [reflexivity | ]. intros Hin. apply Hnotin. right. exact Hin.
Qed.

(** One iteration of [loadMap] appends the entry under its full name when
    the value is not a mapping, or when the name has no dot and is new. *)
Lemma loadMap_step_append value name aValue :
  Forall (fun k => isKey k = true) value ->
  ~ In name (map key_name value) ->
  (isDictOrKey aValue = false \/
   ((exists dv, aValue = Dict dv None) /\ has_dot name = false)) ->
  loadMap_step value name aValue = Ok (value ++ [Key name aValue None]).
Proof.
  intros HK Hnotin [Hs | ((dv & ->) & Hdot)]; unfold loadMap_step.
  - rewrite Hs. reflexivity.
  - cbn [isDictOrKey negb]. rewrite (Split_no_dot name Hdot).
    cbn [loadMap_walk Find]. rewrite (Dict_Find_NotFound_intro value name HK Hnotin).
    reflexivity.
Qed.

(** The value [load] has for the entry [name], a missing entry being a panic. *)
Definition loaded_value (loaded : list (string * res Node)) (name : string) : res Node :=
  match MapIndex loaded name with
  | Some r => r
  | None => Panic
  end.

Definition entries_of (names : list string) (vs : list Node) : list Node :=
  map (fun nv => Key (fst nv) (snd nv) None) (combine names vs).

Lemma loadMap_loop_plain loaded names :
  NoDup names ->
  (forall name v, In name names -> loaded_value loaded name = Ok v ->
                  isDictOrKey v = false \/
                  ((exists dv, v = Dict dv None) /\ has_dot name = false)) ->
  forall value,
  Forall (fun k => isKey k = true) value ->
  (forall name, In name names -> ~ In name (map key_name value)) ->
  loadMap_loop loaded names value =
  (vs <- mapM (loaded_value loaded) names ;; Ok (value ++ entries_of names vs)).
Proof.
  intros HN Hplain. induction names as [ | name rest IH]; intros value HK Hnew.
  - simpl. unfold entries_of. simpl. rewrite app_nil_r. reflexivity.
  - inversion HN as [ | ? ? Hnotin HN']. subst.
    cbn [loadMap_loop mapM]. unfold loaded_value at 1.
    destruct (MapIndex loaded name) as [r | ] eqn:EM; [ | reflexivity].
    destruct r as [aValue | e | ]; try reflexivity. cbn [bind].
    assert (Hv : loaded_value loaded name = Ok aValue)
      by (unfold loaded_value; rewrite EM; reflexivity).
    rewrite (loadMap_step_append value name aValue HK
               (Hnew name (or_introl eq_refl))
               (Hplain name aValue (or_introl eq_refl) Hv)).
    cbn [bind]. rewrite IH.
    + destruct (mapM (loaded_value loaded) rest) as [vs | e | ]; try reflexivity.
      cbn [bind]. unfold entries_of. cbn [combine map fst snd].
      rewrite <- app_assoc. reflexivity.
    + exact HN'.
    + intros n v Hn. apply Hplain. right. exact Hn.
    + apply Forall_app. split; [exact HK | repeat constructor].
    + intros n Hn. rewrite map_app, in_app_iff. simpl.
      intros [Hin | [<- | []]].
      * exact (Hnew n (or_intror Hn) Hin).
      * exact (Hnotin Hn).
Qed.
End LoaderFacts.

Lemma mapM_Forall2 {ET : ExtTypes} (A B : Type) (f : A -> res B) (l : list A) :
  forall ys, mapM f l = Ok ys -> Forall2 (fun x y => f x = Ok y) l ys.
Proof.
  induction l as [ | x tl IH]; intros ys H.
  - simpl in H. inversion H. constructor.
  - apply mapM_Ok_inv in H. destruct H as (y & ys' & Hy & Hys & ->).
    constructor; auto.
Qed.

Lemma Forall2_mapM {ET : ExtTypes} (A B : Type) (f : A -> res B) (l : list A) ys :
  Forall2 (fun x y => f x = Ok y) l ys -> mapM f l = Ok ys.
Proof.
  induction 1 as [ | x y tl ys' Hxy _ IH]; simpl; [reflexivity | ].
  rewrite Hxy, IH. reflexivity.
Qed.

Section MapIndexFacts.
Variables A B : Type.

Lemma MapIndex_map (g : A -> B) (m : list (string * A)) name :
  MapIndex (map (fun kv => (fst kv, g (snd kv))) m) name =
  option_map g (MapIndex m name).
Proof.
  induction m as [ | [k v] tl IH]; simpl; [reflexivity | ].
  destruct (String.eqb k name); [reflexivity | exact IH].
Qed.

Lemma MapIndex_In (m : list (string * A)) name v :
  MapIndex m name = Some v -> In (name, v) m.
Proof.
  induction m as [ | [k w] tl IH]; simpl; [discriminate | ].
  destruct (String.eqb k name) eqn:E.
  - intros H. inversion H. apply String.eqb_eq in E. subst. left. reflexivity.
  - intros H. right. apply IH. exact H.
Qed.

Lemma In_MapIndex (m : list (string * A)) name v :
  NoDup (map fst m) -> In (name, v) m -> MapIndex m name = Some v.
Proof.
  induction m as [ | [k w] tl IH]; simpl; intros HN Hin; [destruct Hin | ].
  inversion HN as [ | ? ? Hnotin HN']. subst.
  destruct Hin as [Heq | Hin].
  - inversion Heq. subst. rewrite String.eqb_refl. reflexivity.
  - destruct (String.eqb k name) eqn:E; [ | apply IH; assumption].
    apply String.eqb_eq in E. subst. exfalso. apply Hnotin.
    change name with (fst (name, v)). apply in_map. exact Hin.
Qed.
End MapIndexFacts.

Section LoadPlain.
Context {ET : ExtTypes} {EO : ExtOps}.

(** A native value in which the keys of every map are pairwise distinct
    (as in a Go map) and no key that holds a map has a dot. *)
Fixpoint plain (v : native) : bool :=
  match v with
  | NMap m =>
      distinct (map fst m) &&
      forallb (fun kv => (negb (isMap (snd kv)) || negb (has_dot (fst kv))) &&
                         plain (snd kv)) m
  | NSlice l => forallb plain l
  | _ => true
  end.

(** The children of every Mapping of the tree are in strictly ascending
    order of name. *)
Fixpoint all_sorted (n : Node) : bool :=
  match n with
  | Dict value _ =>
      strictly_ascending (map key_name value) && forallb all_sorted value
  | Key _ v _ => all_sorted v
  | List value _ => forallb all_sorted value
  | _ => true
  end.

Definition loaded_entries (m : list (string * native)) : list (string * res Node) :=
  map (fun kv => (fst kv, load (snd kv))) m.

Lemma plain_NMap m :
  plain (NMap m) = true ->
  NoDup (map fst m) /\
  forall kv, In kv m ->
             (isMap (snd kv) = true -> has_dot (fst kv) = false) /\
             plain (snd kv) = true.
Proof.
  simpl. rewrite andb_true_iff, distinct_NoDup, forallb_forall.
  intros [HN HF]. split; [exact HN | ].
  intros kv Hin. specialize (HF kv Hin). apply andb_true_iff in HF.
  destruct HF as [Hd Hp]. split; [ | exact Hp].
  intros Hm. rewrite Hm in Hd. simpl in Hd. apply negb_true_iff. exact Hd.
Qed.

Lemma loaded_value_In m name v :
  loaded_value (loaded_entries m) name = Ok v ->
  exists x, In (name, x) m /\ load x = Ok v.
Proof.
  unfold loaded_value, loaded_entries. rewrite MapIndex_map.
  destruct (MapIndex m name) as [x | ] eqn:E; simpl; [ | discriminate].
  intros H. exists x. split; [apply MapIndex_In; exact E | exact H].
Qed.

Lemma sort_Strings_NoDup names :
  NoDup names -> NoDup (sort_Strings names).
Proof.
  intros HN. eapply Permutation_NoDup; [ | exact HN].
  apply Permutation_sym. apply sort_by_perm.
Qed.

Lemma sort_Strings_strict names :
  NoDup names -> strictly_ascending (sort_Strings names) = true.
Proof.
  intros HN. unfold sort_Strings.
  rewrite <- (map_id (sort_by (fun s => s) names)).
  apply sort_by_strict. rewrite map_id. exact HN.
Qed.

(** [load] on a map without dotted keys of maps: each entry, in the
    ascending order of the names, under its name. *)
Lemma load_NMap_plain m :
  plain (NMap m) = true ->
  load (NMap m) =
  (vs <- mapM (loaded_value (loaded_entries m)) (sort_Strings (map fst m)) ;;
   Ok (Dict (entries_of (sort_Strings (map fst m)) vs) None)).
Proof.
  intros Hp. apply plain_NMap in Hp. destruct Hp as (HN & Hm).
  change (load (NMap m)) with (loadMap (loaded_entries m)).
  unfold loadMap.
  assert (Efst : map fst (loaded_entries m) = map fst m).
  { unfold loaded_entries. rewrite map_map. reflexivity. }
  rewrite Efst.
  rewrite (loadMap_loop_plain (loaded_entries m) (sort_Strings (map fst m))).
  - destruct (mapM _ _) as [vs | e | ]; reflexivity.
  - apply sort_Strings_NoDup. exact HN.
  - intros name v _ Hv. apply loaded_value_In in Hv. destruct Hv as (x & Hin & Hx).
    destruct (Hm (name, x) Hin) as (Hdot & _). simpl in Hdot.
    pose proof (load_kind x v Hx) as Hk.
    destruct (isMap x); [right | left; exact Hk].
    split; [exact Hk | apply Hdot; reflexivity].
  - constructor.
  - intros name _ [].
Qed.

Lemma entries_of_names names vs :
  length names = length vs -> map key_name (entries_of names vs) = names.
Proof.
  revert vs. induction names as [ | n tl IH]; intros [ | v vs] H; simpl in *;
    try discriminate; try reflexivity.
  unfold entries_of in *. simpl. rewrite IH; [reflexivity | lia].
Qed.

(** Every Mapping [load] produces from such a value is sorted. *)
Lemma load_plain_sorted v :
  forall n, plain v = true -> load v = Ok n -> all_sorted n = true.
Proof.
  induction v as [ | | | | | | | | | l IHl | m IHm | | ] using native_nested_ind;
    intros n Hp H; try (simpl in H; inversion H; reflexivity).
  - simpl in H. unfold loadSliceOrArray in H.
    destruct (mapM (fun r => r) (map load l)) as [value | e | ] eqn:E; try discriminate H.
    simpl in H. inversion H. subst n. simpl. apply forallb_forall.
    apply mapM_Forall2 in E. simpl in Hp. rewrite forallb_forall in Hp.
    rewrite Forall_forall in IHl.
    clear H. revert value E. induction l as [ | x tl IHtl]; intros value E y Hy.
    + inversion E. subst. destruct Hy.
    + inversion E as [ | ? v' ? vs' Hx Hrest]. subst. destruct Hy as [<- | Hy].
      * apply (IHl x (or_introl eq_refl)); [apply Hp; left; reflexivity | exact Hx].
      * apply (IHtl (fun z Hz => IHl z (or_intror Hz)) (fun z Hz => Hp z (or_intror Hz))
                    vs' Hrest y Hy).
  - rewrite (load_NMap_plain m Hp) in H.
    destruct (mapM (loaded_value (loaded_entries m)) (sort_Strings (map fst m)))
      as [vs | e | ] eqn:E; try discriminate H.
    simpl in H. inversion H. subst n. clear H.
    apply mapM_Forall2 in E.
    apply plain_NMap in Hp. destruct Hp as (HN & Hm).
    simpl. apply andb_true_iff. split.
    + rewrite entries_of_names by (eapply Forall2_length; eauto).
      apply sort_Strings_strict. exact HN.
    + apply forallb_forall. intros k Hk. unfold entries_of in Hk.
      apply in_map_iff in Hk. destruct Hk as ([name v] & <- & Hin). simpl.
      assert (Hv : loaded_value (loaded_entries m) name = Ok v).
      { clear - E Hin. induction E as [ | a b la lb Hab _ IH]; [destruct Hin | ].
        destruct Hin as [Heq | Hin]; [inversion Heq; subst; exact Hab | auto]. }
      apply loaded_value_In in Hv. destruct Hv as (x & Hx & Hload).
      rewrite Forall_forall in IHm.
      apply (IHm (name, x) Hx v); [ | exact Hload].
      apply (Hm (name, x) Hx).
Qed.
End LoadPlain.

(** C4, as the code has it. For every native mapping in which no key that
    holds a mapping contains a dot (at any depth), every Mapping the
    loader produces has its children in strictly ascending order of name. *)
Theorem loader_sorts_plain_mappings {ET : ExtTypes} {EO : ExtOps}
        (m : list (string * native)) (a : AST) :
  plain (NMap m) = true ->
  NewAST m = Ok a ->
  all_sorted (root a) = true.
Proof.
  intros Hp H. unfold NewAST, loadForNew in H.
  destruct (load (NMap m)) as [r | e | ] eqn:E; try discriminate H.
  simpl in H. inversion H. subst a. simpl.
  apply (load_plain_sorted (NMap m) r Hp E).
Qed.

Lemma loader_sorts_plain_mappings_witness :
  let m : list (string * @native Toy.types) :=
    [("outputs"%string, NMap [("default"%string, NMap [("type"%string, NString "es")])]);
     ("agent.id"%string, NInt64 7);
     ("agent"%string, NSlice [NMap [("z"%string, NNil); ("y"%string, NBool true)]])] in
  exists a, NewAST m = Ok a /\ all_sorted (root a) = true.
Proof.
  intros m.
  destruct (NewAST m) as [a | | ] eqn:E; [ | discriminate E | discriminate E].
  exists a. split; [reflexivity | ].
  apply (@loader_sorts_plain_mappings Toy.types Toy.ops m a); [reflexivity | exact E].
Defined.

(** C4 as stated fails: the loader appends the entries of an exploded
    dotted key after those already there, and does not sort them. *)
Lemma loader_leaves_exploded_keys_unsorted :
  let m : list (string * @native Toy.types) :=
    [("a"%string, NMap [("x"%string, NInt64 1)]);
     ("a.b"%string, NMap [("y"%string, NInt64 2)])] in
  NewAST m =
    Ok (mkAST (Dict [Key "a" (Dict [Key "x" (IntVal 1 None) None;
                                    Key "b" (Dict [Key "y" (IntVal 2 None) None] None) None]
                                   None) None] None)) /\
  String.ltb "b" "x" = true /\
  (a <- NewAST m ;; Ok (all_sorted (root a))) = Ok false.
Proof.
  intros m. repeat split.
Qed.

(* ================================================================== *)
(** ** Round trip *)

Section RoundTrip.
Context {ET : ExtTypes} {EO : ExtOps}.

(** A well-formed native mapping: the keys of every map are pairwise
    distinct, no key that holds a map has a dot, and the leaves are
    [string | int64 | uint64 | float64 | bool | nil]. *)
Fixpoint well_formed (v : native) : bool :=
  match v with
  | NMap m =>
      distinct (map fst m) &&
      forallb (fun kv => (negb (isMap (snd kv)) || negb (has_dot (fst kv))) &&
                         well_formed (snd kv)) m
  | NSlice l => forallb well_formed l
  | NNil | NString _ | NInt64 _ | NUint64 _ | NFloat64 _ | NBool _ => true
  | NInt _ | NUint _ | NFloat32 _ | NFunc | NOther => false
  end.

(** The same value with the keys of every map in ascending order. *)
Fixpoint canon (v : native) : native :=
  match v with
  | NMap m => NMap (sort_by fst (map (fun kv => (fst kv, canon (snd kv))) m))
  | NSlice l => NSlice (map canon l)
  | _ => v
  end.

Definition canon_map (m : list (string * native)) : list (string * native) :=
  sort_by fst (map (fun kv => (fst kv, canon (snd kv))) m).

Lemma well_formed_NMap m :
  well_formed (NMap m) = true ->
  NoDup (map fst m) /\
  forall kv, In kv m ->
             (isMap (snd kv) = true -> has_dot (fst kv) = false) /\
             well_formed (snd kv) = true.
Proof.
  simpl. rewrite andb_true_iff, distinct_NoDup, forallb_forall.
  intros [HN HF]. split; [exact HN | ].
  intros kv Hin. specialize (HF kv Hin). apply andb_true_iff in HF.
  destruct HF as [Hd Hp]. split; [ | exact Hp].
  intros Hm. rewrite Hm in Hd. simpl in Hd. apply negb_true_iff. exact Hd.
Qed.

Lemma well_formed_plain v : well_formed v = true -> plain v = true.
Proof.
  induction v as [ | | | | | | | | | l IHl | m IHm | | ] using native_nested_ind;
    intros H; try reflexivity; try discriminate H.
  - simpl in *. rewrite forallb_forall in *. rewrite Forall_forall in IHl. auto.
  - simpl in *. rewrite andb_true_iff in *. destruct H as [HN HF].
    split; [exact HN | ]. rewrite forallb_forall in *. rewrite Forall_forall in IHm.
    intros kv Hin. specialize (HF kv Hin). rewrite andb_true_iff in *.
    destruct HF as [Hd Hw]. split; [exact Hd | auto].
Qed.

Lemma map_store_new (m : list (string * native)) k v :
  ~ In k (map fst m) -> map_store m k v = m ++ [(k, v)].
Proof.
  induction m as [ | [k' v'] tl IH]; simpl; intros H; [reflexivity | ].
  destruct (String.eqb k' k) eqn:E.
  - apply String.eqb_eq in E. subst. exfalso. apply H. left. reflexivity.
  - rewrite IH; [reflexivity | ]. intros Hin. apply H. right. exact Hin.
Qed.

Lemma fold_map_store entries :
  forall acc : list (string * native),
  NoDup (map fst (acc ++ entries)) ->
  fold_left (fun m kv => map_store m (fst kv) (snd kv)) entries acc = acc ++ entries.
Proof.
  induction entries as [ | [k v] tl IH]; intros acc HN; simpl.
  - rewrite app_nil_r. reflexivity.
  - rewrite map_store_new.
    + rewrite IH; rewrite <- app_assoc; [reflexivity | exact HN].
    + rewrite map_app in HN. simpl in HN. apply NoDup_remove_2 in HN.
      intros Hin. apply HN. apply in_or_app. left. exact Hin.
Qed.

(** The materialized children of a loaded map. *)
Lemma dispatch_entries names :
  forall vs (ws : list native),
  Forall2 (fun v w => dispatch MapVisitor v = Ok w) vs ws ->
  length names = length vs ->
  mapM (fun child =>
          match child with
          | Key name v _ => r <- dispatch MapVisitor v ;; Ok (name, r)
          | _ => Panic
          end) (entries_of names vs) = Ok (combine names ws).
Proof.
  induction names as [ | name rest IH]; intros vs ws HF Hlen.
  - destruct vs; [ | discriminate Hlen]. inversion HF. reflexivity.
  - destruct vs as [ | v vs']; [discriminate Hlen | ].
    inversion HF as [ | ? w ? ws' Hv Hrest]. subst.
    unfold entries_of in *. cbn [combine map fst snd mapM]. rewrite Hv. cbn [bind].
    rewrite (IH vs' ws' Hrest); [reflexivity | ]. simpl in Hlen. lia.
Qed.

Lemma combine_map_self (A B : Type) (g : A -> B) (l : list A) :
  combine l (map g l) = map (fun x => (x, g x)) l.
Proof. induction l as [ | x tl IH]; simpl; [reflexivity | rewrite IH; reflexivity]. Qed.

Lemma Forall2_map_r (A B C : Type) (R : A -> C -> Prop) (g : B -> C) la lb :
  Forall2 (fun a b => R a (g b)) la lb -> Forall2 R la (map g lb).
Proof. induction 1; simpl; constructor; auto. Qed.

(** [load] then materialization on a well-formed value. *)
Lemma load_dispatch v :
  well_formed v = true ->
  exists n, load v = Ok n /\ dispatch MapVisitor n = Ok (canon v).
Proof.
  induction v as [ | | | | | | | | | l IHl | m IHm | | ] using native_nested_ind;
    intros Hw; try discriminate Hw; try (eexists; split; reflexivity).
  - (* a slice *)
    assert (H : exists ns, mapM (fun r => r) (map load l) = Ok ns /\
                           mapM (dispatch MapVisitor) ns = Ok (map canon l)).
    { simpl in Hw. rewrite forallb_forall in Hw. rewrite Forall_forall in IHl.
      induction l as [ | x tl IHtl]; [exists []; split; reflexivity | ].
      destruct (IHl x (or_introl eq_refl) (Hw x (or_introl eq_refl))) as (n & Hn & Hd).
      destruct (IHtl (fun z Hz => IHl z (or_intror Hz)) (fun z Hz => Hw z (or_intror Hz)))
        as (ns & Hns & Hds).
      exists (n :: ns). simpl. rewrite Hn, Hns, Hd, Hds. split; reflexivity. }
    destruct H as (ns & Hns & Hds). exists (List ns None).
    simpl. unfold loadSliceOrArray. rewrite Hns. simpl. rewrite Hds. split; reflexivity.
  - (* a map *)
    pose proof (well_formed_NMap m Hw) as (HN & Hm).
    rewrite (load_NMap_plain m (well_formed_plain (NMap m) Hw)).
    set (names := sort_Strings (map fst m)).
    assert (HP : Permutation names (map fst m)) by apply sort_by_perm.
    set (val := fun name => match MapIndex m name with
                            | Some x => canon x
                            | None => NNil
                            end).
    assert (H : exists vs,
               Forall2 (fun name v => loaded_value (loaded_entries m) name = Ok v) names vs /\
               Forall2 (fun v name => dispatch MapVisitor v = Ok (val name)) vs names).
    { assert (Hin : forall name, In name names -> In name (map fst m))
        by (intros name; apply Permutation_in; exact HP).
      clearbody names. clear HP.
      induction names as [ | name rest IHrest]; [exists []; split; constructor | ].
      destruct (IHrest (fun z Hz => Hin z (or_intror Hz))) as (vs & H1 & H2).
      pose proof (Hin name (or_introl eq_refl)) as Hname.
      apply in_map_iff in Hname. destruct Hname as ([k x] & Hk & Hkx). simpl in Hk. subst k.
      rewrite Forall_forall in IHm.
      destruct (IHm (name, x) Hkx (proj2 (Hm (name, x) Hkx))) as (n & Hn & Hd).
      simpl in Hn, Hd.
      pose proof (In_MapIndex _ m name x HN Hkx) as EM.
      exists (n :: vs). split; constructor; try assumption.
      - unfold loaded_value, loaded_entries. rewrite MapIndex_map, EM. exact Hn.
      - unfold val. rewrite EM. exact Hd. }
    destruct H as (vs & H1 & H2).
    rewrite (Forall2_mapM _ _ _ _ _ H1). cbn [bind].
    eexists. split; [reflexivity | ].
    cbn [dispatch].
    rewrite (dispatch_entries names vs (map val names)).
    + cbn [bind OnDict MapVisitor]. f_equal.
      rewrite combine_map_self.
      rewrite fold_map_store by
        (simpl; rewrite map_map; simpl; rewrite map_id;
         apply sort_Strings_NoDup; exact HN).
      simpl app. cbn [canon]. f_equal. symmetry. apply sort_by_unique.
      * rewrite map_map. simpl. rewrite map_id. apply sort_Strings_strict. exact HN.
      * rewrite (Permutation_map (fun x => (x, val x)) HP). rewrite map_map.
        apply Permutation_refl'. apply map_ext_in. intros [k x] Hkx. simpl.
        unfold val. rewrite (In_MapIndex _ m k x HN Hkx). reflexivity.
    + apply Forall2_map_r. exact H2.
    + eapply Forall2_length. exact H1.
Qed.
End RoundTrip.

(** C2, as the code has it. For every well-formed native mapping [m] in
    which no key that holds a mapping contains a dot, [Map] after [NewAST]
    returns [m] with the keys of every mapping in ascending order. A
    dotted key whose value is a scalar is kept under its full name. *)
Theorem round_trip_plain {ET : ExtTypes} {EO : ExtOps} (m : list (string * native)) :
  well_formed (NMap m) = true ->
  (a <- NewAST m ;; AST_Map a) = Ok (canon_map m).
Proof.
  intros Hw. destruct (load_dispatch (NMap m) Hw) as (n & Hn & Hd).
  unfold NewAST, loadForNew. rewrite Hn. cbn [bind]. unfold AST_Map. simpl root.
  rewrite Hd. reflexivity.
Qed.

Lemma round_trip_plain_witness :
  let m : list (string * @native Toy.types) :=
    [("outputs"%string, NMap [("default"%string, NMap [("type"%string, NString "es")])]);
     ("a.b"%string, NInt64 1);
     ("a"%string, NSlice [NNil; NMap [("z"%string, NBool true); ("y"%string, NUint64 2)]])] in
  (a <- NewAST m ;; AST_Map a) =
    Ok [("a"%string, NSlice [NNil; NMap [("y"%string, NUint64 2); ("z"%string, NBool true)]]);
        ("a.b"%string, NInt64 1);
        ("outputs"%string, NMap [("default"%string, NMap [("type"%string, NString "es")])])].
Proof.
  intros m.
  exact (@round_trip_plain Toy.types Toy.ops m eq_refl).
Defined.

(** C2 as stated fails: [{"a.b": 1}] loads as one entry named ["a.b"] and
    materializes to itself, not to [{"a": {"b": 1}}]. *)
Lemma dotted_scalar_key_not_exploded :
  let m : list (string * @native Toy.types) := [("a.b"%string, NInt64 1)] in
  NewAST m = Ok (mkAST (Dict [Key "a.b" (IntVal 1 None) None] None)) /\
  (a <- NewAST m ;; AST_Map a) = Ok m /\
  (a <- NewAST m ;; AST_Map a) <> Ok [("a"%string, NMap [("b"%string, NInt64 1)])].
Proof.
  intros m. split; [reflexivity | split; [reflexivity | discriminate]].
Qed.

(** A dotted key whose value is a mapping is exploded. *)
Example dotted_mapping_key_exploded :
  let m : list (string * @native Toy.types) :=
    [("a.b"%string, NMap [("c"%string, NInt64 1)])] in
  (a <- NewAST m ;; AST_Map a) =
    Ok [("a"%string, NMap [("b"%string, NMap [("c"%string, NInt64 1)])])].
Proof. reflexivity. Qed.

(* ================================================================== *)
(** * Further properties of the code *)

(** ** Clone as a sanitiser *)

Section CloneAlgebra.
Context {ET : ExtTypes} {EO : ExtOps}.

Lemma clone_children_cons (f : Node -> Node) v tl :
  isNil v = false -> clone_children f (v :: tl) = f v :: clone_children f tl.
Proof. destruct v; simpl; intros H; try discriminate H; reflexivity. Qed.

Lemma clone_children_Clone_idem value :
  Forall (fun v => Clone (Clone v) = Clone v) value ->
  clone_children Clone (clone_children Clone value) = clone_children Clone value.
Proof.
  induction 1 as [ | v tl Hv _ IH]; [reflexivity | ].
  destruct (isNil v) eqn:Hn.
  - destruct v; try discriminate Hn. exact IH.
  - rewrite (clone_children_cons Clone v tl Hn).
    rewrite clone_children_cons by (rewrite isNil_Clone; exact Hn).
    rewrite Hv, IH. reflexivity.
Qed.

Lemma Clone_Clone n : Clone (Clone n) = Clone n.
Proof.
  node_induction n; try reflexivity.
  - simpl. rewrite (clone_children_Clone_idem value IHvalue). reflexivity.
  - rewrite !Clone_Key, IHv. reflexivity.
  - simpl. rewrite (clone_children_Clone_idem value IHvalue). reflexivity.
Qed.

(** The children [Clone] keeps, each with what a method returns on its clone. *)
Lemma mapM_clone_children (B : Type) (g : Node -> res B) value :
  Forall (fun v => isNil v = false -> exists y, g (Clone v) = Ok y) value ->
  exists ys, mapM g (clone_children Clone value) = Ok ys.
Proof.
  induction 1 as [ | v tl Hv _ IH]; [exists []; reflexivity | ].
  destruct IH as (ys & Hys). destruct (isNil v) eqn:Hn.
  - destruct v; try discriminate Hn. exists ys. exact Hys.
  - rewrite (clone_children_cons Clone v tl Hn). destruct (Hv eq_refl) as (y & Hy).
    exists (y :: ys). simpl. rewrite Hy, Hys. reflexivity.
Qed.

Lemma Hash_Clone_returns n : isNil n = false -> exists h, Hash (Clone n) = Ok h.
Proof.
  node_induction n; intros Hn; try discriminate Hn; try (eexists; reflexivity).
  - simpl. destruct (mapM_clone_children bytes Hash value IHvalue) as (hs & Hhs).
    rewrite Hhs. eexists. reflexivity.
  - rewrite Clone_Key, Hash_Key, isNil_Clone. destruct (isNil v) eqn:Ev.
    + eexists. reflexivity.
    + destruct (IHv eq_refl) as (h & Hh). rewrite Hh. eexists. reflexivity.
  - simpl. destruct (mapM_clone_children bytes Hash value IHvalue) as (hs & Hhs).
    rewrite Hhs. eexists. reflexivity.
Qed.

Lemma hash64_clone_children_returns value :
  Forall (fun v => isNil v = false ->
                   forall d, exists d', Hash64With (Clone v) d = Ok d') value ->
  forall d, exists d', hash64_children Hash64With (clone_children Clone value) d = Ok d'.
Proof.
  induction 1 as [ | v tl Hv _ IH]; intros d; [exists d; reflexivity | ].
  destruct (isNil v) eqn:Hn.
  - destruct v; try discriminate Hn. apply IH.
  - rewrite (clone_children_cons Clone v tl Hn). destruct (Hv eq_refl d) as (d1 & Hd1).
    destruct (IH d1) as (d' & Hd'). exists d'. simpl. rewrite Hd1. exact Hd'.
Qed.

Lemma Hash64With_Clone_returns n :
  isNil n = false -> forall d, exists d', Hash64With (Clone n) d = Ok d'.
Proof.
  node_induction n; intros Hn d; try discriminate Hn; try (eexists; reflexivity).
  - simpl. apply hash64_clone_children_returns. exact IHvalue.
  - rewrite Clone_Key, Hash64With_Key, isNil_Clone. destruct (isNil v) eqn:Ev.
    + eexists. reflexivity.
    + apply IHv. reflexivity.
  - simpl. apply hash64_clone_children_returns. exact IHvalue.
Qed.

Lemma processors_clone_children_returns value :
  Forall (fun v => isNil v = false -> exists q, Node_Processors (Clone v) = Ok q) value ->
  exists q, processors_children Node_Processors (clone_children Clone value) = Ok q.
Proof.
  induction 1 as [ | v tl Hv _ IH]; [exists None; reflexivity | ].
  destruct IH as (q & Hq). destruct (isNil v) eqn:Hn.
  - destruct v; try discriminate Hn. exists q. exact Hq.
  - rewrite (clone_children_cons Clone v tl Hn). destruct (Hv eq_refl) as (q1 & Hq1).
    simpl. rewrite Hq1. simpl. destruct q1; eauto.
Qed.

Lemma Processors_Clone_returns n :
  isNil n = false -> exists q, Node_Processors (Clone n) = Ok q.
Proof.
  node_induction n; intros Hn; try discriminate Hn; try (eexists; reflexivity).
  - simpl. apply processors_clone_children_returns. exact IHvalue.
  - rewrite Clone_Key, Processors_Key, isNil_Clone. destruct (isNil v) eqn:Ev.
    + eexists. reflexivity.
    + apply IHv. reflexivity.
  - simpl. apply processors_clone_children_returns. exact IHvalue.
Qed.
End CloneAlgebra.

(** X1. [Clone] is idempotent: the clone of a clone is the clone. (It is
    not the identity: it drops nil children, memoized conditions and the
    processors of containers.) *)
Theorem Clone_idempotent {ET : ExtTypes} {EO : ExtOps} (n : Node) :
  Clone (Clone n) = Clone n /\
  (forall t c, AST_Clone t = Ok c -> AST_Clone c = Ok c).
Proof.
  split; [apply Clone_Clone | ].
  intros [r] c H. unfold AST_Clone in *. simpl root in *.
  destruct (isNil r) eqn:Hn; [destruct r; try discriminate Hn; discriminate H | ].
  assert (E : Ok (mkAST (Clone r)) = Ok c) by (destruct r; try discriminate Hn; exact H).
  inversion E. subst c. simpl root.
  pose proof (isNil_Clone r) as Hc. rewrite Hn in Hc.
  rewrite <- (Clone_Clone r) at 2.
  destruct (Clone r); try discriminate Hc; reflexivity.
Qed.

(** X2. On the clone of any node that is not nil, [Hash], [Hash64With]
    and [Processors] return: their only panic is a method call on a nil
    child, and [Clone] drops the nil children of every Dict and List. *)
Theorem methods_return_on_clone {ET : ExtTypes} {EO : ExtOps} (n : Node) :
  isNil n = false ->
  (exists h, Hash (Clone n) = Ok h) /\
  (forall d, exists d', Hash64With (Clone n) d = Ok d') /\
  (exists q, Node_Processors (Clone n) = Ok q).
Proof.
  intros Hn. split; [apply Hash_Clone_returns; exact Hn | ].
  split; [apply Hash64With_Clone_returns; exact Hn | ].
  apply Processors_Clone_returns. exact Hn.
Qed.

Lemma methods_return_on_clone_witness :
  let n := @List Toy.types [NilNode; Dict [Key "a" NilNode None] None; NilNode] None in
  Hash n = Panic /\
  Clone n = List [Dict [Key "a" NilNode None] None] None /\
  exists h, Hash (Clone n) = Ok h.
Proof.
  intros n. split; [reflexivity | split; [reflexivity | ]].
  exact (proj1 (@methods_return_on_clone Toy.types Toy.ops n eq_refl)).
Defined.

(* ================================================================== *)
(** ** Equal *)

Section EqualFacts.
Context {ET : ExtTypes} {EO : ExtOps}.

Lemma Hash64With_New_canonical n :
  Hash64With n XXH64.New = (b <- canonical n ;; Ok (XXH64.mkDigest b)).
Proof. rewrite Hash64With_canonical. reflexivity. Qed.

(** [AST.Equal] when both roots are not nil: the sums of the two feeds. *)
Lemma AST_Equal_canonical a b :
  isNil (root a) = false -> isNil (root b) = false ->
  AST_Equal a b =
  (x <- canonical (root a) ;; y <- canonical (root b) ;;
   Ok (Z.eqb (XXH64.sum64 x) (XXH64.sum64 y))).
Proof.
  intros Ha Hb. unfold AST_Equal, AST_Hash64With.
  destruct (root a) eqn:Ra; try discriminate Ha;
    destruct (root b) eqn:Rb; try discriminate Hb.
  all: rewrite Hash64With_New_canonical.
  all: match goal with
       | |- context [canonical ?n] => destruct (canonical n) as [x | e | ]
       end; try reflexivity.
  all: cbn [bind]; change (XXH64.Reset (XXH64.mkDigest x)) with XXH64.New.
  all: rewrite Hash64With_New_canonical.
  all: match goal with
       | |- context [canonical ?n] => destruct (canonical n) as [y | e | ]
       end; reflexivity.
Qed.

Lemma mapM_not_Err (A B : Type) (g : A -> res B) (l : list A) :
  Forall (fun x => forall e, g x <> Err e) l -> forall e, mapM g l <> Err e.
Proof.
  induction 1 as [ | x tl Hx _ IH]; intros e; simpl; [discriminate | ].
  destruct (g x) as [y | e' | ] eqn:E; [ | exfalso; exact (Hx e' eq_refl) | discriminate].
  destruct (mapM g tl) as [ys | e' | ] eqn:E'; [discriminate | | discriminate].
  exfalso. exact (IH e' eq_refl).
Qed.

Lemma canonical_not_Err n : forall e, canonical n <> Err e.
Proof.
  node_induction n; intros e; try discriminate.
  - simpl. pose proof (mapM_not_Err _ _ canonical value IHvalue) as H.
    destruct (mapM canonical value) as [bs | e' | ]; try discriminate.
    exfalso. exact (H e' eq_refl).
  - rewrite canonical_Key. destruct (isNil v); [discriminate | ].
    destruct (canonical v) as [x | e' | ] eqn:E; try discriminate.
    exfalso. exact (IHv e' eq_refl).
  - simpl. pose proof (mapM_not_Err _ _ canonical value IHvalue) as H.
    destruct (mapM canonical value) as [bs | e' | ]; try discriminate.
    exfalso. exact (H e' eq_refl).
Qed.

Lemma canonical_Ok_not_nil n x : canonical n = Ok x -> isNil n = false.
Proof. destruct n; simpl; congruence. Qed.
End EqualFacts.

(** X3. [Equal] compares the bytes fed to the digest and nothing else:
    two trees with the same canonical byte sequence are equal, whatever
    their structure. With no delimiter between a name and its value, the
    entry ["ab": "c"] equals the entry ["a": "bc"]. *)
Theorem Equal_on_same_feed {ET : ExtTypes} {EO : ExtOps} (a b : AST) (x : bytes) :
  canonical (root a) = Ok x ->
  canonical (root b) = Ok x ->
  AST_Equal a b = Ok true.
Proof.
  intros Ha Hb.
  rewrite AST_Equal_canonical by (eapply canonical_Ok_not_nil; eauto).
  rewrite Ha, Hb. cbn [bind]. rewrite Z.eqb_refl. reflexivity.
Qed.

Lemma Equal_on_same_feed_witness :
  AST_Equal (@mkAST Toy.types (Dict [Key "ab" (StrVal "c" None) None] None))
            (mkAST (Dict [Key "a" (StrVal "bc" None) None] None)) = Ok true.
Proof.
  apply (@Equal_on_same_feed Toy.types Toy.ops _ _ (bytes_of_string "abc"));
    reflexivity.
Defined.

(** X4. [Equal] is symmetric, panics included; a tree whose fast hash is
    computed equals itself, its [Clone] and its [ShallowClone]. *)
Theorem Equal_symmetric_and_clones {ET : ExtTypes} {EO : ExtOps} (a b : AST) :
  AST_Equal a b = AST_Equal b a /\
  (forall d, AST_Hash64With a XXH64.New = Ok d ->
             AST_Equal a a = Ok true /\
             (c <- AST_Clone a ;; AST_Equal a c) = Ok true /\
             (c <- AST_ShallowClone a ;; AST_Equal a c) = Ok true).
Proof.
  split.
  - destruct (isNil (root a)) eqn:Ha; destruct (isNil (root b)) eqn:Hb.
    + unfold AST_Equal. destruct (root a); try discriminate Ha.
      destruct (root b); try discriminate Hb. reflexivity.
    + unfold AST_Equal. destruct (root a); try discriminate Ha.
      destruct (root b); try discriminate Hb; reflexivity.
    + unfold AST_Equal. destruct (root b); try discriminate Hb.
      destruct (root a); try discriminate Ha; reflexivity.
    + rewrite !AST_Equal_canonical by assumption.
      pose proof (canonical_not_Err (root a)) as Na.
      pose proof (canonical_not_Err (root b)) as Nb.
      destruct (canonical (root a)) as [x | e | ];
        destruct (canonical (root b)) as [y | e' | ]; try reflexivity;
        try (exfalso; exact (Na e eq_refl)); try (exfalso; exact (Nb e' eq_refl)).
      cbn [bind]. rewrite Z.eqb_sym. reflexivity.
  - intros d Hd. destruct a as [r]. unfold AST_Hash64With in Hd. simpl root in Hd.
    assert (Hn : isNil r = false) by (eapply Hash64With_Ok_not_nil; eauto).
    assert (Ec : AST_Clone (mkAST r) = Ok (mkAST (Clone r)))
      by (destruct r; try discriminate Hn; reflexivity).
    assert (Es : AST_ShallowClone (mkAST r) = Ok (mkAST (ShallowClone r)))
      by (destruct r; try discriminate Hn; reflexivity).
    assert (HE : forall r', Hash64With r' XXH64.New = Ok d -> isNil r' = false ->
                            AST_Equal (mkAST r) (mkAST r') = Ok true).
    { intros r' Hr' Hn'. rewrite AST_Equal_canonical by assumption. simpl root.
      rewrite Hash64With_New_canonical in Hd, Hr'.
      destruct (canonical r) as [x | | ]; try discriminate Hd.
      destruct (canonical r') as [y | | ]; try discriminate Hr'.
      simpl in Hd, Hr'. rewrite <- Hr' in Hd. inversion Hd. subst. cbn [bind].
      rewrite Z.eqb_refl. reflexivity. }
    rewrite Ec, Es. cbn [bind]. split; [apply HE; assumption | ].
    split; apply HE.
    + apply Hash64With_Clone. exact Hd.
    + rewrite isNil_Clone. exact Hn.
    + apply Hash64With_ShallowClone. exact Hd.
    + rewrite isNil_ShallowClone. exact Hn.
Qed.

Lemma Equal_symmetric_and_clones_witness :
  let a := @mkAST Toy.types (Dict [Key "a" (List [IntVal 1 None] (Some [])) (Some (Toy.lit true))] None) in
  AST_Equal a a = Ok true /\ (c <- AST_Clone a ;; AST_Equal a c) = Ok true.
Proof.
  intros a.
  destruct (AST_Hash64With a XXH64.New) as [d | | ] eqn:Hd;
    [ | discriminate Hd | discriminate Hd].
  destruct (proj2 (@Equal_symmetric_and_clones Toy.types Toy.ops a a) d Hd)
    as (H1 & H2 & _).
  split; assumption.
Defined.

(* ================================================================== *)
(** ** Find and Lookup *)

Lemma Split_not_nil s sep : Split s sep <> [].
Proof.
  destruct s as [ | c rest]; simpl; [discriminate | ].
  destruct (Ascii.eqb c sep); [discriminate | ].
  destruct (Split rest sep); discriminate.
Qed.

(** Splitting at a separator splits both sides. *)
Lemma Split_app s1 s2 sep :
  Split (s1 ++ String sep s2) sep = Split s1 sep ++ Split s2 sep.
Proof.
  induction s1 as [ | c rest IH]; simpl.
  - rewrite Ascii.eqb_refl. reflexivity.
  - destruct (Ascii.eqb c sep); [rewrite IH; reflexivity | ].
    rewrite IH. pose proof (Split_not_nil rest sep) as Hne.
    destruct (Split rest sep); [congruence | reflexivity].
Qed.

Lemma splitPath_app s1 s2 :
  s1 <> EmptyString ->
  splitPath (s1 ++ String selectorSep s2) = splitPath s1 ++ Split s2 selectorSep.
Proof.
  intros H1. unfold splitPath.
  destruct s1 as [ | c rest]; [congruence | ].
  change (String.eqb (String c rest ++ String selectorSep s2) "") with false.
  change (String.eqb (String c rest) "") with false. cbv iota.
  apply Split_app.
Qed.

Section LookupFacts.
Context {ET : ExtTypes} {EO : ExtOps}.

Lemma Lookup_walk_app p1 p2 :
  forall n,
  Lookup_walk (p1 ++ p2) n =
  match Lookup_walk p1 n with
  | Ok (Some m) => Lookup_walk p2 m
  | r => r
  end.
Proof.
  induction p1 as [ | part rest IH]; intros n; simpl; [reflexivity | ].
  destruct (Find n part) as [i m | | ]; [apply IH | reflexivity | reflexivity].
Qed.

Lemma Lookup_not_nil a s :
  isNil (root a) = false -> Lookup a s = Lookup_walk (splitPath s) (root a).
Proof. unfold Lookup. destruct (root a); simpl; intros H; try discriminate H; reflexivity. Qed.

Lemma set_child_same current part i n :
  Find current part = Found i n -> set_child current i n = current.
Proof.
  intros H. destruct (Find_child current part i n H) as (value & Hnth & Hc).
  destruct Hc as [(p & ->) | [(p & ->) | [(name & p & c & ->) | (name & p & c & ->)]]];
    simpl; rewrite (set_nth_same i value Hnth); reflexivity.
Qed.

(** An [Insert] whose walk from the node [Lookup] finds leaves that node
    as it is leaves the tree as it is, and returns what that walk returns. *)
Lemma Insert_walk_prefix to x p1 p2 r :
  forall current d,
  Lookup_walk p1 current = Ok (Some d) ->
  Insert_walk to x p2 d = (d, r) ->
  p2 <> [] ->
  Insert_walk to x (p1 ++ p2) current = (current, r).
Proof.
  induction p1 as [ | part rest IH]; intros current d HL Hd Hp2.
  - simpl in HL. inversion HL. subst d. exact Hd.
  - cbn [Lookup_walk] in HL. cbn [app Insert_walk].
    destruct (Find current part) as [i m | | ] eqn:EF; try discriminate HL.
    rewrite (IH m d HL Hd Hp2). rewrite (set_child_same current part i m EF). reflexivity.
Qed.
End LookupFacts.

(** X5. Selectors compose: looking up [s1.s2] is looking up [s2] from the
    node found at [s1]; a not found, or a panic, on the way stays one. *)
Theorem Lookup_composes {ET : ExtTypes} {EO : ExtOps} (a : AST) (s1 s2 : string) :
  s1 <> EmptyString ->
  s2 <> EmptyString ->
  Lookup a (s1 ++ String selectorSep s2) =
  match Lookup a s1 with
  | Ok (Some n) => Lookup_walk (splitPath s2) n
  | r => r
  end.
Proof.
  intros H1 H2.
  assert (E2 : splitPath s2 = Split s2 selectorSep)
    by (destruct s2; [congruence | reflexivity]).
  unfold Lookup. destruct (root a) eqn:Ra; try reflexivity.
  all: rewrite (splitPath_app s1 s2 H1), Lookup_walk_app, E2; reflexivity.
Qed.

Lemma Lookup_composes_witness :
  let a := @mkAST Toy.types
             (Dict [Key "outputs"
                      (Dict [Key "default" (Dict [Key "type" (StrVal "es" None) None] None)
                                 None] None) None] None) in
  Lookup a "outputs.default.type" = Ok (Some (Key "type" (StrVal "es" None) None)) /\
  Lookup a "outputs.other.type" = Ok None.
Proof.
  intros a. split.
  - exact (@Lookup_composes Toy.types Toy.ops a "outputs" "default.type"
             ltac:(discriminate) ltac:(discriminate)).
  - exact (@Lookup_composes Toy.types Toy.ops a "outputs" "other.type"
             ltac:(discriminate) ltac:(discriminate)).
Defined.

(** X6. [Find] on a List returns an element exactly for an index in range,
    written in decimal (a sign and leading zeros allowed): the element at
    that index. Anything else is not found; it never panics. *)
Theorem List_Find_bounds {ET : ExtTypes} {EO : ExtOps}
        (value : list Node) (p : Processors) (idx : string) :
  Find (List value p) idx =
  match Atoi idx with
  | Some z =>
      if ((0 <=? z) && (z <? Z.of_nat (length value)))%Z
      then match nth_error value (Z.to_nat z) with
           | Some n => Found (Z.to_nat z) n
           | None => NotFound
           end
      else NotFound
  | None => NotFound
  end /\
  Find (List value p) idx <> LookupPanic /\
  forall i n, Find (List value p) idx = Found i n ->
              (i < length value)%nat /\ nth_error value i = Some n.
Proof.
  assert (E : Find (List value p) idx =
              match Atoi idx with
              | Some z =>
                  if ((0 <=? z) && (z <? Z.of_nat (length value)))%Z
                  then match nth_error value (Z.to_nat z) with
                       | Some n => Found (Z.to_nat z) n
                       | None => NotFound
                       end
                  else NotFound
              | None => NotFound
              end).
  { simpl. unfold List_Find. destruct (Atoi idx) as [z | ]; [ | reflexivity].
    destruct ((z >? Z.of_nat (length value) - 1) || (z <? 0))%Z eqn:E1;
      destruct ((0 <=? z) && (z <? Z.of_nat (length value)))%Z eqn:E2; try reflexivity.
    - exfalso. apply andb_true_iff in E2. destruct E2 as [Ea Eb].
      apply Z.leb_le in Ea. apply Z.ltb_lt in Eb.
      apply orb_true_iff in E1. destruct E1 as [E1 | E1].
      + rewrite Z.gtb_ltb in E1. apply Z.ltb_lt in E1. lia.
      + apply Z.ltb_lt in E1. lia.
    - apply andb_true_iff in E2. destruct E2 as [Ea Eb].
      apply Z.leb_le in Ea. apply Z.ltb_lt in Eb.
      rewrite (nth_error_nth' value NilNode) by lia. reflexivity.
    - exfalso. apply orb_false_iff in E1. destruct E1 as [Ea Eb].
      rewrite Z.gtb_ltb in Ea. apply Z.ltb_ge in Ea, Eb.
      apply andb_false_iff in E2. destruct E2 as [E2 | E2].
      + apply Z.leb_gt in E2. lia.
      + apply Z.ltb_ge in E2. lia. }
  split; [exact E | ]. split.
  - rewrite E. destruct (Atoi idx) as [z | ]; [ | discriminate].
    destruct ((0 <=? z) && (z <? Z.of_nat (length value)))%Z; [ | discriminate].
    destruct (nth_error value (Z.to_nat z)); discriminate.
  - intros i n H. simpl in H. apply List_Find_Found in H.
    split; [ | exact H]. apply nth_error_Some. congruence.
Qed.

(** X7. [Find] on a Dict returns the first entry of that name: the entry
    found is a [Key] of the name asked, at the position returned, and no
    entry before it has that name. *)
Theorem Dict_Find_first {ET : ExtTypes} {EO : ExtOps}
        (value : list Node) (p : Processors) (key : string) (i : nat) (n : Node) :
  Find (Dict value p) key = Found i n ->
  nth_error value i = Some n /\
  isKey n = true /\ key_name n = key /\
  Forall (fun k => isKey k = true /\ key_name k <> key) (firstn i value).
Proof.
  simpl. revert i. induction value as [ | k tl IH]; intros i H; [discriminate H | ].
  destruct k; try discriminate H. cbn [Dict_Find] in H.
  destruct (String.eqb name key) eqn:E.
  - inversion H. subst. apply String.eqb_eq in E. simpl. repeat split; auto.
  - destruct (Dict_Find tl key) as [j m | | ]; try discriminate H.
    inversion H. subst. destruct (IH j eq_refl) as (H1 & H2 & H3 & H4).
    simpl. repeat split; auto. constructor; [ | exact H4].
    split; [reflexivity | ]. simpl. apply String.eqb_neq. exact E.
Qed.

Lemma Dict_Find_first_witness :
  let value := [Key "b" (IntVal 1 None) None; Key "a" (IntVal 2 None) None;
                @Key Toy.types "a" (IntVal 3 None) None] in
  Find (Dict value None) "a" = Found 1 (Key "a" (IntVal 2 None) None) /\
  Forall (fun k => isKey k = true /\ key_name k <> "a"%string) (firstn 1 value).
Proof.
  intros value.
  split; [reflexivity | ].
  exact (proj2 (proj2 (proj2 (@Dict_Find_first Toy.types Toy.ops value None "a" 1
                                (Key "a" (IntVal 2 None) None) eq_refl)))).
Defined.

(* ================================================================== *)
(** ** Insert below an existing node, and Lookup after Insert *)

(** A node that [Insert] stores boxed in a Mapping of its own: anything
    but a Mapping, a Sequence or a KeyedEntry. *)
Definition boxed {ET : ExtTypes} (x : Node) : bool :=
  match x with
  | Dict _ _ | List _ _ | Key _ _ _ => false
  | _ => true
  end.

Definition isCollection {ET : ExtTypes} (v : Node) : bool :=
  match v with
  | Dict _ _ | List _ _ => true
  | _ => false
  end.

Section InsertFacts.
Context {ET : ExtTypes} {EO : ExtOps}.

Lemma isNil_set_child current i n : isNil (set_child current i n) = isNil current.
Proof. destruct current as [ | | name v c | | | | | | ]; try reflexivity. destruct v; reflexivity. Qed.

Lemma isNil_Insert_assign to x d : isNil (fst (Insert_assign to x d)) = isNil d.
Proof.
  destruct d as [ | | name v c | | | | | | ]; try reflexivity.
  unfold Insert_assign.
  repeat match goal with
         | |- context [match ?y with _ => _ end] => destruct y
         end; reflexivity.
Qed.

Lemma isNil_Insert_walk to x parts current :
  isNil (fst (Insert_walk to x parts current)) = isNil current.
Proof.
  destruct parts as [ | part rest]; cbn [Insert_walk]; [apply isNil_Insert_assign | ].
  destruct (Find current part) as [i n | | ].
  - destruct (Insert_walk to x rest n). apply isNil_set_child.
  - destruct current as [ | value p | name v c | | | | | | ]; try reflexivity.
    + destruct (Insert_new_key (Insert_walk to x rest) part value). reflexivity.
    + destruct v; try reflexivity.
      * destruct (Insert_new_key (Insert_walk to x rest) part value). reflexivity.
      * destruct (Insert_walk to x rest (Dict [] None)). reflexivity.
  - reflexivity.
Qed.

(** [Insert] along a path that exists is [Insert] from the node at its
    end: the result is that of the rest of the walk, and [Lookup] along
    the path then finds the node as the rest of the walk left it. *)
Lemma Insert_walk_along to x p1 p2 :
  forall current d,
  Lookup_walk p1 current = Ok (Some d) ->
  exists current',
    Insert_walk to x (p1 ++ p2) current = (current', snd (Insert_walk to x p2 d)) /\
    Lookup_walk p1 current' = Ok (Some (fst (Insert_walk to x p2 d))).
Proof.
  induction p1 as [ | part rest IH]; intros current d HL.
  - simpl in HL. inversion HL. subst d. exists (fst (Insert_walk to x p2 current)).
    split; [simpl; destruct (Insert_walk to x p2 current); reflexivity | reflexivity].
  - cbn [Lookup_walk] in HL. cbn [app Insert_walk].
    destruct (Find current part) as [i m | | ] eqn:EF; try discriminate HL.
    destruct (IH m d HL) as (m' & Hm & Hl).
    exists (set_child current i m'). rewrite Hm. split; [reflexivity | ].
    cbn [Lookup_walk].
    rewrite (Find_set_child current part i m m' EF
               (Insert_walk_kind to x (rest ++ p2) m m' _ Hm)).
    exact Hl.
Qed.

(** After an [Insert] that grew no Sequence, [Lookup] along the same
    parts finds a node. *)
Lemma Insert_walk_found to x parts :
  forall current current',
  unique_names current = true ->
  grows_list parts current = false ->
  Insert_walk to x parts current = (current', Ok tt) ->
  exists tgt, Lookup_walk parts current' = Ok (Some tgt).
Proof.
  induction parts as [ | part rest IH]; intros current current' HU HG H.
  - exists current'. reflexivity.
  - cbn [Insert_walk grows_list Lookup_walk] in *.
    destruct (Find current part) as [i n | | ] eqn:EF.
    + destruct (Insert_walk to x rest n) as [n' r] eqn:En.
      inversion H. subst current' r.
      rewrite (Find_set_child current part i n n' EF
                 (Insert_walk_kind to x rest n n' _ En)).
      apply (IH n n'); [eapply unique_names_child; eauto | exact HG | exact En].
    + assert (HNK : forall value p,
                 Dict_Find value part = NotFound ->
                 unique_names (Dict value p) = true ->
                 forall value',
                 Insert_new_key (Insert_walk to x rest) part value = (value', Ok tt) ->
                 exists j newNode',
                   Dict_Find value' part = Found j newNode' /\
                   exists tgt, Lookup_walk rest newNode' = Ok (Some tgt)).
      { intros value p Hnf HUd value' Hv.
        apply unique_names_Dict in HUd. destruct HUd as (HK & HN & _).
        pose proof Hnf as Hnotin. apply Dict_Find_NotFound in Hnotin.
        destruct Hnotin as (_ & Hnotin).
        destruct (Insert_new_key_Ok _ _ _ _ HK HN Hnotin
                    (fun n n' r => Insert_walk_kind to x rest n n' r) Hv)
          as (j & newNode' & Hk & _ & _ & Hfind).
        exists j, newNode'. split; [exact Hfind | ].
        apply (IH (Key part (Dict [] None) None) newNode');
          [reflexivity | apply grows_list_fresh | exact Hk]. }
      destruct current as [ | value p | name v c | | | | | | ]; try discriminate H.
      * destruct (Insert_new_key (Insert_walk to x rest) part value) as [value' r] eqn:Ev.
        inversion H. subst current' r.
        destruct (HNK value p EF HU value' Ev) as (j & newNode' & Hf & Ht).
        cbn [Find]. rewrite Hf. exact Ht.
      * destruct v as [ | value p | | | | | | | ]; try discriminate H; try discriminate HG.
        destruct (Insert_new_key (Insert_walk to x rest) part value) as [value' r] eqn:Ev.
        inversion H. subst current' r.
        destruct (HNK value p EF HU value' Ev) as (j & newNode' & Hf & Ht).
        cbn [Find]. rewrite Hf. exact Ht.
    + discriminate H.
Qed.

(** What the assignment of [Insert] leaves in the entry it ends on. *)
Definition stored (x v : Node) : Prop :=
  match x with
  | Dict _ _ | List _ _ => v = x
  | Key _ _ _ => exists children p, v = Dict children p /\ In x children
  | _ => v = Dict [x] None
  end.

Lemma Insert_assign_stored to x d tgt :
  unique_names d = true ->
  Insert_assign to x d = (tgt, Ok tt) ->
  exists name v c, tgt = Key name v c /\ stored x v.
Proof.
  intros HU H. destruct d as [ | | name v c | | | | | | ]; try discriminate H.
  destruct (isKey x) eqn:Hx.
  - destruct v as [ | dValue p | | | | | | | ].
    2: { change (unique_names (Dict dValue p) = true) in HU.
         apply unique_names_Dict in HU. destruct HU as (HK & HN & _).
         rewrite (Insert_assign_Key_Dict to x name dValue p c Hx HK HN) in H.
         inversion H. subst tgt.
         destruct (inserted_spec x dValue Hx HK HN) as (_ & _ & Hin).
         exists name, (Dict (inserted x dValue) p), c. split; [reflexivity | ].
         destruct x as [ | | xname xv xc | | | | | | ]; try discriminate Hx.
         exists (inserted (Key xname xv xc) dValue), p.
         split; [reflexivity | ]. apply Hin. left. reflexivity. }
    all: destruct x as [ | | xname xv xc | | | | | | ]; try discriminate Hx.
    all: cbn [Insert_assign] in H; inversion H; subst tgt.
    all: eexists _, _, _; split; [reflexivity | ].
    all: exists [Key xname xv xc], None; split; [reflexivity | left; reflexivity].
  - destruct x; try discriminate Hx; cbn [Insert_assign] in H; inversion H; subst tgt;
      eexists _, _, _; (split; [reflexivity | ]); reflexivity.
Qed.

Lemma Insert_walk_stored to x parts current current' :
  unique_names current = true ->
  grows_list parts current = false ->
  Insert_walk to x parts current = (current', Ok tt) ->
  isNil current' = false /\
  exists name v c, Lookup_walk parts current' = Ok (Some (Key name v c)) /\ stored x v.
Proof.
  intros HU HG H. split.
  - pose proof (isNil_Insert_walk to x parts current) as E. rewrite H in E. simpl in E.
    rewrite E. destruct current; try reflexivity.
    destruct parts; discriminate H.
  - destruct (Insert_walk_found to x parts current current' HU HG H) as (tgt & Ht).
    destruct (Insert_walk_target to x parts current current' HU H tgt Ht)
      as (d & Hd & Ha & _).
    destruct (Insert_assign_stored to x d tgt Hd Ha) as (name & v & c & -> & Hs).
    exists name, v, c. split; assumption.
Qed.

(** From an entry holding an empty Mapping, [Insert] creates the path and
    succeeds, whatever the parts and the node. *)
Lemma Insert_walk_fresh to x rest :
  forall part, snd (Insert_walk to x rest (Key part (Dict [] None) None)) = Ok tt.
Proof.
  induction rest as [ | part' rest IH]; intros part.
  - cbn [Insert_walk]. destruct x; reflexivity.
  - cbn [Insert_walk Find Dict_Find]. unfold Insert_new_key.
    cbn [app Dict_sort length Nat.ltb Nat.leb].
    specialize (IH part').
    destruct (Insert_walk to x rest (Key part' (Dict [] None) None)) as [n' r].
    simpl in IH. subst r. cbn [Dict_Find]. rewrite String.eqb_refl. reflexivity.
Qed.

Lemma Find_Key_leaf name v c part :
  isCollection v = false -> Find (Key name v c) part = NotFound.
Proof. destruct v; try discriminate; reflexivity. Qed.
End InsertFacts.

(** X8. [Insert] below a node that [Lookup] finds is [Insert] from that
    node: the call returns what the walk over the rest of the selector
    returns from there, and [Lookup] at the same place then finds the node
    as that walk left it. *)
Theorem Insert_composes {ET : ExtTypes} {EO : ExtOps}
        (a : AST) (x d : Node) (s1 s2 : string) :
  s1 <> EmptyString ->
  Lookup a s1 = Ok (Some d) ->
  let to := (s1 ++ String selectorSep s2)%string in
  snd (Insert a x to) = snd (Insert_walk to x (Split s2 selectorSep) d) /\
  Lookup (fst (Insert a x to)) s1 =
    Ok (Some (fst (Insert_walk to x (Split s2 selectorSep) d))).
Proof.
  intros H1 HL to.
  assert (Hnil : isNil (root a) = false)
    by (unfold Lookup in HL; destruct (root a); try reflexivity; discriminate HL).
  rewrite (Lookup_not_nil a s1 Hnil) in HL.
  destruct (Insert_walk_along to x (splitPath s1) (Split s2 selectorSep) (root a) d HL)
    as (r' & Hi & Hl).
  assert (HI : Insert a x to =
               (mkAST r', snd (Insert_walk to x (Split s2 selectorSep) d))).
  { unfold Insert. unfold to at 2. rewrite (splitPath_app s1 s2 H1), Hi. reflexivity. }
  rewrite HI. simpl fst. simpl snd. split; [reflexivity | ].
  rewrite Lookup_not_nil; [exact Hl | ]. simpl root.
  pose proof (isNil_Insert_walk to x (splitPath s1 ++ Split s2 selectorSep) (root a)) as E.
  rewrite Hi in E. simpl in E. congruence.
Qed.

Lemma Insert_composes_witness :
  let a := @mkAST Toy.types
             (Dict [Key "agent" (Dict [Key "id" (StrVal "x" None) None] None) None] None) in
  let x := List [IntVal 1 None] None in
  snd (Insert a x "agent.logging.files") = Ok tt /\
  Lookup (fst (Insert a x "agent.logging.files")) "agent" =
    Ok (Some (Key "agent"
                (Dict [Key "id" (StrVal "x" None) None;
                       Key "logging" (Dict [Key "files" x None] None) None] None) None)).
Proof.
  intros a x.
  exact (@Insert_composes Toy.types Toy.ops a x
           (Key "agent" (Dict [Key "id" (StrVal "x" None) None] None) None)
           "agent" "logging.files" ltac:(discriminate) eq_refl).
Defined.

(** X9. Below an entry whose value is neither a Mapping nor a Sequence
    (a scalar, nothing, or an entry) [Insert] creates nothing: it returns
    the "expecting collection" error and leaves the tree as it was. *)
Theorem Insert_under_leaf_fails {ET : ExtTypes} {EO : ExtOps}
        (a : AST) (x : Node) (s1 s2 : string) (name : string) (v : Node)
        (c : option Expression) :
  s1 <> EmptyString ->
  Lookup a s1 = Ok (Some (Key name v c)) ->
  isCollection v = false ->
  Insert a x (s1 ++ String selectorSep s2) =
    (a, Err (ErrExpectingCollection (s1 ++ String selectorSep s2))).
Proof.
  intros H1 HL Hv.
  assert (Hnil : isNil (root a) = false)
    by (unfold Lookup in HL; destruct (root a); try reflexivity; discriminate HL).
  rewrite (Lookup_not_nil a s1 Hnil) in HL.
  unfold Insert. rewrite (splitPath_app s1 s2 H1).
  pose proof (Split_not_nil s2 selectorSep) as Hne.
  rewrite (Insert_walk_prefix _ x (splitPath s1) (Split s2 selectorSep)
             (Err (ErrExpectingCollection (s1 ++ String selectorSep s2)))
             (root a) (Key name v c) HL).
  - destruct a; reflexivity.
  - destruct (Split s2 selectorSep) as [ | part rest]; [congruence | ].
    cbn [Insert_walk]. rewrite (Find_Key_leaf name v c part Hv).
    destruct v; try discriminate Hv; reflexivity.
  - exact Hne.
Qed.

Lemma Insert_under_leaf_fails_witness :
  let a := @mkAST Toy.types
             (Dict [Key "agent" (Dict [Key "id" (StrVal "x" None) None] None) None] None) in
  Insert a (Dict [] None) "agent.id.sub" = (a, Err (ErrExpectingCollection "agent.id.sub")).
Proof.
  intros a.
  exact (@Insert_under_leaf_fails Toy.types Toy.ops a (Dict [] None) "agent.id" "sub"
           "id" (StrVal "x" None) None ltac:(discriminate) eq_refl eq_refl).
Defined.

(** X10. An element of a Sequence is no target for [Insert]. A selector
    that ends on an entry holding a Sequence, followed by one more part,
    returns the "expecting Key" error: with the tree as it was when the
    part is the index of an element that is no entry, and with an empty
    Mapping appended to the Sequence when the part is no index of it. *)
Theorem Insert_at_list_element {ET : ExtTypes} {EO : ExtOps}
        (a : AST) (x : Node) (s idx : string) (name : string)
        (value : list Node) (p : Processors) (c : option Expression) :
  s <> EmptyString ->
  has_dot idx = false ->
  Lookup a s = Ok (Some (Key name (List value p) c)) ->
  let to := (s ++ String selectorSep idx)%string in
  (forall i n, Find (List value p) idx = Found i n -> isKey n = false ->
               Insert a x to = (a, Err (ErrExpectingKey to))) /\
  (Find (List value p) idx = NotFound ->
   snd (Insert a x to) = Err (ErrExpectingKey to) /\
   Lookup (fst (Insert a x to)) s =
     Ok (Some (Key name (List (value ++ [Dict [] None]) p) c))).
Proof.
  intros H1 Hdot HL to.
  assert (Hnil : isNil (root a) = false)
    by (unfold Lookup in HL; destruct (root a); try reflexivity; discriminate HL).
  rewrite (Lookup_not_nil a s Hnil) in HL.
  assert (Hto : splitPath to = splitPath s ++ [idx])
    by (unfold to; rewrite (splitPath_app s idx H1), (Split_no_dot idx Hdot); reflexivity).
  split.
  - intros i n HF Hn. unfold Insert. rewrite Hto.
    rewrite (Insert_walk_prefix to x (splitPath s) [idx] (Err (ErrExpectingKey to))
               (root a) (Key name (List value p) c) HL).
    + destruct a; reflexivity.
    + cbn [Insert_walk Find] in *. rewrite HF.
      destruct n; try discriminate Hn; cbn [Insert_assign set_child];
        rewrite (set_nth_same i _ (List_Find_Found value idx HF)); reflexivity.
    + discriminate.
  - intros HF.
    destruct (Insert_walk_along to x (splitPath s) [idx] (root a) _ HL) as (r' & Hi & Hl).
    cbn [Insert_walk Find] in Hi, Hl. simpl in HF. rewrite HF in Hi, Hl.
    cbn [Insert_assign fst snd] in Hi, Hl.
    assert (HI : Insert a x to = (mkAST r', Err (ErrExpectingKey to)))
      by (unfold Insert; rewrite Hto, Hi; reflexivity).
    rewrite HI. simpl fst. simpl snd. split; [reflexivity | ].
    rewrite Lookup_not_nil; [exact Hl | ]. simpl root.
    pose proof (isNil_Insert_walk to x (splitPath s ++ [idx]) (root a)) as E.
    rewrite Hi in E. simpl in E. congruence.
Qed.

Lemma Insert_at_list_element_witness :
  let a := @mkAST Toy.types
             (Dict [Key "inputs" (List [Dict [] None] None) None] None) in
  Insert a (Dict [] None) "inputs.0" = (a, Err (ErrExpectingKey "inputs.0")) /\
  snd (Insert a (Dict [] None) "inputs.7") = Err (ErrExpectingKey "inputs.7") /\
  Lookup (fst (Insert a (Dict [] None) "inputs.7")) "inputs" =
    Ok (Some (Key "inputs" (List [Dict [] None; Dict [] None] None) None)).
Proof.
  intros a.
  destruct (@Insert_at_list_element Toy.types Toy.ops a (Dict [] None) "inputs" "0"
              "inputs" [Dict [] None] None None ltac:(discriminate) eq_refl eq_refl)
    as (H0 & _).
  destruct (@Insert_at_list_element Toy.types Toy.ops a (Dict [] None) "inputs" "7"
              "inputs" [Dict [] None] None None ltac:(discriminate) eq_refl eq_refl)
    as (_ & H7).
  split; [exact (H0 O (Dict [] None) eq_refl eq_refl) | exact (H7 eq_refl)].
Defined.

(** X11. [Lookup] after [Insert]. On a tree whose Mappings hold entries
    with pairwise distinct names, after an [Insert] that succeeded and grew
    no Sequence, [Lookup] at the same selector finds an entry. It holds the
    node itself when that is a Mapping or a Sequence, a Mapping with the
    node among its children when it is an entry, and otherwise a Mapping
    whose one child is the node. *)
Theorem Lookup_after_Insert {ET : ExtTypes} {EO : ExtOps}
        (a a' : AST) (x : Node) (to : string) :
  unique_names (root a) = true ->
  grows_list (splitPath to) (root a) = false ->
  Insert a x to = (a', Ok tt) ->
  exists name v c,
    Lookup a' to = Ok (Some (Key name v c)) /\
    match x with
    | Dict _ _ | List _ _ => v = x
    | Key _ _ _ => exists children p, v = Dict children p /\ In x children
    | _ => v = Dict [x] None
    end.
Proof.
  intros HU HG H. unfold Insert in H.
  destruct (Insert_walk to x (splitPath to) (root a)) as [r e] eqn:E.
  inversion H. subst a' e.
  destruct (Insert_walk_stored to x (splitPath to) (root a) r HU HG E)
    as (Hnil & name & v & c & Hl & Hs).
  exists name, v, c. split; [ | exact Hs].
  rewrite Lookup_not_nil; [exact Hl | exact Hnil].
Qed.

Lemma Lookup_after_Insert_witness :
  let a := @mkAST Toy.types (Dict [Key "outputs" (Dict [] None) None] None) in
  let x := List [StrVal "h" None] None in
  exists name c, Lookup (fst (Insert a x "outputs.default.hosts")) "outputs.default.hosts"
                 = Ok (Some (Key name x c)).
Proof.
  intros a x.
  destruct (@Lookup_after_Insert Toy.types Toy.ops a (fst (Insert a x "outputs.default.hosts"))
              x "outputs.default.hosts" eq_refl eq_refl eq_refl)
    as (name & v & c & Hl & Hv).
  exists name, c. rewrite Hl, Hv. reflexivity.
Defined.

(** X12. A scalar (or nil) given to [Insert] is stored as the one child of
    a Mapping, with no entry around it. On a tree whose Mappings hold
    entries with pairwise distinct names, after an [Insert] of such a node
    that succeeded and grew no Sequence, any [Lookup] below the selector
    panics, on the type assertion of [Dict.Find]. *)
Theorem Lookup_below_boxed_panics {ET : ExtTypes} {EO : ExtOps}
        (a a' : AST) (x : Node) (to s2 : string) :
  unique_names (root a) = true ->
  grows_list (splitPath to) (root a) = false ->
  Insert a x to = (a', Ok tt) ->
  boxed x = true ->
  to <> EmptyString ->
  Lookup a' (to ++ String selectorSep s2) = Panic.
Proof.
  intros HU HG H Hx Hto. unfold Insert in H.
  destruct (Insert_walk to x (splitPath to) (root a)) as [r e] eqn:E.
  inversion H. subst a' e.
  destruct (Insert_walk_stored to x (splitPath to) (root a) r HU HG E)
    as (Hnil & name & v & c & Hl & Hs).
  rewrite Lookup_not_nil by exact Hnil. simpl root.
  rewrite (splitPath_app to s2 Hto), Lookup_walk_app, Hl.
  pose proof (Split_not_nil s2 selectorSep) as Hne.
  destruct (Split s2 selectorSep) as [ | part rest]; [congruence | ].
  destruct x; try discriminate Hx; simpl in Hs; subst v; reflexivity.
Qed.

Lemma Lookup_below_boxed_panics_witness :
  let a := @mkAST Toy.types (Dict [Key "agent" (Dict [] None) None] None) in
  Lookup (fst (Insert a (BoolVal true None) "agent.monitoring")) "agent.monitoring.enabled"
  = Panic.
Proof.
  intros a.
  exact (@Lookup_below_boxed_panics Toy.types Toy.ops a
           (fst (Insert a (BoolVal true None) "agent.monitoring"))
           (BoolVal true None) "agent.monitoring" "enabled"
           eq_refl eq_refl eq_refl eq_refl ltac:(discriminate)).
Defined.

(** X13. [Insert] creates the path it does not find: under a root Mapping
    of entries with distinct names that has no entry for the first part of
    the selector, [Insert] succeeds whatever the rest of the selector and
    the node, and [Lookup] at the selector then finds an entry, holding
    the node as [Insert] stores it. *)
Theorem Insert_creates_path {ET : ExtTypes} {EO : ExtOps}
        (a : AST) (x : Node) (to part : string) (rest : list string)
        (value : list Node) (p : Processors) :
  root a = Dict value p ->
  unique_names (root a) = true ->
  splitPath to = part :: rest ->
  Find (root a) part = NotFound ->
  snd (Insert a x to) = Ok tt /\
  exists name v c,
    Lookup (fst (Insert a x to)) to = Ok (Some (Key name v c)) /\
    match x with
    | Dict _ _ | List _ _ => v = x
    | Key _ _ _ => exists children q, v = Dict children q /\ In x children
    | _ => v = Dict [x] None
    end.
Proof.
  intros Hr HU Hp HF.
  assert (Hs : snd (Insert_walk to x (splitPath to) (root a)) = Ok tt).
  { rewrite Hp. cbn [Insert_walk]. rewrite HF, Hr.
    unfold Insert_new_key. rewrite Hr in HU.
    apply unique_names_Dict in HU. destruct HU as (HK & _ & _).
    rewrite Dict_sort_Keys
      by (apply Forall_app; split; [exact HK | repeat constructor]).
    pose proof (Insert_walk_fresh to x rest part) as Hf.
    destruct (Insert_walk to x rest (Key part (Dict [] None) None)) as [n' r].
    simpl in Hf. subst r.
    destruct (Dict_Find _ part); reflexivity. }
  assert (HG : grows_list (splitPath to) (root a) = false).
  { rewrite Hp. cbn [grows_list]. rewrite HF, Hr. reflexivity. }
  unfold Insert.
  destruct (Insert_walk to x (splitPath to) (root a)) as [r e] eqn:E.
  simpl in Hs. subst e. simpl fst. simpl snd. split; [reflexivity | ].
  destruct (Insert_walk_stored to x (splitPath to) (root a) r HU HG E)
    as (Hnil & name & v & c & Hl & Hst).
  exists name, v, c. split; [ | exact Hst].
  rewrite Lookup_not_nil; [exact Hl | exact Hnil].
Qed.

Lemma Insert_creates_path_witness :
  let a := @mkAST Toy.types (Dict [Key "outputs" (Dict [] None) None] None) in
  let x := Key "enabled" (BoolVal true None) None in
  snd (Insert a x "agent.monitoring") = Ok tt /\
  fst (Insert a x "agent.monitoring") =
    mkAST (Dict [Key "agent"
                   (Dict [Key "monitoring" (Dict [x] None) None] None) None;
                 Key "outputs" (Dict [] None) None] None).
Proof.
  intros a x. split; [ | reflexivity].
  exact (proj1 (@Insert_creates_path Toy.types Toy.ops a x "agent.monitoring" "agent"
                  ["monitoring"%string] [Key "outputs" (Dict [] None) None] None
                  eq_refl eq_refl eq_refl eq_refl)).
Defined.

(* ================================================================== *)
(** ** Apply: what it returns, and what its memo changes *)

(** Whether the names [xs] occur among [ys] in that order. *)
Fixpoint subseq (xs ys : list string) : bool :=
  match xs, ys with
  | [], _ => true
  | _ :: _, [] => false
  | x :: xs', y :: ys' =>
      if String.eqb x y then subseq xs' ys' else subseq xs ys'
  end.

Lemma subseq_tail x xs ys : subseq (x :: xs) ys = true -> subseq xs ys = true.
Proof.
  revert x xs. induction ys as [ | y ys IH]; intros x xs H; [discriminate H | ].
  cbn [subseq] in H. destruct xs as [ | x' xs']; [reflexivity | ].
  cbn [subseq]. destruct (String.eqb x y).
  - destruct (String.eqb x' y); [eapply IH; exact H | exact H].
  - destruct (String.eqb x' y); [eapply IH, IH; exact H | eapply IH; exact H].
Qed.

Lemma subseq_skip xs y ys : subseq xs ys = true -> subseq xs (y :: ys) = true.
Proof.
  intros H. destruct xs as [ | x xs']; [reflexivity | ].
  cbn [subseq]. destruct (String.eqb x y); [eapply subseq_tail; exact H | exact H].
Qed.

Lemma subseq_length xs : forall ys, subseq xs ys = true -> (length xs <= length ys)%nat.
Proof.
  induction xs as [ | x xs IH]; intros ys H; [simpl; lia | ].
  induction ys as [ | y ys IHy]; [discriminate H | ].
  cbn [subseq] in H. destruct (String.eqb x y).
  - apply IH in H. simpl. lia.
  - apply IHy in H. simpl in *. lia.
Qed.

Definition not_nil {ET : ExtTypes} (n : Node) : bool := negb (isNil n).

Section ApplyShape.
Context {ET : ExtTypes} {EO : ExtOps}.

(** The loop of [List.Apply] is a map, stopped by the first error, and a
    filter. *)
Lemma List_Apply_loop_mapM (f : Node -> Node * res Node) value :
  forall nodes,
  snd (List_Apply_loop f value nodes) =
  match mapM (fun v => snd (f v)) value with
  | Ok rs => Ok (List (nodes ++ filter not_nil rs) None)
  | Err e => Err e
  | Panic => Panic
  end.
Proof.
  induction value as [ | v tl IH]; intros nodes.
  - simpl. rewrite app_nil_r. reflexivity.
  - cbn [List_Apply_loop mapM]. destruct (f v) as [v' r]. cbn [snd].
    destruct r as [n | e | ]; try reflexivity.
    destruct n.
    1: { specialize (IH nodes). destruct (List_Apply_loop f tl nodes) as [tl' r'].
         simpl in IH. simpl. rewrite IH.
         destruct (mapM (fun v0 => snd (f v0)) tl); reflexivity. }
    all: match goal with
         | |- context [List_Apply_loop _ _ ?a] =>
             specialize (IH a); destruct (List_Apply_loop f tl a) as [tl' r']
         end.
    all: simpl in IH; simpl; rewrite IH.
    all: destruct (mapM (fun v0 => snd (f v0)) tl); try reflexivity.
    all: cbn [filter not_nil isNil negb]; rewrite <- app_assoc; reflexivity.
Qed.

Lemma Apply_Key_not_nil vars name v c n :
  snd (Apply vars (Key name v c)) = Ok n -> isNil n = false ->
  isKey n = true /\ key_name n = name.
Proof.
  intros H Hn. destruct (Apply_Key_result _ _ _ _ H) as [Hnil | Hk]; [congruence | exact Hk].
Qed.

(** What the loop of [Dict.Apply] returns when it returns: nil, after an
    entry named [condition], or the Mapping of the nodes collected. *)
Lemma Dict_Apply_loop_shape vars value :
  forall nodes r,
  snd (Dict_Apply_loop (Apply vars) value nodes) = Ok r ->
  (r = NilNode /\ In conditionKey (map key_name value)) \/
  exists added,
    r = Dict (nodes ++ added) None /\
    Forall (fun n => isKey n = true /\ key_name n <> conditionKey) added /\
    subseq (map key_name added) (map key_name value) = true.
Proof.
  induction value as [ | k tl IH]; intros nodes r H.
  - simpl in H. inversion H. right. exists []. rewrite app_nil_r.
    split; [reflexivity | split; [constructor | reflexivity]].
  - destruct k as [ | | name v c | | | | | | ]; try discriminate H.
    cbn [Dict_Apply_loop] in H.
    destruct (Apply vars (Key name v c)) as [k' r0] eqn:Ek.
    assert (Hr0 : snd (Apply vars (Key name v c)) = r0) by (rewrite Ek; reflexivity).
    destruct r0 as [n | e | ]; try discriminate H.
    assert (Hskip : snd (Dict_Apply_loop (Apply vars) tl nodes) = Ok r ->
                    (r = NilNode /\ In conditionKey (map key_name (Key name v c :: tl))) \/
                    exists added,
                      r = Dict (nodes ++ added) None /\
                      Forall (fun n => isKey n = true /\ key_name n <> conditionKey) added /\
                      subseq (map key_name added) (map key_name (Key name v c :: tl)) = true).
    { intros H'. destruct (IH nodes r H') as [(-> & Hin) | (added & -> & HF & HS)].
      - left. split; [reflexivity | right; exact Hin].
      - right. exists added. split; [reflexivity | split; [exact HF | ]].
        apply subseq_skip. exact HS. }
    destruct (isNil n) eqn:Hnil.
    { destruct n; try discriminate Hnil.
      destruct (Dict_Apply_loop (Apply vars) tl nodes) as [tl' r'] eqn:El.
      simpl in H. apply Hskip. exact H. }
    destruct (Apply_Key_not_nil vars name v c n Hr0 Hnil) as (Hk & Hname).
    destruct n as [ | | nname nv nc | | | | | | ]; try discriminate Hk.
    simpl in Hname. subst nname.
    destruct (String.eqb name conditionKey) eqn:En.
    + apply String.eqb_eq in En. subst name.
      destruct nv; try discriminate H. destruct value.
      * destruct (Dict_Apply_loop (Apply vars) tl nodes) as [tl' r'] eqn:El.
        simpl in H. apply Hskip. exact H.
      * simpl in H. inversion H. left. split; [reflexivity | left; reflexivity].
    + apply String.eqb_neq in En.
      destruct (Dict_Apply_loop (Apply vars) tl (nodes ++ [Key name nv nc]))
        as [tl' r'] eqn:El.
      simpl in H. subst r'.
      pose proof (IH (nodes ++ [Key name nv nc]) r) as IH'. rewrite El in IH'.
      destruct (IH' eq_refl) as [(-> & Hin) | (added & -> & HF & HS)].
      * left. split; [reflexivity | right; exact Hin].
      * right. exists (Key name nv nc :: added). rewrite <- app_assoc.
        split; [reflexivity | split].
        -- constructor; [split; [reflexivity | exact En] | exact HF].
        -- cbn [map key_name subseq]. rewrite String.eqb_refl. exact HS.
Qed.
End ApplyShape.

(** X14. [List.Apply] applies the elements in order and stops at the
    first that fails, returning its error (or panicking with it); when all
    return, it returns a new Sequence, without processors, of the results
    that are not nil, in order. It never returns nil. *)
Theorem List_Apply_maps {ET : ExtTypes} {EO : ExtOps}
        (vars : Vars) (value : list Node) (p : Processors) :
  snd (Apply vars (List value p)) =
  match mapM (fun v => snd (Apply vars v)) value with
  | Ok rs => Ok (List (filter not_nil rs) None)
  | Err e => Err e
  | Panic => Panic
  end /\
  snd (Apply vars (List value p)) <> Ok NilNode.
Proof.
  assert (E : snd (Apply vars (List value p)) =
              match mapM (fun v => snd (Apply vars v)) value with
              | Ok rs => Ok (List (filter not_nil rs) None)
              | Err e => Err e
              | Panic => Panic
              end).
  { cbn [Apply]. pose proof (List_Apply_loop_mapM (Apply vars) value []) as H.
    destruct (List_Apply_loop (Apply vars) value []) as [value' r]. exact H. }
  split; [exact E | ]. rewrite E.
  destruct (mapM (fun v => snd (Apply vars v)) value); discriminate.
Qed.

(** X15. What [Dict.Apply] returns when it returns. It is nil only if
    the Mapping has an entry named [condition]. Otherwise it is a new
    Mapping without processors: its children are entries, none is named
    [condition], and their names are names of the receiver's entries, in
    the receiver's order. *)
Theorem Dict_Apply_shape {ET : ExtTypes} {EO : ExtOps}
        (vars : Vars) (value : list Node) (p : Processors) (r : Node) :
  snd (Apply vars (Dict value p)) = Ok r ->
  (r = NilNode /\ In conditionKey (map key_name value)) \/
  exists nodes,
    r = Dict nodes None /\
    Forall (fun n => isKey n = true /\ key_name n <> conditionKey) nodes /\
    subseq (map key_name nodes) (map key_name value) = true /\
    (length nodes <= length value)%nat.
Proof.
  intros H. cbn [Apply] in H.
  pose proof (Dict_Apply_loop_shape vars value [] r) as HS.
  destruct (Dict_Apply_loop (Apply vars) value []) as [value' r'].
  simpl in H, HS. destruct (HS H) as [Hl | (added & -> & HF & Hsub)]; [left; exact Hl | ].
  right. exists added. split; [reflexivity | split; [exact HF | split; [exact Hsub | ]]].
  apply subseq_length in Hsub. rewrite !length_map in Hsub. exact Hsub.
Qed.

Lemma Dict_Apply_shape_witness :
  let value := [Key "a" (IntVal 1 None) None;
                Key "condition" (StrVal "true" None) None;
                Key "b" (Dict [Key "condition" (BoolVal false None) None] None) None;
                @Key Toy.types "c" (StrVal "s" None) None] in
  let r := Dict [Key "a" (IntVal 1 None) None; Key "c" (StrVal "s" None) None] None in
  snd (Apply (tt : @Vars Toy.types) (Dict value None)) = Ok r /\
  ((r = NilNode /\ In conditionKey (map key_name value)) \/
   exists nodes,
     r = Dict nodes None /\
     Forall (fun n => isKey n = true /\ key_name n <> conditionKey) nodes /\
     subseq (map key_name nodes) (map key_name value) = true /\
     (length nodes <= length value)%nat).
Proof.
  intros value r. split; [reflexivity | ].
  exact (@Dict_Apply_shape Toy.types Toy.ops tt value None r eq_refl).
Defined.

(** X16. An entry named [condition] that holds nothing makes [Dict.Apply]
    panic once the loop reaches it: [Key.Apply] returns the entry itself,
    and the assertion of its value to a boolean fails on nil. *)
Theorem condition_without_value_panics {ET : ExtTypes} {EO : ExtOps}
        (vars : Vars) (pre post : list Node) (c : option Expression) (p : Processors) :
  Forall (entry_ok (Apply vars)) pre ->
  snd (Apply vars (Dict (pre ++ Key conditionKey NilNode c :: post) p)) = Panic.
Proof.
  intros Hpre. cbn [Apply].
  pose proof (@Dict_Apply_loop_entries _ (Apply vars) pre
                (Key conditionKey NilNode c :: post) Hpre []) as H.
  destruct (Dict_Apply_loop (Apply vars) (pre ++ Key conditionKey NilNode c :: post) [])
    as [value' r].
  simpl in H. simpl. rewrite H. reflexivity.
Qed.

Lemma condition_without_value_panics_witness :
  snd (Apply (tt : @Vars Toy.types)
         (Dict ([Key "a" (IntVal 1 None) None] ++
                Key conditionKey NilNode None :: [Key "z" (IntVal 2 None) None]) None))
  = Panic.
Proof.
  apply (@condition_without_value_panics Toy.types Toy.ops tt).
  repeat constructor; [discriminate | eexists; reflexivity].
Defined.

(* ================================================================== *)
(** ** Apply after Apply *)

(** Two nodes of the same kind as far as the loops of [Apply] look: both
    nil or neither, both entries or neither, of the same name. *)
Definition same_head {ET : ExtTypes} (v v' : Node) : Prop :=
  isNil v' = isNil v /\ isKey v' = isKey v /\ key_name v' = key_name v.

Section ApplyTwice.
Context {ET : ExtTypes} {EO : ExtOps}.

Lemma same_head_refl v : same_head v v.
Proof. repeat split. Qed.

Lemma Apply_same_head vars n : same_head n (fst (Apply vars n)).
Proof.
  destruct n as [ | value p | name v c | value p | | | | | ]; try apply same_head_refl.
  - cbn [Apply]. destruct (Dict_Apply_loop (Apply vars) value []). repeat split.
  - destruct v; simpl; try apply same_head_refl.
    all: destruct (String.eqb name conditionKey); try apply same_head_refl.
    all: unfold Key_Apply_eval.
    all: repeat match goal with
                | |- context [let '(_, _) := ?x in _] => destruct x; simpl
                | |- context [match ?x with _ => _ end] => destruct x; simpl
                end.
    all: repeat split.
  - cbn [Apply]. destruct (List_Apply_loop (Apply vars) value []). repeat split.
Qed.

Lemma Apply_Key_fst vars name v c :
  isNil v = false -> name <> conditionKey ->
  fst (Apply vars (Key name v c)) = Key name (fst (Apply vars v)) c.
Proof.
  intros Hnil Hname. apply String.eqb_neq in Hname.
  destruct v; try discriminate Hnil; simpl; rewrite Hname.
  all: repeat match goal with
              | |- context [let '(_, _) := ?x in _] => destruct x; simpl
              end.
  all: reflexivity.
Qed.

Section Loops.
Variable f : Node -> Node * res Node.

(** What the loop of [Dict.Apply] returns depends on the children only
    through their kind, their name and what [f] returns on each. *)
Lemma Dict_Apply_loop_snd_congr value value' :
  Forall2 (fun v v' => same_head v v' /\ snd (f v') = snd (f v)) value value' ->
  forall nodes,
  snd (Dict_Apply_loop f value' nodes) = snd (Dict_Apply_loop f value nodes).
Proof.
  induction 1 as [ | v v' tl tl' ((Hn & Hk & Hname) & Hs) _ IH]; intros nodes;
    [reflexivity | ].
  destruct v as [ | | name x c | | | | | | ];
    destruct v' as [ | | name' x' c' | | | | | | ];
    try discriminate Hk; try reflexivity.
  simpl in Hname. subst name'. cbn [Dict_Apply_loop].
  destruct (f (Key name x c)) as [k r]. destruct (f (Key name x' c')) as [k' r'].
  simpl in Hs. subst r'.
  destruct r as [n | e | ]; try reflexivity.
  destruct n; try (destruct (String.eqb name conditionKey)); try reflexivity.
  all: repeat match goal with
              | |- context [match ?y with _ => _ end] =>
                  match y with
                  | Dict_Apply_loop _ _ _ => fail 1
                  | _ => destruct y; try reflexivity
                  end
              end.
  all: match goal with
       | |- context [Dict_Apply_loop _ _ ?a] =>
           specialize (IH a);
           destruct (Dict_Apply_loop f tl a); destruct (Dict_Apply_loop f tl' a)
       end.
  all: exact IH.
Qed.

Lemma mapM_snd_congr value value' :
  Forall2 (fun v v' => snd (f v') = snd (f v)) value value' ->
  mapM (fun v => snd (f v)) value' = mapM (fun v => snd (f v)) value.
Proof.
  induction 1 as [ | v v' tl tl' Hs _ IH]; [reflexivity | ].
  cbn [mapM]. rewrite Hs, IH. reflexivity.
Qed.

(** A second run of the loop of [Dict.Apply] over the children as the
    first left them leaves them as they are, when [f] does so on each. *)
Lemma Dict_Apply_loop_fst_idem value :
  Forall (fun v => same_head v (fst (f v)) /\
                   f (fst (f v)) = (fst (f v), snd (f v))) value ->
  forall nodes nodes',
  fst (Dict_Apply_loop f (fst (Dict_Apply_loop f value nodes)) nodes') =
  fst (Dict_Apply_loop f value nodes).
Proof.
  induction 1 as [ | v tl ((Hn & Hk & Hname) & Hf) _ IH]; intros nodes nodes';
    [reflexivity | ].
  destruct v as [ | | name x c | | | | | | ]; try reflexivity.
  cbn [Dict_Apply_loop].
  destruct (f (Key name x c)) as [k r] eqn:Ek. simpl in Hn, Hk, Hname, Hf.
  destruct k as [ | | kname kx kc | | | | | | ]; try discriminate Hk.
  simpl in Hname. subst kname.
  assert (Stop : forall r0 : res Node, fst (Dict_Apply_loop f (Key name kx kc :: tl) nodes') =
                            Key name kx kc :: tl ->
                 fst (Dict_Apply_loop f (fst (Key name kx kc :: tl, r0)) nodes') =
                 fst (Key name kx kc :: tl, r0)) by (intros r0 E; exact E).
  assert (Go : forall a a',
             (forall X, fst (Dict_Apply_loop f (Key name kx kc :: X) nodes') =
                        Key name kx kc :: fst (Dict_Apply_loop f X a')) ->
             fst (Dict_Apply_loop f
                    (fst (let '(tl', r') := Dict_Apply_loop f tl a in
                          (Key name kx kc :: tl', r'))) nodes') =
             fst (let '(tl', r') := Dict_Apply_loop f tl a in
                  (Key name kx kc :: tl', r'))).
  { intros a a' E. specialize (IH a a').
    destruct (Dict_Apply_loop f tl a) as [tl1 r1]. cbn [fst] in IH |- *.
    rewrite E, IH. reflexivity. }
  destruct r as [n | e | ].
  - destruct n as [ | | nname nv nc | | | | | | ].
    1: { apply (Go nodes nodes'). intros X. cbn [Dict_Apply_loop]. rewrite Hf.
         destruct (Dict_Apply_loop f X nodes'). reflexivity. }
    all: destruct (String.eqb name conditionKey) eqn:En.
    all: try (apply Stop; cbn [Dict_Apply_loop]; rewrite Hf, En; reflexivity).
    all: try (eapply Go; intros X; cbn [Dict_Apply_loop]; rewrite Hf, En;
              match goal with
              | |- context [Dict_Apply_loop _ _ ?b] =>
                  instantiate (1 := b); destruct (Dict_Apply_loop f X b); reflexivity
              end).
    destruct nv; try (apply Stop; cbn [Dict_Apply_loop]; rewrite Hf, En; reflexivity).
    destruct value.
    + apply (Go nodes nodes'). intros X. cbn [Dict_Apply_loop]. rewrite Hf, En.
      destruct (Dict_Apply_loop f X nodes'). reflexivity.
    + apply Stop. cbn [Dict_Apply_loop]. rewrite Hf, En. reflexivity.
  - apply Stop. cbn [Dict_Apply_loop]. rewrite Hf. reflexivity.
  - apply Stop. cbn [Dict_Apply_loop]. rewrite Hf. reflexivity.
Qed.

Lemma List_Apply_loop_fst_idem value :
  Forall (fun v => f (fst (f v)) = (fst (f v), snd (f v))) value ->
  forall nodes nodes',
  fst (List_Apply_loop f (fst (List_Apply_loop f value nodes)) nodes') =
  fst (List_Apply_loop f value nodes).
Proof.
  induction 1 as [ | v tl Hf _ IH]; intros nodes nodes'; [reflexivity | ].
  cbn [List_Apply_loop].
  destruct (f v) as [k r] eqn:Ek. simpl in Hf.
  assert (Go : forall a a',
             (forall X, fst (List_Apply_loop f (k :: X) nodes') =
                        k :: fst (List_Apply_loop f X a')) ->
             fst (List_Apply_loop f
                    (fst (let '(tl', r') := List_Apply_loop f tl a in (k :: tl', r')))
                    nodes') =
             fst (let '(tl', r') := List_Apply_loop f tl a in (k :: tl', r'))).
  { intros a a' E. specialize (IH a a').
    destruct (List_Apply_loop f tl a) as [tl1 r1]. cbn [fst] in IH |- *.
    rewrite E, IH. reflexivity. }
  destruct r as [n | e | ].
  - destruct n.
    1: { apply (Go nodes nodes'). intros X. cbn [List_Apply_loop]. rewrite Hf.
         destruct (List_Apply_loop f X nodes'). reflexivity. }
    all: eapply Go; intros X; cbn [List_Apply_loop]; rewrite Hf;
      match goal with
      | |- context [List_Apply_loop _ _ ?b] =>
          instantiate (1 := b); destruct (List_Apply_loop f X b); reflexivity
      end.
  - simpl. cbn [List_Apply_loop]. rewrite Hf. reflexivity.
  - simpl. cbn [List_Apply_loop]. rewrite Hf. reflexivity.
Qed.
End Loops.

Lemma Forall2_Forall_impl (A : Type) (P : A -> Prop) (R R' : A -> A -> Prop) l l' :
  Forall P l -> Forall2 R l l' ->
  (forall v v', P v -> R v v' -> R' v v') ->
  Forall2 R' l l'.
Proof.
  intros HP HR Himp. revert HP.
  induction HR as [ | v v' tl tl' Hv _ IH]; intros HP; [constructor | ].
  inversion HP; subst. constructor; auto.
Qed.

(** What an [Apply] returns is not changed by the memo an earlier
    [Apply], with any variables, left in the tree. *)
Lemma Apply_after_Apply vars1 vars2 n :
  snd (Apply vars2 (fst (Apply vars1 n))) = snd (Apply vars2 n).
Proof.
  node_induction n; try reflexivity.
  - assert (HF : Forall2 (fun v v' => same_head v v' /\
                                      snd (Apply vars2 v') = snd (Apply vars2 v))
                         value (fst (Dict_Apply_loop (Apply vars1) value []))).
    { apply (@Dict_Apply_loop_frame _ (Apply vars1)
               (fun v v' => same_head v v' /\ snd (Apply vars2 v') = snd (Apply vars2 v))).
      - intros v. split; [apply same_head_refl | reflexivity].
      - eapply Forall_impl; [ | exact IHvalue].
        intros v Hv. split; [apply Apply_same_head | exact Hv]. }
    cbn [Apply]. destruct (Dict_Apply_loop (Apply vars1) value []) as [value' r].
    simpl in HF. cbn [fst Apply].
    pose proof (Dict_Apply_loop_snd_congr (Apply vars2) value value' HF []) as H.
    destruct (Dict_Apply_loop (Apply vars2) value' []),
             (Dict_Apply_loop (Apply vars2) value []). exact H.
  - destruct (isNil v) eqn:Hnil; [destruct v; try discriminate Hnil; reflexivity | ].
    destruct (String.eqb name conditionKey) eqn:En.
    + apply String.eqb_eq in En. subst name.
      destruct v; try discriminate Hnil; try reflexivity.
      cbn [Apply]. rewrite String.eqb_refl. unfold Key_Apply_eval.
      destruct c as [ex | ].
      * destruct (eql_Eval ex vars1); simpl; rewrite ?String.eqb_refl; reflexivity.
      * destruct (eql_New value) as [ex | e] eqn:Ec.
        -- destruct (eql_Eval ex vars1); simpl; rewrite ?String.eqb_refl, ?Ec; reflexivity.
        -- simpl. rewrite ?String.eqb_refl, ?Ec. reflexivity.
    + apply String.eqb_neq in En.
      rewrite (Apply_Key_fst vars1 name v c Hnil En).
      destruct (Apply_same_head vars1 v) as (Hn' & _).
      rewrite (@Apply_Key_general _ _ vars2 name (fst (Apply vars1 v)) c)
        by (congruence || assumption).
      rewrite (@Apply_Key_general _ _ vars2 name v c) by assumption.
      rewrite IHv. reflexivity.
  - assert (HF : Forall2 (fun v v' => snd (Apply vars2 v') = snd (Apply vars2 v))
                         value (fst (List_Apply_loop (Apply vars1) value []))).
    { apply (@List_Apply_loop_frame _ (Apply vars1)
               (fun v v' => snd (Apply vars2 v') = snd (Apply vars2 v))).
      - intros v. reflexivity.
      - exact IHvalue. }
    cbn [Apply]. destruct (List_Apply_loop (Apply vars1) value []) as [value' r].
    simpl in HF. cbn [fst Apply].
    pose proof (List_Apply_loop_mapM (Apply vars2) value' []) as H1.
    pose proof (List_Apply_loop_mapM (Apply vars2) value []) as H2.
    rewrite (mapM_snd_congr (Apply vars2) value value' HF) in H1.
    destruct (List_Apply_loop (Apply vars2) value' []),
             (List_Apply_loop (Apply vars2) value []).
    simpl in *. congruence.
Qed.

(** A second [Apply] with the same variables writes nothing. *)
Lemma Apply_fst_idem vars n :
  fst (Apply vars (fst (Apply vars n))) = fst (Apply vars n).
Proof.
  node_induction n; try reflexivity.
  - assert (HF : Forall (fun v => same_head v (fst (Apply vars v)) /\
                                  Apply vars (fst (Apply vars v)) =
                                  (fst (Apply vars v), snd (Apply vars v))) value).
    { eapply Forall_impl; [ | exact IHvalue]. intros v Hv.
      split; [apply Apply_same_head | ].
      rewrite (surjective_pairing (Apply vars (fst (Apply vars v)))).
      rewrite Hv, Apply_after_Apply. reflexivity. }
    pose proof (Dict_Apply_loop_fst_idem (Apply vars) value HF [] []) as H.
    cbn [Apply]. destruct (Dict_Apply_loop (Apply vars) value []) as [value' r].
    simpl in H. cbn [fst Apply].
    destruct (Dict_Apply_loop (Apply vars) value' []). simpl in *. congruence.
  - destruct (isNil v) eqn:Hnil; [destruct v; try discriminate Hnil; reflexivity | ].
    destruct (String.eqb name conditionKey) eqn:En.
    + apply String.eqb_eq in En. subst name.
      destruct v; try discriminate Hnil; try reflexivity.
      cbn [Apply]. rewrite String.eqb_refl. unfold Key_Apply_eval.
      destruct c as [ex | ].
      * destruct (eql_Eval ex vars) eqn:Ee; simpl; rewrite ?String.eqb_refl;
          unfold Key_Apply_eval; rewrite ?Ee; reflexivity.
      * destruct (eql_New value) as [ex | e] eqn:Ec.
        -- destruct (eql_Eval ex vars) eqn:Ee; simpl; rewrite ?String.eqb_refl;
             unfold Key_Apply_eval; rewrite ?Ee; reflexivity.
        -- simpl. rewrite ?String.eqb_refl, ?Ec. reflexivity.
    + apply String.eqb_neq in En.
      rewrite (Apply_Key_fst vars name v c Hnil En).
      destruct (Apply_same_head vars v) as (Hn' & _).
      rewrite (Apply_Key_fst vars name (fst (Apply vars v)) c) by (congruence || assumption).
      rewrite IHv. reflexivity.
  - assert (HF : Forall (fun v => Apply vars (fst (Apply vars v)) =
                                  (fst (Apply vars v), snd (Apply vars v))) value).
    { eapply Forall_impl; [ | exact IHvalue]. intros v Hv.
      rewrite (surjective_pairing (Apply vars (fst (Apply vars v)))).
      rewrite Hv, Apply_after_Apply. reflexivity. }
    pose proof (List_Apply_loop_fst_idem (Apply vars) value HF [] []) as H.
    cbn [Apply]. destruct (List_Apply_loop (Apply vars) value []) as [value' r].
    simpl in H. cbn [fst Apply].
    destruct (List_Apply_loop (Apply vars) value' []). simpl in *. congruence.
Qed.
End ApplyTwice.

(** X17. The memo is transparent. What an [Apply] returns is what it
    would have returned had no [Apply], with whatever variables, run on the
    tree before; and a second [Apply] with the same variables returns the
    same and writes nothing more to the receiver. *)
Theorem Apply_memo_transparent {ET : ExtTypes} {EO : ExtOps}
        (vars1 vars2 : Vars) (n : Node) :
  snd (Apply vars2 (fst (Apply vars1 n))) = snd (Apply vars2 n) /\
  Apply vars1 (fst (Apply vars1 n)) = (fst (Apply vars1 n), snd (Apply vars1 n)).
Proof.
  split; [apply Apply_after_Apply | ].
  rewrite (surjective_pairing (Apply vars1 (fst (Apply vars1 n)))).
  rewrite Apply_fst_idem, Apply_after_Apply. reflexivity.
Qed.

(* ================================================================== *)
(** ** What the loader builds *)

Definition isNone {A : Type} (o : option A) : bool :=
  match o with None => true | Some _ => false end.

(** Nested Mappings of one entry each along [keys], around [x]. *)
Fixpoint chain {ET : ExtTypes} (keys : list string) (x : Node) : Node :=
  match keys with
  | [] => x
  | k :: ks => Dict [Key k (chain ks x) None] None
  end.

Section Bare.
Context {ET : ExtTypes}.

(** A tree as the loader builds them: no processors, no compiled
    condition, entries as the only children of a Mapping, and no entry as
    the value of an entry. *)
Fixpoint bare (n : Node) : bool :=
  match n with
  | NilNode => true
  | Dict value p => isNone p && forallb (fun k => isKey k && bare k) value
  | Key _ v c => isNone c && negb (isKey v) && bare v
  | List value p => isNone p && forallb bare value
  | StrVal _ p | IntVal _ p | UIntVal _ p | FloatVal _ p | BoolVal _ p => isNone p
  end.

Lemma isNone_true (A : Type) (o : option A) : isNone o = true <-> o = None.
Proof. destruct o; simpl; split; congruence. Qed.

Lemma bare_Dict value p :
  bare (Dict value p) = true <->
  p = None /\ Forall (fun k => isKey k = true /\ bare k = true) value.
Proof.
  simpl. rewrite andb_true_iff, isNone_true, forallb_forall, Forall_forall.
  split; intros (Hp & H); (split; [exact Hp | ]); intros k Hk; specialize (H k Hk).
  - apply andb_true_iff in H. exact H.
  - apply andb_true_iff. exact H.
Qed.

Lemma bare_List value p :
  bare (List value p) = true <-> p = None /\ Forall (fun k => bare k = true) value.
Proof. simpl. rewrite andb_true_iff, isNone_true, forallb_forall, Forall_forall. tauto. Qed.

Lemma bare_Key name v c :
  bare (Key name v c) = true <-> c = None /\ isKey v = false /\ bare v = true.
Proof.
  simpl. rewrite !andb_true_iff, isNone_true, negb_true_iff. tauto.
Qed.

Lemma isKey_Clone n : isKey (Clone n) = isKey n.
Proof. destruct n as [ | | name v c | | | | | | ]; try reflexivity. destruct v; reflexivity. Qed.

Lemma Forall_clone_children (P : Node -> Prop) value :
  Forall (fun v => P (Clone v)) value -> Forall P (clone_children Clone value).
Proof.
  induction 1 as [ | v tl Hv _ IH]; [constructor | ].
  destruct v; simpl; try exact IH; constructor; assumption.
Qed.

Lemma bare_Clone n : bare n = true -> bare (Clone n) = true.
Proof.
  node_induction n; intros H; try exact H.
  - apply bare_Dict in H. destruct H as (_ & H).
    change (bare (Dict (clone_children Clone value) None) = true).
    apply bare_Dict. split; [reflexivity | ].
    apply Forall_clone_children. rewrite Forall_forall in *.
    intros k Hk. destruct (H k Hk) as (H1 & H2).
    split; [rewrite isKey_Clone; exact H1 | apply IHvalue; assumption].
  - apply bare_Key in H. destruct H as (_ & Hk & Hv).
    rewrite Clone_Key. apply bare_Key.
    split; [reflexivity | split; [rewrite isKey_Clone; exact Hk | apply IHv; exact Hv]].
  - apply bare_List in H. destruct H as (_ & H).
    change (bare (List (clone_children Clone value) None) = true).
    apply bare_List. split; [reflexivity | ].
    apply Forall_clone_children. rewrite Forall_forall in *.
    intros k Hk. apply IHvalue; [exact Hk | apply H; exact Hk].
Qed.

Lemma bare_chain ks x :
  bare x = true -> isKey x = false ->
  bare (chain ks x) = true /\ isKey (chain ks x) = false.
Proof.
  intros Hx Hk. induction ks as [ | k ks (IH1 & IH2)]; [split; assumption | ].
  split; [ | reflexivity]. cbn [chain]. apply bare_Dict. split; [reflexivity | ].
  constructor; [ | constructor]. split; [reflexivity | ].
  apply bare_Key. auto.
Qed.

Lemma Clone_chain ks x : Clone (chain ks x) = chain ks (Clone x).
Proof.
  induction ks as [ | k ks IH]; [reflexivity | ].
  cbn [chain]. change (Dict (clone_children Clone [Key k (chain ks x) None]) None =
                       Dict [Key k (chain ks (Clone x)) None] None).
  cbn [clone_children]. rewrite Clone_Key, IH. reflexivity.
Qed.

(** The remainder built for the keys that are left: nested Mappings
    around the value, which is cloned as soon as two keys are left. *)
Lemma loadMap_rest_chain ks :
  forall k aValue,
  loadMap_rest (k :: ks) aValue =
  [Key k (chain ks (match ks with [] => aValue | _ => Clone aValue end)) None].
Proof.
  intros k aValue. unfold loadMap_rest.
  set (g := fun restValue k0 =>
              match restValue with
              | [] => [Key k0 aValue None]
              | _ :: _ => [Key k0 (Clone (Dict restValue None)) None]
              end).
  assert (E : forall keys, fold_left g (rev keys) [] =
                           fold_right (fun k0 acc => g acc k0) [] keys).
  { intros keys. rewrite <- (rev_involutive keys) at 2.
    rewrite fold_left_rev_right. reflexivity. }
  rewrite E. clear E. revert k.
  induction ks as [ | k2 ks IH]; intros k; [reflexivity | ].
  cbn [fold_right]. cbn [fold_right] in IH. rewrite (IH k2).
  unfold g at 1. f_equal. f_equal.
  change (Clone (chain (k2 :: ks) (match ks with [] => aValue | _ => Clone aValue end)) =
          chain (k2 :: ks) (Clone aValue)).
  rewrite Clone_chain. destruct ks; [reflexivity | rewrite Clone_Clone; reflexivity].
Qed.

Lemma loadMap_rest_bare restKeys v :
  bare (Dict v None) = true ->
  Forall (fun k => isKey k = true /\ bare k = true) (loadMap_rest restKeys (Dict v None)).
Proof.
  intros H. destruct restKeys as [ | k ks].
  - apply bare_Dict in H. apply H.
  - rewrite loadMap_rest_chain. constructor; [ | constructor].
    split; [reflexivity | ]. apply bare_Key. split; [reflexivity | ].
    assert (HX : bare (match ks with [] => Dict v None | _ => Clone (Dict v None) end) = true
                 /\ isKey (match ks with [] => Dict v None | _ => Clone (Dict v None) end)
                    = false).
    { destruct ks; [split; [exact H | reflexivity] | ].
      split; [apply bare_Clone; exact H | reflexivity]. }
    destruct HX as (HX1 & HX2).
    destruct (bare_chain ks _ HX1 HX2) as (H1 & H2). auto.
Qed.

Lemma loadMap_attach_bare keys v last knownNode :
  bare (Dict v None) = true -> bare knownNode = true ->
  bare (loadMap_attach keys (Dict v None) last knownNode) = true /\
  isKey (loadMap_attach keys (Dict v None) last knownNode) = isKey knownNode.
Proof.
  intros Hv Hk. unfold loadMap_attach.
  pose proof (loadMap_rest_bare (skipn (S last) keys) v Hv) as HR.
  destruct knownNode as [ | value p | name x c | | | | | | ]; try (split; [exact Hk | reflexivity]).
  - split; [ | reflexivity]. apply bare_Dict in Hk. destruct Hk as (-> & HF).
    apply bare_Dict. split; [reflexivity | ].
    apply Forall_app. split; [exact HF | ].
    constructor; [ | constructor]. split; [reflexivity | ].
    apply bare_Key. split; [reflexivity | split; [reflexivity | ]].
    apply bare_Dict. split; [reflexivity | exact HR].
  - destruct x as [ | value p | | | | | | | ]; try (split; [exact Hk | reflexivity]).
    split; [ | reflexivity]. apply bare_Key in Hk. destruct Hk as (-> & _ & Hd).
    apply bare_Dict in Hd. destruct Hd as (-> & HF).
    apply bare_Key. split; [reflexivity | split; [reflexivity | ]].
    apply bare_Dict. split; [reflexivity | ].
    apply Forall_app. split; assumption.
Qed.

Lemma bare_child current part i n :
  bare current = true -> Find current part = Found i n ->
  bare n = true /\
  forall n', bare n' = true -> isKey n' = isKey n ->
             bare (set_child current i n') = true.
Proof.
  intros HB HF.
  assert (HD : forall value, Dict_Find value part = Found i n ->
                 Forall (fun k => isKey k = true /\ bare k = true) value ->
                 bare n = true /\
                 forall n', bare n' = true -> isKey n' = isKey n ->
                   Forall (fun k => isKey k = true /\ bare k = true) (set_nth i n' value)).
  { intros value Hf HFa. apply Dict_Find_Found in Hf. destruct Hf as (Hnth & Hk & _).
    destruct (nth_error_Forall i HFa Hnth) as (_ & Hb).
    split; [exact Hb | ]. intros n' Hb' Hk'.
    apply set_nth_Forall; [exact HFa | split; congruence]. }
  assert (HL : forall value, List_Find value part = Found i n ->
                 Forall (fun k => bare k = true) value ->
                 bare n = true /\
                 forall n', bare n' = true ->
                   Forall (fun k => bare k = true) (set_nth i n' value)).
  { intros value Hf HFa. apply List_Find_Found in Hf.
    split; [exact (nth_error_Forall i HFa Hf) | ].
    intros n' Hb'. apply set_nth_Forall; assumption. }
  destruct current as [ | value p | name v c | value p | | | | | ]; try discriminate HF.
  - apply bare_Dict in HB. destruct HB as (-> & HFa).
    destruct (HD value HF HFa) as (H1 & H2). split; [exact H1 | ].
    intros n' Hb' Hk'. cbn [set_child]. apply bare_Dict. auto.
  - apply bare_Key in HB. destruct HB as (-> & _ & Hv).
    destruct v as [ | value p | | value p | | | | | ]; try discriminate HF.
    + apply bare_Dict in Hv. destruct Hv as (-> & HFa).
      destruct (HD value HF HFa) as (H1 & H2). split; [exact H1 | ].
      intros n' Hb' Hk'. cbn [set_child]. apply bare_Key.
      split; [reflexivity | split; [reflexivity | ]]. apply bare_Dict. auto.
    + apply bare_List in Hv. destruct Hv as (-> & HFa).
      destruct (HL value HF HFa) as (H1 & H2). split; [exact H1 | ].
      intros n' Hb' Hk'. cbn [set_child]. apply bare_Key.
      split; [reflexivity | split; [reflexivity | ]]. apply bare_List. auto.
  - apply bare_List in HB. destruct HB as (-> & HFa).
    destruct (HL value HF HFa) as (H1 & H2). split; [exact H1 | ].
    intros n' Hb' Hk'. cbn [set_child]. apply bare_List. auto.
Qed.

Lemma isKey_set_child current i n : isKey (set_child current i n) = isKey current.
Proof. destruct current as [ | | name v c | | | | | | ]; try reflexivity. destruct v; reflexivity. Qed.

Lemma loadMap_walk_bare keys v ks :
  bare (Dict v None) = true ->
  forall i last knownNode r,
  bare knownNode = true ->
  loadMap_walk keys (Dict v None) i last ks knownNode = Ok r ->
  bare r = true /\ isKey r = isKey knownNode.
Proof.
  intros Hv. induction ks as [ | k ks IH]; intros i last knownNode r HB H.
  - simpl in H. inversion H. apply loadMap_attach_bare; assumption.
  - cbn [loadMap_walk] in H. destruct (Find knownNode k) as [j n | | ] eqn:EF.
    + destruct (loadMap_walk keys (Dict v None) (S i) i ks n) as [n' | | ] eqn:En;
        try discriminate H.
      simpl in H. inversion H. subst r.
      destruct (bare_child knownNode k j n HB EF) as (Hn & Hset).
      destruct (IH (S i) i n n' Hn En) as (Hn' & Hk').
      split; [apply Hset; assumption | apply isKey_set_child].
    + inversion H. apply loadMap_attach_bare; assumption.
    + discriminate H.
Qed.

Lemma loadMap_walk_not_Err keys aValue ks e :
  forall i last knownNode, loadMap_walk keys aValue i last ks knownNode <> Err e.
Proof.
  induction ks as [ | k ks IH]; intros i last knownNode; [discriminate | ].
  cbn [loadMap_walk]. destruct (Find knownNode k) as [j n | | ]; try discriminate.
  specialize (IH (S i) i n).
  destruct (loadMap_walk keys aValue (S i) i ks n); simpl; congruence.
Qed.
End Bare.

Section LoadShape.
Context {ET : ExtTypes} {EO : ExtOps}.

Lemma loadMap_step_not_Err value name aValue e : loadMap_step value name aValue <> Err e.
Proof.
  unfold loadMap_step. destruct (negb (isDictOrKey aValue)); [discriminate | ].
  pose proof (loadMap_walk_not_Err (Split name selectorSep) aValue
                (Split name selectorSep) e 0 0 (Dict value None)) as H.
  destruct (loadMap_walk _ aValue 0 0 _ (Dict value None)) as [node | | ];
    simpl; try congruence.
  destruct node; discriminate.
Qed.

Lemma loadMap_step_bare value name aValue value' :
  Forall (fun k => isKey k = true /\ bare k = true) value ->
  bare aValue = true -> isKey aValue = false ->
  loadMap_step value name aValue = Ok value' ->
  Forall (fun k => isKey k = true /\ bare k = true) value'.
Proof.
  intros HF HB HK H. unfold loadMap_step in H.
  destruct (negb (isDictOrKey aValue)) eqn:E.
  - inversion H. apply Forall_app. split; [exact HF | ].
    constructor; [ | constructor]. split; [reflexivity | ].
    apply bare_Key. auto.
  - destruct aValue as [ | v p | | | | | | | ]; try discriminate E; try discriminate HK.
    pose proof HB as HB'. apply bare_Dict in HB'. destruct HB' as (-> & _).
    destruct (loadMap_walk _ (Dict v None) 0 0 _ (Dict value None)) as [node | | ] eqn:Ew;
      try discriminate H.
    assert (HD : bare (Dict value None) = true) by (apply bare_Dict; auto).
    destruct (loadMap_walk_bare _ v _ HB 0 0 (Dict value None) node HD Ew) as (Hn & _).
    simpl in H. destruct node; inversion H; subst; try exact HF.
    apply bare_Dict in Hn. apply Hn.
Qed.

Lemma loadMap_loop_bare loaded names :
  (forall name n, MapIndex loaded name = Some (Ok n) ->
                  bare n = true /\ isKey n = false) ->
  forall value value',
  Forall (fun k => isKey k = true /\ bare k = true) value ->
  loadMap_loop loaded names value = Ok value' ->
  Forall (fun k => isKey k = true /\ bare k = true) value'.
Proof.
  intros HL. induction names as [ | name rest IH]; intros value value' HF H.
  - inversion H. subst. exact HF.
  - cbn [loadMap_loop] in H.
    destruct (MapIndex loaded name) as [r | ] eqn:EM; try discriminate H.
    destruct r as [aValue | | ]; try discriminate H. simpl in H.
    destruct (HL name aValue EM) as (HB & HK).
    destruct (loadMap_step value name aValue) as [value1 | | ] eqn:Es; try discriminate H.
    simpl in H. apply (IH value1 value'); [ | exact H].
    eapply loadMap_step_bare; eauto.
Qed.

Lemma loadMap_loop_Err loaded names e :
  forall value,
  loadMap_loop loaded names value = Err e ->
  exists name, In name names /\ MapIndex loaded name = Some (Err e).
Proof.
  induction names as [ | name rest IH]; intros value H; [discriminate H | ].
  cbn [loadMap_loop] in H.
  destruct (MapIndex loaded name) as [r | ] eqn:EM; try discriminate H.
  destruct r as [aValue | e' | ]; try discriminate H; simpl in H.
  - destruct (loadMap_step value name aValue) as [value1 | e' | ] eqn:Es;
      try discriminate H; simpl in H.
    + destruct (IH value1 H) as (name' & Hin & Hm). exists name'. split; [right | ]; auto.
    + exfalso. exact (loadMap_step_not_Err value name aValue e' Es).
  - inversion H. subst. exists name. split; [left; reflexivity | exact EM].
Qed.

Lemma mapM_Err_inv (A B : Type) (g : A -> res B) (l : list A) e :
  mapM g l = Err e -> exists x, In x l /\ g x = Err e.
Proof.
  induction l as [ | x tl IH]; simpl; [discriminate | ].
  destruct (g x) as [y | e' | ] eqn:Ex; try discriminate.
  - destruct (mapM g tl) as [ys | e' | ]; try discriminate.
    intros H. destruct (IH H) as (x' & Hin & Hx'). exists x'. auto.
  - intros H. inversion H. subst. exists x. auto.
Qed.

Lemma loaded_In (m : list (string * native)) name (r : res Node) :
  MapIndex (map (fun kv => (fst kv, load (snd kv))) m) name = Some r ->
  exists kv, In kv m /\ r = load (snd kv).
Proof.
  intros H. apply MapIndex_In in H. apply in_map_iff in H.
  destruct H as (kv & Heq & Hin). inversion Heq. exists kv. auto.
Qed.

(** The only error of [load] is the one for a value of unknown type. *)
Lemma load_Err v : forall e, load v = Err e -> e = ErrUnknownType.
Proof.
  induction v as [ | | | | | | | | | l IH | m IH | | ] using native_nested_ind;
    intros e H; try discriminate H.
  - simpl in H. unfold loadSliceOrArray in H.
    destruct (mapM (fun r => r) (map load l)) as [ys | e' | ] eqn:Em; try discriminate H.
    simpl in H. inversion H. subst e'.
    apply mapM_Err_inv in Em. destruct Em as (r & Hin & Hr). subst r.
    apply in_map_iff in Hin. destruct Hin as (x & Hx & Hin).
    rewrite Forall_forall in IH. exact (IH x Hin e Hx).
  - simpl in H. unfold loadMap in H.
    destruct (loadMap_loop _ _ []) as [value | e' | ] eqn:El; try discriminate H.
    simpl in H. inversion H. subst e'.
    apply loadMap_loop_Err in El. destruct El as (name & _ & Hm).
    apply loaded_In in Hm. destruct Hm as (kv & Hin & Hr).
    rewrite Forall_forall in IH. exact (IH kv Hin e (eq_sym Hr)).
  - simpl in H. inversion H. reflexivity.
Qed.

Lemma load_not_Key v n : load v = Ok n -> isKey n = false.
Proof.
  intros H. pose proof (load_kind v n H) as HK.
  destruct (isMap v); [destruct HK as (value & ->); reflexivity | ].
  destruct n; try discriminate HK; reflexivity.
Qed.

Lemma load_bare v : forall n, load v = Ok n -> bare n = true.
Proof.
  induction v as [ | | | | | | | | | l IH | m IH | | ] using native_nested_ind;
    intros n H; try discriminate H; try (simpl in H; inversion H; reflexivity).
  - simpl in H. unfold loadSliceOrArray in H.
    destruct (mapM (fun r => r) (map load l)) as [ys | | ] eqn:Em; try discriminate H.
    simpl in H. inversion H. subst n. apply bare_List. split; [reflexivity | ].
    apply mapM_Forall2 in Em. clear H. revert ys Em.
    induction IH as [ | x tl Hx _ IHl]; intros ys Em; simpl in Em; inversion Em; subst;
      constructor; auto.
  - simpl in H. unfold loadMap in H.
    destruct (loadMap_loop _ _ []) as [value | | ] eqn:El; try discriminate H.
    simpl in H. inversion H. subst n. apply bare_Dict. split; [reflexivity | ].
    eapply loadMap_loop_bare; [ | constructor | exact El].
    intros name n Hm. apply loaded_In in Hm. destruct Hm as (kv & Hin & Hr).
    rewrite Forall_forall in IH.
    split; [exact (IH kv Hin n (eq_sym Hr)) | exact (load_not_Key (snd kv) n (eq_sym Hr))].
Qed.
End LoadShape.

(** X18. What [NewAST] returns: a tree whose root is a Mapping without
    processors, or the parse error around the one error [load] has, that
    of a value of unknown type. *)
Theorem NewAST_results {ET : ExtTypes} {EO : ExtOps} (m : list (string * native)) :
  match NewAST m with
  | Ok a => exists value, root a = Dict value None
  | Err e => e = ErrParse ErrUnknownType
  | Panic => True
  end.
Proof.
  unfold NewAST, loadForNew.
  destruct (load (NMap m)) as [r | e | ] eqn:E; simpl; [ | | exact I].
  - exact (load_kind (NMap m) r E).
  - rewrite (load_Err (NMap m) e E). reflexivity.
Qed.

(** X19. What [load] builds carries no processors and no compiled
    condition; every child of a Mapping in it is an entry, and no entry
    holds an entry. *)
Theorem load_builds_bare {ET : ExtTypes} {EO : ExtOps} (v : native) (n : Node) :
  load v = Ok n -> bare n = true /\ isKey n = false.
Proof.
  intros H. split; [exact (load_bare v n H) | exact (load_not_Key v n H)].
Qed.

Lemma load_builds_bare_witness :
  let v := @NMap Toy.types
             [("b.x"%string, NMap [("k"%string, NInt 1)]);
              ("a"%string, NSlice [NNil; NString "s"]);
              ("b"%string, NMap [("y"%string, NBool true)])] in
  exists n, load v = Ok n /\ bare n = true /\ isKey n = false.
Proof.
  intros v. eexists. split; [reflexivity | ].
  apply (@load_builds_bare Toy.types Toy.ops v). reflexivity.
Defined.

(* ================================================================== *)
(** ** The loader and the order of a map; dotted names *)

Section LoadOrder.
Context {ET : ExtTypes} {EO : ExtOps}.

Lemma MapIndex_perm (A : Type) (m m' : list (string * A)) :
  NoDup (map fst m) -> Permutation m m' ->
  forall name, MapIndex m' name = MapIndex m name.
Proof.
  intros HN HP name.
  assert (HN' : NoDup (map fst m'))
    by (eapply Permutation_NoDup; [apply Permutation_map; exact HP | exact HN]).
  destruct (MapIndex m name) as [v | ] eqn:E.
  - apply MapIndex_In in E. apply In_MapIndex; [exact HN' | ].
    eapply Permutation_in; eauto.
  - destruct (MapIndex m' name) as [v | ] eqn:E'; [ | reflexivity].
    apply MapIndex_In in E'. apply Permutation_sym in HP.
    rewrite (In_MapIndex A m name v HN (Permutation_in _ HP E')) in E. discriminate E.
Qed.

Lemma loadMap_loop_ext loaded loaded' names :
  (forall name, MapIndex loaded' name = MapIndex loaded name) ->
  forall value, loadMap_loop loaded' names value = loadMap_loop loaded names value.
Proof.
  intros HM. induction names as [ | name rest IH]; intros value; [reflexivity | ].
  cbn [loadMap_loop]. rewrite HM.
  destruct (MapIndex loaded name) as [r | ]; [ | reflexivity].
  destruct r as [aValue | | ]; try reflexivity. simpl.
  destruct (loadMap_step value name aValue); try reflexivity. simpl. apply IH.
Qed.

Lemma sort_Strings_perm names names' :
  NoDup names -> Permutation names names' ->
  sort_Strings names' = sort_Strings names.
Proof.
  intros HN HP. unfold sort_Strings.
  apply (sort_by_unique (fun s => s)).
  - rewrite map_id. apply sort_Strings_strict. exact HN.
  - eapply Permutation_trans; [apply Permutation_sym; exact HP | ].
    apply Permutation_sym. apply sort_by_perm.
Qed.

Lemma loadMap_perm (loaded loaded' : list (string * res Node)) :
  NoDup (map fst loaded) -> Permutation loaded loaded' ->
  loadMap loaded' = loadMap loaded.
Proof.
  intros HN HP. unfold loadMap.
  rewrite (sort_Strings_perm (map fst loaded) (map fst loaded') HN
             (Permutation_map fst HP)).
  rewrite (loadMap_loop_ext loaded loaded' _ (MapIndex_perm _ loaded loaded' HN HP)).
  reflexivity.
Qed.

(** A single entry whose name has the parts [k :: ks], holding a
    Mapping. *)
Lemma loadMap_single name k ks v :
  Split name selectorSep = k :: ks ->
  loadMap [(name, Ok (Dict v None))] =
  Ok (Dict [Key k (chain ks (match ks with
                             | [] | [_] => Dict v None
                             | _ => Clone (Dict v None)
                             end)) None] None).
Proof.
  intros Hs. unfold loadMap. cbn [map fst sort_Strings sort_by insert_by loadMap_loop MapIndex].
  rewrite String.eqb_refl. cbn [bind]. unfold loadMap_step. cbn [isDictOrKey negb].
  rewrite Hs. cbn [loadMap_walk Find Dict_Find bind]. unfold loadMap_attach.
  cbn [skipn nth app]. cbn [bind]. do 4 f_equal.
  destruct ks as [ | k2 ks']; [reflexivity | ].
  rewrite loadMap_rest_chain. cbn [chain]. destruct ks'; reflexivity.
Qed.
End LoadOrder.

(** X20. What [load] builds from a map does not depend on the order its
    entries come in: the names are sorted first, and each value is looked
    up by its name. *)
Theorem load_order_independent {ET : ExtTypes} {EO : ExtOps}
        (m m' : list (string * native)) :
  NoDup (map fst m) ->
  Permutation m m' ->
  load (NMap m') = load (NMap m) /\ NewAST m' = NewAST m.
Proof.
  intros HN HP.
  assert (E : load (NMap m') = load (NMap m)).
  { cbn [load]. apply loadMap_perm.
    - rewrite map_map. simpl. exact HN.
    - apply Permutation_map. exact HP. }
  split; [exact E | ]. unfold NewAST, loadForNew. rewrite E. reflexivity.
Qed.

Lemma load_order_independent_witness :
  let m := [("b"%string, @NInt Toy.types 1); ("a.x"%string, NMap [("k"%string, NBool true)]);
            ("a"%string, NMap [])] in
  let m' := [("a"%string, @NMap Toy.types []); ("b"%string, NInt 1);
             ("a.x"%string, NMap [("k"%string, NBool true)])] in
  load (NMap m') = load (NMap m) /\ NewAST m' = NewAST m.
Proof.
  intros m m'. apply (@load_order_independent Toy.types Toy.ops m m').
  - repeat constructor; simpl; intuition discriminate.
  - unfold m, m'. apply Permutation_sym.
    apply (@Permutation_cons_app _ _ [("b"%string, NInt 1);
                                      ("a.x"%string, NMap [("k"%string, NBool true)])] []).
    apply Permutation_refl.
Defined.

(** X21. A map of one entry whose value is a map is loaded into nested
    Mappings of one entry each, one for each part of the name between the
    dots, around the Mapping loaded from the value; with three parts or
    more it is a clone of that Mapping. *)
Theorem load_dotted_name {ET : ExtTypes} {EO : ExtOps}
        (name : string) (v : native) (d : Node) (k : string) (ks : list string) :
  isMap v = true ->
  load v = Ok d ->
  Split name selectorSep = k :: ks ->
  load (NMap [(name, v)]) =
  Ok (Dict [Key k (chain ks (match ks with
                             | [] | [_] => d
                             | _ => Clone d
                             end)) None] None).
Proof.
  intros Hm Hl Hs. pose proof (load_kind v d Hl) as HK. rewrite Hm in HK.
  destruct HK as (value & ->).
  cbn [load map fst snd]. rewrite Hl. apply loadMap_single. exact Hs.
Qed.

Lemma load_dotted_name_witness :
  load (@NMap Toy.types [("a.b.c"%string, NMap [("l"%string, NSlice [NNil; NInt 1])])]) =
  Ok (Dict [Key "a" (Dict [Key "b" (Dict [Key "c"
              (Dict [Key "l" (List [IntVal 1 None] None) None] None) None] None) None]
               None) None] None).
Proof.
  exact (@load_dotted_name Toy.types Toy.ops "a.b.c"
           (NMap [("l"%string, NSlice [NNil; NInt 1])]) _ "a" ["b"%string; "c"%string]
           eq_refl eq_refl eq_refl).
Defined.

(* ================================================================== *)
(** ** What Insert leaves alone *)

(** The node of a [Find], its position forgotten. *)
Definition node_of {ET : ExtTypes} (r : lookup) : res (option Node) :=
  match r with
  | Found _ n => Ok (Some n)
  | NotFound => Ok None
  | LookupPanic => Panic
  end.

Definition named {ET : ExtTypes} (k : string) (n : Node) : bool :=
  String.eqb (key_name n) k.

Section InsertFrame.
Context {ET : ExtTypes} {EO : ExtOps}.

Lemma node_of_shift r : node_of (shift r) = node_of r.
Proof. destruct r; reflexivity. Qed.

Lemma Lookup_walk_node_of k rest current current' :
  node_of (Find current' k) = node_of (Find current k) ->
  Lookup_walk (k :: rest) current' = Lookup_walk (k :: rest) current.
Proof.
  cbn [Lookup_walk]. destruct (Find current' k), (Find current k); simpl; congruence.
Qed.

Lemma Dict_Find_find value k :
  Forall (fun n => isKey n = true) value ->
  node_of (Dict_Find value k) = Ok (find (named k) value).
Proof.
  induction 1 as [ | n tl Hn _ IH]; [reflexivity | ].
  destruct n as [ | | name v c | | | | | | ]; try discriminate Hn.
  cbn [Dict_Find find]. unfold named at 1. cbn [key_name].
  destruct (String.eqb name k); [reflexivity | ].
  rewrite node_of_shift. exact IH.
Qed.

Lemma find_named_spec l k :
  NoDup (map key_name l) ->
  forall n, find (named k) l = Some n <-> In n l /\ key_name n = k.
Proof.
  intros HN n. split.
  - intros H. apply find_some in H. destruct H as (Hin & Hk).
    split; [exact Hin | apply String.eqb_eq; exact Hk].
  - intros (Hin & Hk). induction l as [ | m tl IH]; [destruct Hin | ].
    inversion HN as [ | ? ? Hnotin HN']. subst. cbn [find].
    destruct Hin as [-> | Hin].
    + unfold named. rewrite String.eqb_refl. reflexivity.
    + destruct (named (key_name n) m) eqn:E; [ | apply IH; assumption].
      exfalso. apply Hnotin. apply String.eqb_eq in E. rewrite E.
      apply in_map. exact Hin.
Qed.

Lemma find_named_perm l l' k :
  NoDup (map key_name l) -> Permutation l l' ->
  find (named k) l' = find (named k) l.
Proof.
  intros HN HP.
  assert (HN' : NoDup (map key_name l'))
    by (eapply Permutation_NoDup; [apply Permutation_map; exact HP | exact HN]).
  destruct (find (named k) l) as [n | ] eqn:E.
  - apply (find_named_spec l k HN) in E. apply (find_named_spec l' k HN').
    destruct E as (Hin & Hk). split; [eapply Permutation_in; eauto | exact Hk].
  - destruct (find (named k) l') as [n | ] eqn:E'; [ | reflexivity].
    apply (find_named_spec l' k HN') in E'. destruct E' as (Hin & Hk).
    assert (H : find (named k) l = Some n).
    { apply (find_named_spec l k HN). split; [ | exact Hk].
      eapply Permutation_in; [apply Permutation_sym; exact HP | exact Hin]. }
    congruence.
Qed.

Lemma find_named_set_nth l k : forall i n n',
  nth_error l i = Some n -> key_name n' = key_name n -> key_name n <> k ->
  find (named k) (set_nth i n' l) = find (named k) l.
Proof.
  induction l as [ | m tl IH]; intros i n n' Hnth Hname Hne;
    [destruct i; discriminate Hnth | ].
  destruct i as [ | i]; simpl in Hnth.
  - inversion Hnth. subst m. cbn [set_nth find]. unfold named.
    rewrite Hname. apply String.eqb_neq in Hne. rewrite Hne. reflexivity.
  - cbn [set_nth find]. rewrite (IH i n n' Hnth Hname Hne). reflexivity.
Qed.

Lemma find_named_app_other l m k :
  key_name m <> k -> find (named k) (l ++ [m]) = find (named k) l.
Proof.
  intros Hne. induction l as [ | y tl IH]; cbn [app find].
  - unfold named. apply String.eqb_neq in Hne. rewrite Hne. reflexivity.
  - rewrite IH. reflexivity.
Qed.

(** [Insert] at a selector that starts with [k1], from a root Mapping:
    the entries of the root under other names are found as before. *)
Lemma Insert_walk_frame to x k1 rest value p k :
  unique_names (Dict value p) = true ->
  k <> k1 ->
  node_of (Find (fst (Insert_walk to x (k1 :: rest) (Dict value p))) k) =
  node_of (Find (Dict value p) k).
Proof.
  intros HU Hne. apply unique_names_Dict in HU. destruct HU as (HK & HN & _).
  cbn [Insert_walk]. destruct (Find (Dict value p) k1) as [i n | | ] eqn:EF.
  - destruct (Insert_walk to x rest n) as [n' r] eqn:En. cbn [fst set_child Find].
    simpl in EF. destruct (Dict_Find_Found value k1 EF) as (Hnth & Hk & Hname).
    destruct (Insert_walk_kind to x rest n n' r En Hk) as (Hk' & Hname').
    rewrite !Dict_Find_find; [ | exact HK | apply set_nth_Forall; assumption].
    rewrite (find_named_set_nth value k i n n' Hnth Hname'); [reflexivity | congruence].
  - simpl in EF. unfold Insert_new_key.
    set (newNode := Key k1 (Dict [] None) None).
    assert (HK1 : Forall (fun n => isKey n = true) (value ++ [newNode]))
      by (apply Forall_app; split; [exact HK | repeat constructor]).
    rewrite (Dict_sort_Keys HK1).
    set (sorted := sort_by key_name (value ++ [newNode])).
    assert (HP : Permutation sorted (value ++ [newNode])) by apply sort_by_perm.
    assert (HKs : Forall (fun n => isKey n = true) sorted)
      by (eapply Permutation_Forall; [apply Permutation_sym, HP | exact HK1]).
    assert (HN1 : NoDup (map key_name (value ++ [newNode]))).
    { rewrite map_app. simpl.
      eapply Permutation_NoDup; [apply Permutation_cons_append | ].
      constructor; [ | exact HN].
      apply Dict_Find_NotFound in EF. apply EF. }
    assert (Es : find (named k) sorted = find (named k) value).
    { rewrite (find_named_perm (value ++ [newNode]) sorted k HN1 (Permutation_sym HP)).
      apply find_named_app_other. simpl. congruence. }
    destruct (Insert_walk to x rest newNode) as [newNode' r] eqn:En.
    destruct (Insert_walk_kind to x rest newNode newNode' r En eq_refl) as (Hk' & Hname').
    destruct (Dict_Find sorted k1) as [j m | | ] eqn:Ej; cbn [fst Find].
    + destruct (Dict_Find_Found sorted k1 Ej) as (Hnth & Hm & Hmname).
      rewrite !Dict_Find_find; [ | exact HK | apply set_nth_Forall; assumption].
      rewrite (find_named_set_nth sorted k j m newNode' Hnth); [rewrite Es; reflexivity | | ].
      * simpl in Hname'. congruence.
      * congruence.
    + rewrite !Dict_Find_find by assumption. rewrite Es. reflexivity.
    + rewrite !Dict_Find_find by assumption. rewrite Es. reflexivity.
  - reflexivity.
Qed.

Lemma Insert_walk_Dict to x parts value p :
  exists value', fst (Insert_walk to x parts (Dict value p)) = Dict value' p.
Proof.
  destruct parts as [ | part rest]; cbn [Insert_walk]; [eexists; reflexivity | ].
  destruct (Find (Dict value p) part) as [i n | | ].
  - destruct (Insert_walk to x rest n). eexists. reflexivity.
  - destruct (Insert_new_key (Insert_walk to x rest) part value). eexists. reflexivity.
  - eexists. reflexivity.
Qed.

Lemma splitPath_parts t : t <> EmptyString -> exists k rest, splitPath t = k :: rest.
Proof.
  intros Ht. destruct t as [ | ch t']; [congruence | ].
  pose proof (Split_not_nil (String ch t') selectorSep) as Hnn.
  unfold splitPath. change (String.eqb (String ch t') "") with false. cbv iota.
  destruct (Split (String ch t') selectorSep) as [ | k rest]; [congruence | eauto].
Qed.

Lemma Insert_frame_root a x to s value p :
  root a = Dict value p ->
  unique_names (root a) = true ->
  to <> EmptyString -> s <> EmptyString ->
  hd_error (splitPath s) <> hd_error (splitPath to) ->
  Lookup (fst (Insert a x to)) s = Lookup a s.
Proof.
  intros Hr HU Hto Hs Hne.
  destruct (splitPath_parts to Hto) as (k1 & rest & Eto).
  destruct (splitPath_parts s Hs) as (k & srest & Es).
  rewrite Eto, Es in Hne. simpl in Hne.
  assert (Hk : k <> k1) by congruence.
  pose proof (isNil_Insert_walk to x (splitPath to) (root a)) as Hnil.
  pose proof (Insert_walk_frame to x k1 rest value p k) as HF.
  rewrite <- Hr, <- Eto in HF. specialize (HF HU Hk).
  unfold Insert. destruct (Insert_walk to x (splitPath to) (root a)) as [r e].
  simpl in Hnil, HF. simpl fst.
  rewrite !Lookup_not_nil; [ | rewrite Hr; reflexivity | simpl; rewrite Hnil, Hr; reflexivity].
  rewrite Es. simpl root. apply Lookup_walk_node_of. exact HF.
Qed.
End InsertFrame.

(** X22. [Insert] below one entry of a root Mapping leaves the others
    alone: on a root Mapping of entries with distinct names, whether the
    call succeeds or fails, every [Lookup] at a selector whose first part is
    not the first part of the selector of the [Insert] returns what it
    returned before. *)
Theorem Insert_frame {ET : ExtTypes} {EO : ExtOps}
        (a : AST) (x : Node) (to s : string) (value : list Node) (p : Processors) :
  root a = Dict value p ->
  unique_names (root a) = true ->
  to <> EmptyString -> s <> EmptyString ->
  hd_error (splitPath s) <> hd_error (splitPath to) ->
  Lookup (fst (Insert a x to)) s = Lookup a s.
Proof. apply Insert_frame_root. Qed.

Lemma Insert_frame_witness :
  let a := @mkAST Toy.types
             (Dict [Key "agent" (Dict [Key "id" (StrVal "x" None) None] None) None;
                    Key "outputs" (List [] None) None] None) in
  Lookup (fst (Insert a (Dict [] None) "outputs.0.hosts")) "agent.id" =
  Ok (Some (Key "id" (StrVal "x" None) None)).
Proof.
  intros a.
  rewrite (@Insert_frame Toy.types Toy.ops a (Dict [] None) "outputs.0.hosts" "agent.id"
             _ None eq_refl eq_refl ltac:(discriminate) ltac:(discriminate)
             ltac:(discriminate)).
  reflexivity.
Defined.

(* ================================================================== *)
(** ** The default monitoring settings (modifiers.InjectMonitoring) *)

Definition monitoringKey : string := "agent.monitoring".

(** [monitoringNode], as [InjectMonitoring] builds it. *)
Definition monitoringNode {ET : ExtTypes} : Node :=
  Dict [Key "enabled" (BoolVal true None) None;
        Key "logs" (BoolVal true None) None;
        Key "metrics" (BoolVal true None) None;
        Key "use_output" (StrVal "default" None) None;
        Key "namespace" (StrVal "default" None) None] None.

(** The first step of [InjectMonitoring] on [rootAst]: "if monitoring is
    not specified use default one where everything is enabled". The error
    [Insert] returns is dropped; the tree as the step leaves it. *)
Definition injectDefaultMonitoring {ET : ExtTypes} {EO : ExtOps} (rootAst : AST) : res AST :=
  match Lookup rootAst monitoringKey with
  | Ok (Some _) => Ok rootAst
  | Ok None =>
      let '(a', e) := Insert rootAst (Key "monitoring" monitoringNode None) "settings" in
      match e with
      | Panic => Panic
      | _ => Ok a'
      end
  | Err e => Err e
  | Panic => Panic
  end.

(** X23. The default monitoring settings of [InjectMonitoring]. A
    configuration that has an [agent.monitoring] is left as it is. One
    that has none, on a root Mapping of entries with distinct names, gets
    the default settings as the entry [monitoring] under [settings], where
    [Lookup] then finds them; [agent.monitoring], the selector that was
    looked up, still finds nothing. *)
Theorem default_monitoring_goes_to_settings {ET : ExtTypes} {EO : ExtOps}
        (rootAst : AST) (value : list Node) (p : Processors) :
  root rootAst = Dict value p ->
  unique_names (root rootAst) = true ->
  (forall n, Lookup rootAst monitoringKey = Ok (Some n) ->
             injectDefaultMonitoring rootAst = Ok rootAst) /\
  (Lookup rootAst monitoringKey = Ok None ->
   exists a',
     injectDefaultMonitoring rootAst = Ok a' /\
     unique_names (root a') = true /\
     (exists children q c,
        Lookup a' "settings" = Ok (Some (Key "settings" (Dict children q) c)) /\
        In (Key "monitoring" monitoringNode None) children) /\
     Lookup a' "settings.monitoring" = Ok (Some (Key "monitoring" monitoringNode None)) /\
     Lookup a' monitoringKey = Ok None).
Proof.
  intros Hr HU. split.
  - intros n H. unfold injectDefaultMonitoring. rewrite H. reflexivity.
  - intros HL. unfold injectDefaultMonitoring. rewrite HL.
    set (nt := Key "monitoring" monitoringNode None).
    assert (Hparts : splitPath "settings" = ["settings"%string]) by reflexivity.
    pose proof HU as HUr. rewrite Hr in HUr.
    apply unique_names_Dict in HUr. destruct HUr as (HK & HN & HUs).
    assert (Hgrow : grows_list (splitPath "settings") (root rootAst) = false).
    { rewrite Hr, Hparts. cbn [grows_list Find].
      destruct (Dict_Find value "settings") as [i n | | ]; reflexivity. }
    assert (Hok : snd (Insert rootAst nt "settings") = Ok tt).
    { unfold Insert. rewrite Hparts, Hr. cbn [Insert_walk Find].
      destruct (Dict_Find value "settings") as [i n | | ] eqn:EF.
      - destruct (Dict_Find_Found value "settings" EF) as (Hnth & Hk & Hname).
        destruct n as [ | | name v c | | | | | | ]; try discriminate Hk.
        assert (HUn : unique_names (Key name v c) = true)
          by (exact (nth_error_Forall i HUs Hnth)).
        destruct v as [ | dValue q | | | | | | | ]; try reflexivity.
        change (unique_names (Dict dValue q) = true) in HUn.
        apply unique_names_Dict in HUn. destruct HUn as (HK' & HN' & _).
        rewrite (Insert_assign_Key_Dict "settings" nt name dValue q c eq_refl HK' HN').
        reflexivity.
      - unfold Insert_new_key.
        rewrite Dict_sort_Keys
          by (apply Forall_app; split; [exact HK | repeat constructor]).
        unfold nt. cbn [Insert_walk Insert_assign].
        match goal with
        | |- context [Dict_Find (sort_by ?f ?l) ?k] => destruct (Dict_Find (sort_by f l) k)
        end; reflexivity.
      - exfalso. pose proof (Dict_Find_find value "settings" HK) as H.
        rewrite EF in H. discriminate H. }
    pose proof (Insert_frame_root rootAst nt "settings" monitoringKey value p Hr HU
                  ltac:(discriminate) ltac:(discriminate) ltac:(discriminate)) as Hframe.
    destruct (Insert rootAst nt "settings") as [a' e] eqn:EI.
    simpl in Hok, Hframe. subst e.
    exists a'. split; [reflexivity | ].
    assert (EW : Insert_walk "settings" nt (splitPath "settings") (root rootAst) =
                 (root a', Ok tt)).
    { unfold Insert in EI.
      destruct (Insert_walk "settings" nt (splitPath "settings") (root rootAst)) as [r e].
      inversion EI. reflexivity. }
    pose proof (Insert_walk_unique "settings" nt (splitPath "settings") eq_refl eq_refl
                  (root rootAst) (root a') HU EW) as HU'.
    split; [exact HU' | ].
    destruct (Insert_walk_stored "settings" nt (splitPath "settings")
                (root rootAst) (root a') HU Hgrow EW)
      as (Hnil & name & v & c & Hl & children & q & -> & Hin).
    destruct (Insert_walk_Dict "settings" nt (splitPath "settings") value p) as (value' & Hd).
    rewrite <- Hr, EW in Hd. simpl in Hd.
    assert (HF : exists i, Find (root a') "settings" = Found i (Key name (Dict children q) c)).
    { rewrite Hparts in Hl. cbn [Lookup_walk] in Hl.
      destruct (Find (root a') "settings") as [i n | | ]; try discriminate Hl.
      inversion Hl. eauto. }
    destruct HF as (i & HF).
    assert (Hname : name = "settings"%string).
    { rewrite Hd in HF. simpl in HF.
      destruct (Dict_Find_Found value' "settings" HF) as (_ & _ & Hn). exact Hn. }
    subst name.
    assert (HLs : Lookup a' "settings" = Ok (Some (Key "settings" (Dict children q) c)))
      by (rewrite Lookup_not_nil; [exact Hl | exact Hnil]).
    split; [exists children, q, c; split; [exact HLs | exact Hin] | ].
    split; [ | rewrite Hframe; exact HL].
    assert (E : Lookup a' "settings.monitoring" =
                Lookup_walk ["monitoring"%string] (Key "settings" (Dict children q) c)).
    { rewrite Lookup_not_nil by exact Hnil.
      change (splitPath "settings.monitoring") with (splitPath "settings" ++ ["monitoring"%string]).
      rewrite Lookup_walk_app, Hl. reflexivity. }
    rewrite E. cbn [Lookup_walk Find].
    pose proof (unique_names_child (root a') "settings" i _ HU' HF) as HUk.
    change (unique_names (Dict children q) = true) in HUk.
    apply unique_names_Dict in HUk. destruct HUk as (HKc & HNc & _).
    pose proof (Dict_Find_find children "monitoring" HKc) as Hf.
    assert (Hfind : find (named "monitoring") children = Some nt)
      by (apply (find_named_spec children "monitoring" HNc); split; [exact Hin | reflexivity]).
    rewrite Hfind in Hf.
    destruct (Dict_Find children "monitoring"); simpl in Hf; inversion Hf. reflexivity.
Qed.

Lemma default_monitoring_goes_to_settings_witness :
  let rootAst := @mkAST Toy.types
                   (Dict [Key "agent" (Dict [Key "id" (StrVal "x" None) None] None) None;
                          Key "settings" (Dict [Key "zz" (IntVal 1 None) None] None) None]
                         None) in
  exists a',
    injectDefaultMonitoring rootAst = Ok a' /\
    Lookup a' "settings.monitoring" = Ok (Some (Key "monitoring" monitoringNode None)) /\
    Lookup a' monitoringKey = Ok None.
Proof.
  intros rootAst.
  destruct (proj2 (@default_monitoring_goes_to_settings Toy.types Toy.ops rootAst _ None
                     eq_refl eq_refl) eq_refl)
    as (a' & H1 & _ & _ & H2 & H3).
  exists a'. auto.
Defined.

(* ================================================================== *)
(** ** attachProcessors *)

(** [attachProcessors(node, processors)]: the node as the call leaves and
    returns it. *)
Definition attachProcessors {ET : ExtTypes} (node : Node) (processors : Processors) : Node :=
  match node with
  | Dict value _ => Dict value processors
  | List value _ => List value processors
  | StrVal s _ => StrVal s processors
  | IntVal i _ => IntVal i processors
  | UIntVal u _ => UIntVal u processors
  | FloatVal f _ => FloatVal f processors
  | BoolVal b _ => BoolVal b processors
  | _ => node
  end.

(** X24. [attachProcessors] writes the processors of a node and nothing
    else. Both hashes of the node are what they were; on a node that is
    not an entry (and not nil) [Processors] then returns the list attached,
    when there is one; an entry is left as it is; and attaching twice is
    attaching the second list. *)
Theorem attachProcessors_effect {ET : ExtTypes} {EO : ExtOps}
        (n : Node) (q q' : Processors) :
  Hash (attachProcessors n q) = Hash n /\
  (forall h, Hash64With (attachProcessors n q) h = Hash64With n h) /\
  (forall ps, isKey n = false -> isNil n = false ->
              Node_Processors (attachProcessors n (Some ps)) = Ok (Some ps)) /\
  (isKey n = true -> attachProcessors n q = n) /\
  attachProcessors (attachProcessors n q) q' = attachProcessors n q'.
Proof.
  split; [destruct n; reflexivity | ].
  split; [intros h; destruct n; reflexivity | ].
  split; [intros ps Hk Hn; destruct n; try discriminate; reflexivity | ].
  split; [intros Hk; destruct n; try discriminate Hk; reflexivity | ].
  destruct n; reflexivity.
Qed.

(* ================================================================== *)
(** ** String and Vars *)

Section MapClone.
Context {ET : ExtTypes} {B : Type}.
Variable g : Node -> res B.
Variable f : Node -> Node.
Hypothesis g_not_nil : forall v y, g v = Ok y -> isNil v = false.

Lemma mapM_clone_children_Ok value :
  Forall (fun v => forall y, g v = Ok y -> g (f v) = Ok y) value ->
  forall ys, mapM g value = Ok ys -> mapM g (clone_children f value) = Ok ys.
Proof.
  induction 1 as [ | v tl Hv _ IH]; intros ys H; [exact H | ].
  apply mapM_Ok_inv in H. destruct H as (y & ys' & Hy & Hys & ->).
  pose proof (g_not_nil v y Hy) as Hn.
  assert (E : clone_children f (v :: tl) = f v :: clone_children f tl)
    by (destruct v; simpl in Hn; try discriminate; reflexivity).
  rewrite E. simpl. rewrite (Hv _ Hy), (IH _ Hys). reflexivity.
Qed.
End MapClone.

Section FoldM.
Context {ET : ExtTypes} {S : Type}.
Variable f : Node -> S -> res S.

(** [for _, v := range value { s = f(v, s) }]. *)
Fixpoint foldM (value : list Node) (s : S) : res S :=
  match value with
  | [] => Ok s
  | v :: tl => s' <- f v s ;; foldM tl s'
  end.
End FoldM.

Section StringVars.
Context {ET : ExtTypes} {EO : ExtOps}.
(** [fmt.Sprintf("%f", f)]. *)
Variable Sprintf_f : float64 -> string.
(** The variables [replaceVars] reports in a string, in order, for a
    default provider. *)
Variable vars_in : string -> string -> list string.
Variable defaultProvider : string.

Definition braces (s : string) : string := ("{" ++ s ++ "}")%string.

(** [String()] of each variant; a method call on nil panics. *)
Fixpoint Node_String (n : Node) : res string :=
  match n with
  | NilNode => Panic
  | Dict value _ =>
      ss <- mapM Node_String value ;; Ok (String.concat "," (map braces ss))
  | Key name NilNode _ => Ok (name ++ ":" ++ "nil")%string
  | Key name v _ => s <- Node_String v ;; Ok (name ++ ":" ++ s)%string
  | List value _ =>
      ss <- mapM Node_String value ;; Ok ("[" ++ String.concat "," ss ++ "]")%string
  | StrVal s _ => Ok s
  | IntVal i _ => Ok (Itoa i)
  | UIntVal u _ => Ok (FormatUint u)
  | FloatVal f _ => Ok (Sprintf_f f)
  | BoolVal b _ => Ok (if b then "true" else "false")%string
  end.

Definition AST_String (a : AST) : res string :=
  s <- Node_String (root a) ;; Ok ("{AST:" ++ s ++ "}")%string.

(** [Vars(vars, defaultProvider)] of each variant: [vars] with the
    variables referenced in the node appended. *)
Fixpoint Node_Vars (n : Node) (vars : list string) : res (list string) :=
  match n with
  | NilNode => Panic
  | Dict value _ =>
      foldM (fun v acc => match v with
                          | Key _ _ _ => Node_Vars v acc
                          | _ => Panic
                          end) value vars
  | Key _ NilNode _ => Ok vars
  | Key _ v _ => Node_Vars v vars
  | List value _ => foldM Node_Vars value vars
  | StrVal s _ => Ok (vars ++ vars_in s defaultProvider)
  | IntVal _ _ | UIntVal _ _ | FloatVal _ _ | BoolVal _ _ => Ok vars
  end.

Lemma String_Key name v c :
  Node_String (Key name v c) =
  if isNil v then Ok (name ++ ":" ++ "nil")%string
  else s <- Node_String v ;; Ok (name ++ ":" ++ s)%string.
Proof. destruct v; reflexivity. Qed.

Lemma Vars_Key name v c vars :
  Node_Vars (Key name v c) vars = if isNil v then Ok vars else Node_Vars v vars.
Proof. destruct v; reflexivity. Qed.

Lemma String_Ok_not_nil n s : Node_String n = Ok s -> isNil n = false.
Proof. destruct n; simpl; try discriminate; reflexivity. Qed.

Lemma Vars_Ok_not_nil n vars out : Node_Vars n vars = Ok out -> isNil n = false.
Proof. destruct n; simpl; try discriminate; reflexivity. Qed.

Lemma String_Clone n : forall str, Node_String n = Ok str -> Node_String (Clone n) = Ok str.
Proof.
  node_induction n; intros str H; try exact H.
  - simpl in *. destruct (mapM Node_String value) as [ss | e | ] eqn:E; try discriminate.
    rewrite (mapM_clone_children_Ok Node_String Clone String_Ok_not_nil value IHvalue ss E).
    exact H.
  - rewrite Clone_Key, String_Key, isNil_Clone. rewrite String_Key in H.
    destruct (isNil v); [exact H | ].
    destruct (Node_String v) as [sv | e | ] eqn:E; try discriminate.
    rewrite (IHv _ eq_refl). exact H.
  - simpl in *. destruct (mapM Node_String value) as [ss | e | ] eqn:E; try discriminate.
    rewrite (mapM_clone_children_Ok Node_String Clone String_Ok_not_nil value IHvalue ss E).
    exact H.
Qed.

Lemma String_ShallowClone n :
  forall str, Node_String n = Ok str -> Node_String (ShallowClone n) = Ok str.
Proof.
  node_induction n; intros str H; try exact H.
  - simpl in *. destruct (mapM Node_String value) as [ss | e | ] eqn:E; try discriminate.
    rewrite (mapM_clone_children_Ok Node_String ShallowClone String_Ok_not_nil
               value IHvalue ss E).
    exact H.
  - simpl in *. destruct (mapM Node_String value) as [ss | e | ] eqn:E; try discriminate.
    assert (HF : Forall (fun v => forall y, Node_String v = Ok y ->
                                   Node_String ((fun i => i) v) = Ok y) value)
      by (apply Forall_forall; auto).
    rewrite (mapM_clone_children_Ok Node_String (fun i => i) String_Ok_not_nil value HF ss E).
    exact H.
Qed.

Section FoldFacts.
Variable g : Node -> list string -> res (list string).

Lemma foldM_appends value :
  Forall (fun v => forall acc, g v acc = (a <- g v [] ;; Ok (acc ++ a))) value ->
  forall acc, foldM g value acc = (a <- foldM g value [] ;; Ok (acc ++ a)).
Proof.
  induction 1 as [ | v tl Hv _ IH]; intros acc.
  - simpl. rewrite app_nil_r. reflexivity.
  - cbn [foldM]. rewrite (Hv acc).
    destruct (g v []) as [a | e | ]; simpl; try reflexivity.
    rewrite (IH (acc ++ a)), (IH a).
    destruct (foldM g tl []) as [b | e | ]; simpl; try reflexivity.
    rewrite app_assoc. reflexivity.
Qed.

Lemma foldM_clone_children (f : Node -> Node) value :
  (forall v acc out, g v acc = Ok out -> isNil v = false) ->
  Forall (fun v => forall acc out, g v acc = Ok out -> g (f v) acc = Ok out) value ->
  forall acc out, foldM g value acc = Ok out ->
                  foldM g (clone_children f value) acc = Ok out.
Proof.
  intros Hnil. induction 1 as [ | v tl Hv _ IH]; intros acc out H; [exact H | ].
  cbn [foldM] in H. destruct (g v acc) as [s1 | e | ] eqn:E1; try discriminate H.
  simpl in H. pose proof (Hnil v acc s1 E1) as Hn.
  assert (E : clone_children f (v :: tl) = f v :: clone_children f tl)
    by (destruct v; simpl in Hn; try discriminate; reflexivity).
  rewrite E. cbn [foldM]. rewrite (Hv _ _ E1). simpl. apply IH. exact H.
Qed.
End FoldFacts.

Definition Key_Vars (v : Node) (acc : list string) : res (list string) :=
  match v with
  | Key _ _ _ => Node_Vars v acc
  | _ => Panic
  end.

Lemma Vars_Dict value p vars : Node_Vars (Dict value p) vars = foldM Key_Vars value vars.
Proof. reflexivity. Qed.

Lemma Vars_appends_acc n :
  forall vars, Node_Vars n vars = (a <- Node_Vars n [] ;; Ok (vars ++ a)).
Proof.
  node_induction n; intros vars; try reflexivity;
    try (simpl; rewrite app_nil_r; reflexivity).
  - rewrite !Vars_Dict. apply foldM_appends.
    eapply Forall_impl; [ | exact IHvalue].
    intros v Hv acc. destruct v; try reflexivity. cbn [Key_Vars]. apply Hv.
  - rewrite !Vars_Key. destruct (isNil v); [simpl; rewrite app_nil_r; reflexivity | ].
    apply IHv.
  - cbn [Node_Vars]. apply foldM_appends. exact IHvalue.
Qed.

Lemma Vars_Clone n :
  forall vars out, Node_Vars n vars = Ok out -> Node_Vars (Clone n) vars = Ok out.
Proof.
  node_induction n; intros vars out H; try exact H.
  - change (Node_Vars (Dict (clone_children Clone value) None) vars = Ok out).
    rewrite Vars_Dict in *. apply foldM_clone_children; [ | | exact H].
    + intros v acc o Hv. destruct v; try discriminate Hv; reflexivity.
    + eapply Forall_impl; [ | exact IHvalue].
      intros v Hv acc o Ho. destruct v as [ | | name x c | | | | | | ]; try discriminate Ho.
      cbn [Key_Vars] in Ho. specialize (Hv acc o Ho). rewrite Clone_Key in *.
      exact Hv.
  - rewrite Clone_Key, Vars_Key, isNil_Clone. rewrite Vars_Key in H.
    destruct (isNil v); [exact H | ]. apply IHv. exact H.
  - change (foldM Node_Vars (clone_children Clone value) vars = Ok out).
    apply foldM_clone_children; [ | exact IHvalue | exact H].
    intros v acc o Hv. eapply Vars_Ok_not_nil. exact Hv.
Qed.
End StringVars.

(** X25. [String] does not tell a tree from its clones: when [String]
    returns on a tree, it returns the same string on its [Clone] and on its
    [ShallowClone]. *)
Theorem String_of_clones {ET : ExtTypes} {EO : ExtOps}
        (Sprintf_f : float64 -> string) (a : AST) (s : string) :
  AST_String Sprintf_f a = Ok s ->
  (c <- AST_Clone a ;; AST_String Sprintf_f c) = Ok s /\
  (c <- AST_ShallowClone a ;; AST_String Sprintf_f c) = Ok s.
Proof.
  intros H. unfold AST_String in H.
  destruct (Node_String Sprintf_f (root a)) as [sr | e | ] eqn:E; try discriminate H.
  pose proof (String_Ok_not_nil Sprintf_f (root a) sr E) as Hn.
  assert (EC : AST_Clone a = Ok (mkAST (Clone (root a))))
    by (unfold AST_Clone; destruct (root a); try discriminate Hn; reflexivity).
  assert (ES : AST_ShallowClone a = Ok (mkAST (ShallowClone (root a))))
    by (unfold AST_ShallowClone; destruct (root a); try discriminate Hn; reflexivity).
  rewrite EC, ES. cbn [bind]. unfold AST_String. cbn [root].
  rewrite (String_Clone Sprintf_f (root a) sr E),
          (String_ShallowClone Sprintf_f (root a) sr E).
  split; exact H.
Qed.

(** The toy instance has no floats to print. *)
Definition toy_Sprintf_f (f : @float64 Toy.types) : string :=
  match (f : Empty_set) with end.

Lemma String_of_clones_witness :
  let a := @mkAST Toy.types
             (Dict [Key "a" (List [IntVal 1 None; BoolVal true None] None) None;
                    Key "b" NilNode None] (Some [])) in
  AST_String toy_Sprintf_f a = Ok "{AST:{a:[1,true]},{b:nil}}"%string /\
  (c <- AST_Clone a ;; AST_String toy_Sprintf_f c) =
    Ok "{AST:{a:[1,true]},{b:nil}}"%string.
Proof.
  intros a. split; [reflexivity | ].
  exact (proj1 (@String_of_clones Toy.types Toy.ops toy_Sprintf_f a _ eq_refl)).
Defined.

(** X26. [Vars] only appends: called with a list, it returns that list
    followed by what it returns when called with the empty list, and it
    panics when that call does. It returns on the [Clone] of a tree what
    it returns on the tree. *)
Theorem Vars_appends {ET : ExtTypes} {EO : ExtOps}
        (vars_in : string -> string -> list string) (defaultProvider : string)
        (n : Node) (vars : list string) :
  Node_Vars vars_in defaultProvider n vars =
    (a <- Node_Vars vars_in defaultProvider n [] ;; Ok (vars ++ a)) /\
  (forall out, Node_Vars vars_in defaultProvider n vars = Ok out ->
               Node_Vars vars_in defaultProvider (Clone n) vars = Ok out).
Proof.
  split; [apply Vars_appends_acc | apply Vars_Clone].
Qed.

(* ================================================================== *)
(** ** Processors, in order *)

(** The processors fields of a tree in the order [Processors] looks at
    them: a container's own, then those of its children, first to last. *)
Fixpoint fields {ET : ExtTypes} (n : Node) : list Processors :=
  match n with
  | NilNode => []
  | Dict value p => p :: flat_map fields value
  | Key _ v _ => fields v
  | List value p => p :: flat_map fields value
  | StrVal _ p | IntVal _ p | UIntVal _ p | FloatVal _ p | BoolVal _ p => [p]
  end.

(** The first list that is not nil. *)
Fixpoint first_attached {ET : ExtTypes} (l : list Processors) : Processors :=
  match l with
  | [] => None
  | Some p :: _ => Some p
  | None :: tl => first_attached tl
  end.

Lemma first_attached_app {ET : ExtTypes} (a b : list Processors) :
  first_attached (a ++ b) =
  match first_attached a with
  | Some p => Some p
  | None => first_attached b
  end.
Proof.
  induction a as [ | x a IH]; [reflexivity | ].
  destruct x; simpl; [reflexivity | exact IH].
Qed.

Section ProcessorsOrder.
Context {ET : ExtTypes} {EO : ExtOps}.

Lemma processors_children_first value :
  Forall (fun v => forall q, Node_Processors v = Ok q -> q = first_attached (fields v)) value ->
  forall q, processors_children Node_Processors value = Ok q ->
            q = first_attached (flat_map fields value).
Proof.
  induction 1 as [ | v tl Hv _ IH]; intros q H.
  - simpl in H. inversion H. reflexivity.
  - cbn [processors_children] in H. cbn [flat_map]. rewrite first_attached_app.
    destruct (Node_Processors v) as [qv | e | ] eqn:Ev; try discriminate H.
    simpl in H. rewrite <- (Hv qv eq_refl).
    destruct qv as [ps | ]; [inversion H; reflexivity | apply IH; exact H].
Qed.

Lemma Processors_first n :
  forall q, Node_Processors n = Ok q -> q = first_attached (fields n).
Proof.
  node_induction n; intros q H; try discriminate H;
    try (simpl in H; inversion H; subst; destruct q; reflexivity).
  - destruct p as [ps | ]; [simpl in H; inversion H; reflexivity | ].
    simpl in H. cbn [fields first_attached].
    apply processors_children_first; assumption.
  - rewrite Processors_Key in H. cbn [fields].
    destruct (isNil v) eqn:Ev.
    + destruct v; try discriminate Ev. inversion H. reflexivity.
    + apply IHv. exact H.
  - destruct p as [ps | ]; [simpl in H; inversion H; reflexivity | ].
    simpl in H. cbn [fields first_attached].
    apply processors_children_first; assumption.
Qed.
End ProcessorsOrder.

(** X27. What [Processors] returns, when it returns, is the first
    processors list that is not nil in the order of the tree: a container's
    own list before those of its children, the children first to last, an
    entry standing for its value. Nothing is merged. *)
Theorem Processors_first_in_order {ET : ExtTypes} {EO : ExtOps} (n : Node) (q : Processors) :
  Node_Processors n = Ok q -> q = first_attached (fields n).
Proof. apply Processors_first. Qed.

Lemma Processors_first_in_order_witness :
  let p1 := [[("add_fields"%string, @NNil Toy.types)]] in
  let p2 := [[("drop_event"%string, @NNil Toy.types)]] in
  let n := Dict [Key "a" (List [IntVal 1 None; StrVal "s" (Some p1)] None) None;
                 Key "b" (StrVal "t" (Some p2)) None;
                 NilNode] None in
  Node_Processors n = Ok (Some p1) /\ Some p1 = first_attached (fields n).
Proof.
  intros p1 p2 n. split; [reflexivity | ].
  exact (@Processors_first_in_order Toy.types Toy.ops n (Some p1) eq_refl).
Defined.

(* ================================================================== *)
(** ** Strings of digests: the control socket path and HashStr *)

Lemma SHA256_blocks_length fuel :
  forall h ws, length h = 8%nat -> length (SHA256.blocks fuel h ws) = 8%nat.
Proof.
  induction fuel as [ | fuel IH]; intros h ws Hh; [exact Hh | ].
  cbn [SHA256.blocks]. destruct ws; [exact Hh | ].
  apply IH. reflexivity.
Qed.

Lemma flat_map_be32_length l : length (flat_map SHA256.be32 l) = (4 * length l)%nat.
Proof.
  induction l as [ | x tl IH]; [reflexivity | ].
  cbn [flat_map]. rewrite length_app, IH. cbn [SHA256.be32 length]. lia.
Qed.

(** A SHA-256 digest has 32 bytes. *)
Lemma SHA256_Sum_length msg : length (SHA256.Sum msg) = 32%nat.
Proof.
  unfold SHA256.Sum. rewrite length_map, flat_map_be32_length.
  rewrite SHA256_blocks_length; reflexivity.
Qed.

Definition hex_digits : string := "0123456789abcdef".

Definition hex_digit (n : Z) : ascii :=
  match String.get (Z.to_nat n) hex_digits with
  | Some c => c
  | None => "0"%char
  end.

(** The verb [%x] on a byte array: two lower-case digits for each byte. *)
Fixpoint hex (bs : bytes) : string :=
  match bs with
  | [] => EmptyString
  | b :: tl =>
      String (hex_digit (Z_of_byte b / 16))
             (String (hex_digit (Z_of_byte b mod 16)) (hex tl))
  end.

Lemma hex_length bs : String.length (hex bs) = (2 * length bs)%nat.
Proof. induction bs as [ | b tl IH]; [reflexivity | ]. cbn [hex String.length length]. lia. Qed.

(** paths (windows): [ControlSocketPath] and [initialControlSocketPath],
    given what [RunningInstalled()] and [Data()] return. *)
Definition ControlSocketPath : string := "\\.\pipe\elastic-agent-system".

Definition initialControlSocketPath (RunningInstalled : bool) (Data : string) : string :=
  if RunningInstalled then ControlSocketPath
  else ("\\.\pipe\elastic-agent-" ++ hex (SHA256.Sum (bytes_of_string Data)))%string.

Lemma append_length (s1 s2 : string) :
  String.length (s1 ++ s2)%string = (String.length s1 + String.length s2)%nat.
Proof. induction s1 as [ | c s1 IH]; [reflexivity | ]. simpl. rewrite IH. reflexivity. Qed.

Lemma prefix_append (s t : string) : String.prefix s (s ++ t)%string = true.
Proof.
  induction s as [ | c s IH]; [destruct t; reflexivity | ].
  simpl. destruct (ascii_dec c c); [exact IH | congruence].
Qed.

(** X28. The control socket path on Windows. When the agent does not run
    installed, the path is the pipe prefix followed by the 64 hexadecimal
    digits of the SHA-256 of the data path: always 87 characters, whatever
    the data path, as the comment in the code says. When it runs installed
    the path is the fixed one, of 29 characters. Both start with the same
    23 characters. *)
Theorem control_socket_path_length (installed : bool) (data : string) :
  String.length (initialControlSocketPath installed data) =
    (if installed then 29 else 87)%nat /\
  String.prefix "\\.\pipe\elastic-agent-" (initialControlSocketPath installed data) = true.
Proof.
  destruct installed.
  - split; [reflexivity | ].
    exact (prefix_append "\\.\pipe\elastic-agent-" "system").
  - unfold initialControlSocketPath. split; [ | apply prefix_append].
    rewrite append_length, hex_length, SHA256_Sum_length. reflexivity.
Qed.

(** [base64.URLEncoding]: the alphabet of RFC 4648, section 5, with padding. *)
Definition base64url : string :=
  "ABCDEFGHIJKLMNOPQRSTUVWXYZabcdefghijklmnopqrstuvwxyz0123456789-_".

Definition b64 (n : Z) : ascii :=
  match String.get (Z.to_nat n) base64url with
  | Some c => c
  | None => "="%char
  end.

(** [base64.URLEncoding.EncodeToString]. *)
Fixpoint EncodeToString (bs : bytes) : string :=
  match bs with
  | [] => EmptyString
  | [a] =>
      let n := (Z_of_byte a * 65536)%Z in
      String (b64 (n / 262144)) (String (b64 ((n / 4096) mod 64)) "==")
  | [a; b] =>
      let n := (Z_of_byte a * 65536 + Z_of_byte b * 256)%Z in
      String (b64 (n / 262144)) (String (b64 ((n / 4096) mod 64))
        (String (b64 ((n / 64) mod 64)) "="))
  | a :: b :: c :: tl =>
      let n := (Z_of_byte a * 65536 + Z_of_byte b * 256 + Z_of_byte c)%Z in
      String (b64 (n / 262144)) (String (b64 ((n / 4096) mod 64))
        (String (b64 ((n / 64) mod 64)) (String (b64 (n mod 64)) (EncodeToString tl))))
  end.

(** The test vectors of RFC 4648, and one that tells the URL alphabet
    from the standard one. *)
Example EncodeToString_vectors :
  map (fun s => EncodeToString (bytes_of_string s))
      [""; "f"; "fo"; "foo"; "foob"; "fooba"; "foobar"]%string =
  [""; "Zg=="; "Zm8="; "Zm9v"; "Zm9vYg=="; "Zm9vYmE="; "Zm9vYmFy"]%string /\
  EncodeToString [xfb; xff; xbf] = "-_-_"%string.
Proof. split; reflexivity. Qed.

Lemma EncodeToString_length_le n :
  forall bs, (length bs <= n)%nat ->
  String.length (EncodeToString bs) = (4 * ((length bs + 2) / 3))%nat.
Proof.
  induction n as [n IH] using lt_wf_ind. intros bs Hn.
  destruct bs as [ | a [ | b [ | c tl]]]; try reflexivity.
  cbn [EncodeToString String.length]. rewrite (IH (length tl)); [ | simpl in Hn; lia | lia].
  cbn [length].
  replace (S (S (S (length tl))) + 2)%nat with (length tl + 2 + 1 * 3)%nat by lia.
  rewrite Nat.div_add by lia. lia.
Qed.

Lemma EncodeToString_length bs :
  String.length (EncodeToString bs) = (4 * ((length bs + 2) / 3))%nat.
Proof. apply (EncodeToString_length_le (length bs)). lia. Qed.

(** [AST.HashStr]. *)
Definition AST_HashStr {ET : ExtTypes} {EO : ExtOps} (a : AST) : res string :=
  h <- AST_Hash a ;; Ok (EncodeToString h).

Lemma Hash_container_length {ET : ExtTypes} {EO : ExtOps} (n : Node) (h : bytes) :
  isScalar n = false -> Hash n = Ok h -> length h = 32%nat.
Proof.
  intros Hs H. destruct n as [ | value p | name v c | value p | | | | | ];
    try discriminate Hs; try discriminate H.
  - simpl in H. destruct (mapM Hash value); try discriminate H.
    inversion H. apply SHA256_Sum_length.
  - rewrite Hash_Key in H. destruct (isNil v).
    + inversion H. apply SHA256_Sum_length.
    + destruct (Hash v); try discriminate H. inversion H. apply SHA256_Sum_length.
  - simpl in H. destruct (mapM Hash value); try discriminate H.
    inversion H. apply SHA256_Sum_length.
Qed.

(** X29. [HashStr] of a tree whose root is not a scalar, when it returns,
    is a string of 44 characters: the URL-safe base64, padded, of the 32
    bytes of a SHA-256 digest. *)
Theorem HashStr_length {ET : ExtTypes} {EO : ExtOps} (a : AST) (s : string) :
  isScalar (root a) = false ->
  AST_HashStr a = Ok s ->
  String.length s = 44%nat /\
  exists h, AST_Hash a = Ok h /\ length h = 32%nat /\ s = EncodeToString h.
Proof.
  intros Hs H. unfold AST_HashStr in H.
  destruct (AST_Hash a) as [h | e | ] eqn:E; try discriminate H.
  simpl in H. inversion H. subst s.
  pose proof (Hash_container_length (root a) h Hs E) as Hl.
  split; [rewrite EncodeToString_length, Hl; reflexivity | ].
  exists h. auto.
Qed.

Lemma HashStr_length_witness :
  let a := @mkAST Toy.types (Dict [] None) in
  AST_HashStr a = Ok "47DEQpj8HBSa-_TImW-5JCeuQeRkm5NMpJWZG3hSuFU="%string /\
  String.length "47DEQpj8HBSa-_TImW-5JCeuQeRkm5NMpJWZG3hSuFU="%string = 44%nat.
Proof.
  intros a.
  assert (H : AST_HashStr a = Ok "47DEQpj8HBSa-_TImW-5JCeuQeRkm5NMpJWZG3hSuFU="%string)
    by (vm_compute; reflexivity).
  split; [exact H | ].
  exact (proj1 (@HashStr_length Toy.types Toy.ops a _ eq_refl H)).
Defined.

(* ================================================================== *)
(** ** The loader on a dotted name whose path exists *)

(** What [loadMap] leaves in the entry [d] at the end of a dotted name
    that is there already, for a value loaded into the Mapping of [v]: the
    children [v] appended to those of the Mapping [d] holds, and [d] as it
    is when it holds no Mapping. *)
Definition merged {ET : ExtTypes} (v : list Node) (d : Node) : Node :=
  match d with
  | Key name (Dict xs p) c => Key name (Dict (xs ++ v) p) c
  | _ => d
  end.

Definition isDict {ET : ExtTypes} (n : Node) : bool :=
  match n with Dict _ _ => true | _ => false end.

Section LoaderMerge.
Context {ET : ExtTypes} {EO : ExtOps}.

Lemma key_name_set_child current i n : key_name (set_child current i n) = key_name current.
Proof. destruct current as [ | | name v c | | | | | | ]; try reflexivity. destruct v; reflexivity. Qed.

Lemma loadMap_walk_kind keys aValue ks :
  forall i last knownNode r,
  loadMap_walk keys aValue i last ks knownNode = Ok r ->
  isKey knownNode = true ->
  isKey r = true /\ key_name r = key_name knownNode.
Proof.
  assert (HA : forall last knownNode,
             isKey knownNode = true ->
             isKey (loadMap_attach keys aValue last knownNode) = true /\
             key_name (loadMap_attach keys aValue last knownNode) = key_name knownNode).
  { intros last knownNode Hk. destruct knownNode as [ | | name x c | | | | | | ];
      try discriminate Hk. unfold loadMap_attach. destruct x; split; reflexivity. }
  induction ks as [ | k ks IH]; intros i last knownNode r H Hk.
  - simpl in H. inversion H. apply HA. exact Hk.
  - cbn [loadMap_walk] in H. destruct (Find knownNode k) as [j n | | ]; try discriminate H.
    + destruct (loadMap_walk keys aValue (S i) i ks n); try discriminate H.
      simpl in H. inversion H.
      rewrite isKey_set_child, key_name_set_child. auto.
    + inversion H. apply HA. exact Hk.
Qed.

Lemma skipn_S_tail (A : Type) (l : list A) : forall i a t,
  skipn i l = a :: t -> skipn (S i) l = t.
Proof.
  induction l as [ | x l IH]; intros i a t H.
  - destruct i; simpl in H; discriminate H.
  - destruct i as [ | i]; [inversion H; reflexivity | ].
    simpl in H. change (skipn (S i) l = t). exact (IH i a t H).
Qed.

(** The walk of [loadMap] along keys that are all found ends on the node
    [Lookup] finds, and leaves there what [merged] says. *)
Lemma loadMap_walk_full keys v name x c ks :
  forall i knownNode,
  skipn i keys = ks ->
  (ks = [] -> (1 <= i)%nat) ->
  Lookup_walk ks knownNode = Ok (Some (Key name x c)) ->
  exists r,
    loadMap_walk keys (Dict v None) i (i - 1) ks knownNode = Ok r /\
    Lookup_walk ks r = Ok (Some (merged v (Key name x c))) /\
    (merged v (Key name x c) = Key name x c -> r = knownNode).
Proof.
  induction ks as [ | k ks IH]; intros i knownNode Hskip Hi HL.
  - simpl in HL. inversion HL. subst knownNode.
    specialize (Hi eq_refl). cbn [loadMap_walk]. unfold loadMap_attach.
    replace (S (i - 1)) with i by lia. rewrite Hskip. cbn [loadMap_rest].
    eexists. split; [reflexivity | ]. split; [ | intros E; exact E].
    cbn [Lookup_walk]. reflexivity.
  - cbn [Lookup_walk] in HL. cbn [loadMap_walk].
    destruct (Find knownNode k) as [j n | | ] eqn:EF; try discriminate HL.
    destruct (IH (S i) n (skipn_S_tail _ keys i k ks Hskip) ltac:(intros; lia) HL)
      as (r' & Hw & Hl & Hsame).
    replace (S i - 1)%nat with i in Hw by lia. rewrite Hw. cbn [bind].
    exists (set_child knownNode j r'). split; [reflexivity | ]. split.
    + cbn [Lookup_walk].
      rewrite (Find_set_child knownNode k j n r' EF
                 (loadMap_walk_kind keys (Dict v None) ks (S i) i n r' Hw)).
      exact Hl.
    + intros E. rewrite (Hsame E). exact (set_child_same knownNode k j n EF).
Qed.
End LoaderMerge.

(** X30. A dotted name whose whole path is in the Mapping already, and
    whose value is a map: [loadMap] appends the entries loaded from the
    value to the Mapping held at the end of the path, without sorting them
    in or looking at their names; when the entry there holds no Mapping (a
    scalar, a Sequence, nothing) the value is dropped and the Mapping is
    left as it was. *)
Theorem loader_merges_existing_path {ET : ExtTypes} {EO : ExtOps}
        (value v : list Node) (name k : string) (x : Node) (c : option Expression) :
  Lookup_walk (Split name selectorSep) (Dict value None) = Ok (Some (Key k x c)) ->
  exists value',
    loadMap_step value name (Dict v None) = Ok value' /\
    Lookup_walk (Split name selectorSep) (Dict value' None) =
      Ok (Some (merged v (Key k x c))) /\
    (isDict x = false -> value' = value).
Proof.
  intros HL. unfold loadMap_step. cbn [isDictOrKey negb].
  pose proof (Split_not_nil name selectorSep) as Hne.
  destruct (loadMap_walk_full (Split name selectorSep) v k x c (Split name selectorSep)
              0 (Dict value None) eq_refl ltac:(intros E; congruence) HL)
    as (r & Hw & Hl & Hsame).
  change (0 - 1)%nat with 0%nat in Hw. rewrite Hw. cbn [bind].
  assert (Hr : exists value', r = Dict value' None).
  { destruct (Split name selectorSep) as [ | k1 ks]; [congruence | ].
    cbn [loadMap_walk] in Hw. cbn [Lookup_walk] in HL.
    destruct (Find (Dict value None) k1); try discriminate HL.
    destruct (loadMap_walk _ _ 1 0 ks n); try discriminate Hw.
    simpl in Hw. inversion Hw. eexists. reflexivity. }
  destruct Hr as (value' & ->). exists value'.
  split; [reflexivity | ]. split; [exact Hl | ].
  intros Hx. assert (E : merged v (Key k x c) = Key k x c)
    by (destruct x; try discriminate Hx; reflexivity).
  specialize (Hsame E). inversion Hsame. reflexivity.
Qed.

Lemma loader_merges_existing_path_witness :
  load (@NMap Toy.types
          [("a"%string, NMap [("z"%string, NInt 1); ("s"%string, NString "x")]);
           ("a.s"%string, NMap [("dropped"%string, NBool true)]);
           ("a.z.."%string, NInt 0);
           ("b"%string, NMap [("y"%string, NMap [("k"%string, NInt 1)])]);
           ("b.y"%string, NMap [("a"%string, NInt 2)])]) =
  Ok (Dict [Key "a" (Dict [Key "s" (StrVal "x" None) None;
                           Key "z" (IntVal 1 None) None] None) None;
            Key "a.z.." (IntVal 0 None) None;
            Key "b" (Dict [Key "y" (Dict [Key "k" (IntVal 1 None) None;
                                          Key "a" (IntVal 2 None) None] None) None]
                          None) None] None) /\
  (exists value',
     loadMap_step [@Key Toy.types "a" (Dict [Key "s" (StrVal "x" None) None] None) None]
                  "a.s" (Dict [Key "dropped" (BoolVal true None) None] None) = Ok value' /\
     value' = [Key "a" (Dict [Key "s" (StrVal "x" None) None] None) None]).
Proof.
  split; [reflexivity | ].
  destruct (@loader_merges_existing_path Toy.types Toy.ops
              [Key "a" (Dict [Key "s" (StrVal "x" None) None] None) None]
              [Key "dropped" (BoolVal true None) None] "a.s" "s" (StrVal "x" None) None
              eq_refl) as (value' & H1 & _ & H3).
  exists value'. split; [exact H1 | exact (H3 eq_refl)].
Defined.
